(** * Textbook RSA and Diffie-Hellman demonstrations: a shallow embedding

    The development follows the two C sources:

    - [rsa_algorithm.c]: [gcdExtended], [findGCD], [modInverse], [power],
      [encrypt], [decrypt], all over the machine types [int] and
      [long long];
    - [diffie-hellman.c]: [factor_distinct], [is_generator], the generator
      search loops of the two [main] routines, [digits_to_bits],
      [gen_safe_prime] and [is_generator_safe_prime], over GMP integers,
      [unsigned long] counters and, in [digits_to_bits], [double].

    Machine integers are values of [Z] together with the range of their C
    type, on a platform with [int] of 32 bits and [long long] and
    [unsigned long] of 64 bits.  An arithmetic operator whose mathematical result leaves the range
    of a signed type, or a division by zero, has no defined result in C: the
    operators below then return [Undef].  Loops are run on a fuel counter;
    [OutOfFuel] is the only way fuel shows up in a result.  A [double] is a
    binary64 value of [spec_float], with the operations rounding to nearest
    even, and [unsigned] has 32 bits. *)

From Stdlib Require Import ZArith List Lia Znumtheory Bool Sorted.
From Stdlib Require Import Zmod.
From Stdlib Require Import SpecFloat.
Import ListNotations.
Local Open Scope Z_scope.

(** ** Results of running C code *)

Inductive result (A : Type) : Type :=
| Ok (a : A)
| Undef
| OutOfFuel.

Arguments Ok {A} a.
Arguments Undef {A}.
Arguments OutOfFuel {A}.

Definition bind {A B : Type} (r : result A) (k : A -> result B) : result B :=
  match r with
  | Ok a => k a
  | Undef => Undef
  | OutOfFuel => OutOfFuel
  end.

Notation "x <- r ;; k" := (bind r (fun x => k))
  (at level 61, r at next level, right associativity).
Notation "' pat <- r ;; k" := (bind r (fun x => match x with pat => k end))
  (at level 61, pat pattern, r at next level, right associativity).

(** ** Primality of small numbers, by trial division

    Used to discharge [Z.prime] on the concrete primes of the examples. *)

Fixpoint no_divisor_upto (p : Z) (k : nat) : bool :=
  match k with
  | O => true
  | S k' => negb (p mod (Z.of_nat k' + 2) =? 0) && no_divisor_upto p k'
  end.

Definition prime_by_trial (p : Z) : bool :=
  (1 <? p) && no_divisor_upto p (Z.to_nat (p - 2)).

(** ** The C arithmetic of [rsa_algorithm.c] *)

Module C.

Definition INT_MIN : Z := - 2 ^ 31.
Definition INT_MAX : Z := 2 ^ 31 - 1.
Definition LLONG_MIN : Z := - 2 ^ 63.
Definition LLONG_MAX : Z := 2 ^ 63 - 1.

(** A value computed at a signed type: defined only inside the range. *)
Definition at_type (lo hi x : Z) : result Z :=
  if (lo <=? x) && (x <=? hi) then Ok x else Undef.

Definition at_int : Z -> result Z := at_type INT_MIN INT_MAX.
Definition at_llong : Z -> result Z := at_type LLONG_MIN LLONG_MAX.

(** [a + b], [a - b], [a * b] at type [int]. *)
Definition int_add (a b : Z) : result Z := at_int (a + b).
Definition int_sub (a b : Z) : result Z := at_int (a - b).
Definition int_mul (a b : Z) : result Z := at_int (a * b).

(** [a / b] and [a % b] truncate towards zero; the divisor must not be zero
    and the quotient must be representable. *)
Definition int_div (a b : Z) : result Z :=
  if b =? 0 then Undef else at_int (Z.quot a b).
Definition int_rem (a b : Z) : result Z :=
  if b =? 0 then Undef
  else _ <- at_int (Z.quot a b) ;; Ok (Z.rem a b).

(** The same operators at type [long long]. *)
Definition ll_mul (a b : Z) : result Z := at_llong (a * b).
Definition ll_rem (a b : Z) : result Z :=
  if b =? 0 then Undef
  else _ <- at_llong (Z.quot a b) ;; Ok (Z.rem a b).

(** Conversion of a [long long] to [int] on return.  A value outside the
    range of [int] is reduced modulo [2^32] into it. *)
Definition to_int (x : Z) : Z := (x + 2 ^ 31) mod 2 ^ 32 - 2 ^ 31.

End C.

(** ** rsa_algorithm.c *)

Module RSA.
Import C.

(** [int gcdExtended(int a, int b, int *x, int *y)]: the result is the
    returned gcd together with the values written through [x] and [y]. *)
Fixpoint gcdExtended_rec (fuel : nat) (a b : Z) : result (Z * Z * Z) :=
  if a =? 0 then Ok (b, 0, 1)
  else
    match fuel with
    | O => OutOfFuel
    | S fuel' =>
        r <- int_rem b a ;;
        '(gcd, x1, y1) <- gcdExtended_rec fuel' r a ;;
        q <- int_div b a ;;
        t <- int_mul q x1 ;;
        x <- int_sub y1 t ;;
        Ok (gcd, x, x1)
    end.

(** From the second call on the first argument is the smaller one, and a
    call then at least halves the second argument of the next call: the
    depth of the recursion is bounded by the number of binary digits of the
    two arguments. *)
Definition gcd_fuel (a b : Z) : nat :=
  S (S (Z.to_nat (Z.log2 (Z.abs a) + Z.log2 (Z.abs b)))).

Definition gcdExtended (a b : Z) : result (Z * Z * Z) :=
  gcdExtended_rec (gcd_fuel a b) a b.

(** [int findGCD(int a, int b)] *)
Definition findGCD (a b : Z) : result Z :=
  '(g, _, _) <- gcdExtended a b ;; Ok g.

(** [int modInverse(int e, int totient)]: the [for] loop from the state
    [d]; it runs at most [totient - 2] times. *)
Fixpoint modInverse_loop (fuel : nat) (e totient d : Z) : result Z :=
  if d <? totient then
    match fuel with
    | O => OutOfFuel
    | S fuel' =>
        p <- int_mul e d ;;
        r <- int_rem p totient ;;
        if r =? 1 then Ok d
        else d' <- int_add d 1 ;; modInverse_loop fuel' e totient d'
    end
  else Ok (-1).

Definition modInverse (e totient : Z) : result Z :=
  modInverse_loop (Z.to_nat (totient - 2)) e totient 2.

(** [int power(int base, int expo, int m)]: the [while] loop on the state
    [(res, b, expo)], with [res] and [b] of type [long long]. *)
Fixpoint power_loop (fuel : nat) (res b expo m : Z) : result Z :=
  if 0 <? expo then
    match fuel with
    | O => OutOfFuel
    | S fuel' =>
        res' <- (if Z.land expo 1 =? 0 then Ok res
                 else p <- ll_mul res b ;; ll_rem p m) ;;
        bb <- ll_mul b b ;;
        b' <- ll_rem bb m ;;
        power_loop fuel' res' b' (Z.quot expo 2) m
    end
  else Ok res.

(** The exponent is halved in every round: one round per binary digit. *)
Definition power_fuel (expo : Z) : nat := S (Z.to_nat (Z.log2 expo)).

Definition power (base expo m : Z) : result Z :=
  b <- int_rem base m ;;
  res <- power_loop (power_fuel expo) 1 b expo m ;;
  Ok (to_int res).

(** [int encrypt(int m, int e, int n)] and [int decrypt(int c, int d, int n)] *)
Definition encrypt (m e n : Z) : result Z := power m e n.
Definition decrypt (c d n : Z) : result Z := power c d n.

(** The sequence of [main]: derive [d], encrypt, decrypt. *)
Definition round_trip (m e n totient : Z) : result Z :=
  d <- modInverse e totient ;;
  c <- encrypt m e n ;;
  decrypt c d n.

(** *** Specifications used by the proofs *)

(** What the loop computes from a state [(res, b, expo)].  The accumulator
    is only ever reduced when it is multiplied, so with no round left it is
    returned as it stands. *)
Definition power_spec (res b expo m : Z) : Z :=
  if expo =? 0 then res else (res * b ^ expo) mod m.

(** The contract of one call: the gcd, the Bezout identity, and the size of
    the coefficients, which keeps the [int] arithmetic of the caller exact. *)
Definition gcd_post (a b g x y : Z) : Prop :=
  g = Z.gcd a b /\ a * x + b * y = g /\
  (a = 0 -> x = 0 /\ y = 1) /\
  (0 < a -> Z.abs x <= b /\ Z.abs y <= a).

End RSA.


(** ** Runs of unbounded loops

    A run returns [v] when some amount of fuel lets it finish with [v]; it
    diverges when no amount does. *)
Definition returns {A : Type} (run : nat -> result A) (v : A) : Prop :=
  exists fuel, run fuel = Ok v.

Definition diverges {A : Type} (run : nat -> result A) : Prop :=
  forall fuel, run fuel = OutOfFuel.

(** ** The GMP operations used by [diffie-hellman.c]

    An [mpz_t] is a value of [Z]; each operation is the function of GMP's
    manual on the arguments the program passes. *)

Module GMP.

(** [mpz_divisible_ui_p(n, d)]: non-zero exactly when [n = q * d] for some
    [q]; only [0] is divisible by [0]. *)
Definition mpz_divisible_ui_p (n d : Z) : bool :=
  if d =? 0 then n =? 0 else n mod d =? 0.

(** [mpz_divexact(q, n, d)] and [mpz_divexact_ui]: the quotient, when [d]
    divides [n]. *)
Definition mpz_divexact (n d : Z) : Z := n / d.
Definition mpz_divexact_ui (n d : Z) : Z := n / d.

(** [mpz_powm(rop, base, exp, mod)] for [exp >= 0]: [base ^ exp] reduced
    into [[0, |mod|)]. *)
Definition mpz_powm (base exp md : Z) : Z := (base ^ exp) mod (Z.abs md).

(** [mpz_setbit(rop, bit_index)] *)
Definition mpz_setbit (x i : Z) : Z := Z.setbit x i.

End GMP.

(** ** diffie-hellman.c *)

Module DH.
Import GMP.

(** Arithmetic on an [unsigned long] counter wraps modulo [2^64]. *)
Definition ULONG_MAX : Z := 2 ^ 64 - 1.
Definition ulong (x : Z) : Z := x mod 2 ^ 64.

(** *** [factor_distinct] *)

(** [while (mpz_divisible_ui_p(n, d)) mpz_divexact_ui(n, n, d);] *)
Fixpoint divide_out (fuel : nat) (n d : Z) : result Z :=
  if mpz_divisible_ui_p n d then
    match fuel with
    | O => OutOfFuel
    | S fuel' => divide_out fuel' (mpz_divexact_ui n d) d
    end
  else Ok n.

(** One trial: record [d] and divide it out when it divides [n]. *)
Definition try_factor (fuel : nat) (n d : Z) (factors : list Z)
  : result (Z * list Z) :=
  if mpz_divisible_ui_p n d then
    n' <- divide_out fuel n d ;; Ok (n', factors ++ [d])
  else Ok (n, factors).

(** The [for] loop over the odd [i], from the state [(n, i, factors)].  The
    square [i * i] is computed on [mpz_t] values. *)
Fixpoint odd_trials (fuel : nat) (n i : Z) (factors : list Z)
  : result (Z * list Z) :=
  if 1 <? n then
    match fuel with
    | O => OutOfFuel
    | S fuel' =>
        '(n', factors') <- try_factor fuel' n i factors ;;
        if n' <? i * i then Ok (n', factors')
        else odd_trials fuel' n' (ulong (i + 2)) factors'
    end
  else Ok (n, factors).

(** [void factor_distinct(mpz_t n, mpz_t factors[], size_t *k)]: the result
    is the content of [factors[0 .. k-1]]. *)
Definition factor_distinct (fuel : nat) (n : Z) : result (list Z) :=
  '(n1, factors1) <- try_factor fuel n 2 [] ;;
  '(n2, factors2) <- odd_trials fuel n1 3 factors1 ;;
  Ok (if 1 <? n2 then factors2 ++ [n2] else factors2).

(** *** [is_generator] and [is_generator_safe_prime] *)

Fixpoint is_generator_loop (g p p_minus_1 : Z) (factors : list Z) : Z :=
  match factors with
  | [] => 1
  | q :: rest =>
      let exp := mpz_divexact p_minus_1 q in
      let t := mpz_powm g exp p in
      if t =? 1 then 0 else is_generator_loop g p p_minus_1 rest
  end.

(** [int is_generator(g, p, factors, k)]: the loop visits
    [factors[0 .. k-1]]. *)
Definition is_generator (g p : Z) (factors : list Z) (k : nat) : Z :=
  is_generator_loop g p (p - 1) (firstn k factors).

Definition is_generator_safe_prime (g P r : Z) : Z :=
  let Pm1 := P - 1 in
  let exp := mpz_divexact_ui Pm1 2 in
  let t := mpz_powm g exp P in
  if t =? 1 then 0
  else
    let exp := mpz_divexact Pm1 r in
    let t := mpz_powm g exp P in
    if t =? 1 then 0 else 1.

(** *** The generator searches of the two [main] routines

    [for (unsigned long cand = start;; ++cand) { if (test(cand)) break; }] *)
Fixpoint generator_search (fuel : nat) (test : Z -> Z) (cand : Z) : result Z :=
  match fuel with
  | O => OutOfFuel
  | S fuel' =>
      if test cand =? 0 then generator_search fuel' test (ulong (cand + 1))
      else Ok cand
  end.

Definition find_generator (fuel : nat) (P : Z) (factors : list Z) (k : nat)
    (start : Z) : result Z :=
  generator_search fuel (fun alpha => is_generator alpha P factors k) start.

Definition find_generator_safe_prime (fuel : nat) (P r : Z) (start : Z)
  : result Z :=
  generator_search fuel (fun alpha => is_generator_safe_prime alpha P r) start.

(** *** The exchange: [(YA, YB, SA, SB)] *)
Definition dh_exchange (alpha XA XB P : Z) : Z * Z * Z * Z :=
  let YA := mpz_powm alpha XA P in
  let YB := mpz_powm alpha XB P in
  let SA := mpz_powm YB XA P in
  let SB := mpz_powm YA XB P in
  (YA, YB, SA, SB).

(** *** [gen_safe_prime]

    The generator draws on GMP's random source and probable-prime
    operations, which are taken as they come: a [substrate] packs them. *)
Record substrate : Type := {
  (** [gmp_randstate_t] *)
  randstate : Type;
  (** [mpz_urandomb(rop, state, n)]: the value drawn and the next state *)
  mpz_urandomb : randstate -> Z -> Z * randstate;
  (** [mpz_nextprime(rop, op)] *)
  mpz_nextprime : Z -> Z;
  (** [mpz_probab_prime_p(n, reps)]: [2], [1] or [0] *)
  mpz_probab_prime_p : Z -> Z -> Z;
  (** [mpz_sizeinbase(op, 10)] *)
  mpz_sizeinbase_10 : Z -> Z
}.

(** The configuration constants of the second program. *)
Definition DIGITS_MIN : Z := 51.
Definition XA_UI : Z := 51015.
Definition XB_UI : Z := 51016.
Definition GEN_START_MIN : Z := 100.
Definition PRP_REPS : Z := 30.

Section SafePrimeGenerator.

Variable gmp : substrate.

(** [digits_to_bits] rounds [digits * 3.3219280948873626] in [double]
    arithmetic; it is a parameter of the loop and of the body here, and
    [gen_safe_prime_c] below supplies the C function. *)
Variable digits_to_bits : Z -> Z.

(** The [for (;;)] loop of [gen_safe_prime] from the state of the random
    source: the result is [(P, r)]. *)
Fixpoint gen_safe_prime_loop (fuel : nat) (st : randstate gmp) (bits digits : Z)
  : result (Z * Z) :=
  match fuel with
  | O => OutOfFuel
  | S fuel' =>
      let (sample, st') := mpz_urandomb gmp st (bits - 1) in
      let candidate_r := mpz_nextprime gmp (mpz_setbit sample (bits - 2)) in
      let P := candidate_r * 2 + 1 in
      if negb (mpz_probab_prime_p gmp P PRP_REPS =? 0)
         && (digits <=? mpz_sizeinbase_10 gmp P)
      then Ok (P, candidate_r)
      else gen_safe_prime_loop fuel' st' bits digits
  end.

(** [static void gen_safe_prime(mpz_t P, mpz_t r, unsigned digits)], from
    the state [st] of the random source after seeding. *)
Definition gen_safe_prime (fuel : nat) (st : randstate gmp) (digits : Z)
  : result (Z * Z) :=
  let bits := digits_to_bits digits in
  let bits := if bits <? 130 then 130 else bits in
  gen_safe_prime_loop fuel st bits digits.

End SafePrimeGenerator.

(** The number of decimal digits of [n >= 0] ([1] for [0]). *)
Fixpoint decimal_digits_aux (fuel : nat) (n : Z) : Z :=
  match fuel with
  | O => 1
  | S fuel' =>
      if n <? 10 then 1 else 1 + decimal_digits_aux fuel' (n / 10)
  end.

Definition decimal_digits (n : Z) : Z :=
  decimal_digits_aux (Z.to_nat (Z.log2 n)) n.

(** *** A substrate to run the generator on

    Fermat's test to base [2] stands for the probable-prime test, a bounded
    upward search for [mpz_nextprime], and the state of the random source is
    the next sample. *)

Fixpoint pow_mod_pos (b : Z) (e : positive) (m : Z) : Z :=
  match e with
  | xH => b mod m
  | xO e' => let h := pow_mod_pos b e' m in (h * h) mod m
  | xI e' => let h := pow_mod_pos b e' m in ((h * h) mod m * b) mod m
  end.

Definition fermat_test (n : Z) : Z :=
  if n <? 2 then 0
  else if n =? 2 then 2
  else match n - 1 with
       | Zpos e => if pow_mod_pos 2 e n =? 1 then 1 else 0
       | _ => 0
       end.

Fixpoint search_probable (fuel : nat) (x : Z) : Z :=
  match fuel with
  | O => 3
  | S fuel' =>
      if fermat_test x =? 0 then search_probable fuel' (x + 1) else x
  end.

Definition fermat_substrate : substrate := {|
  randstate := Z;
  mpz_urandomb := fun st n =>
    (st mod 2 ^ n, (st * 6364136223846793005 + 1442695040888963407) mod 2 ^ 192);
  mpz_nextprime := fun x => search_probable 2000 (x + 1);
  mpz_probab_prime_p := fun n _ => fermat_test n;
  mpz_sizeinbase_10 := fun n => decimal_digits (Z.abs n)
|}.

(** [digits_to_bits] in exact arithmetic: [digits * 3.3219280948873626]
    rounded to the nearest integer, and at least [3]. *)
Definition digits_to_bits_exact (digits : Z) : Z :=
  Z.max 3 ((digits * 33219280948873626 + 5000000000000000) / 10000000000000000).

(** *** [digits_to_bits]

    The [double] arithmetic of the source is IEEE 754 binary64 with rounding
    to nearest even, [unsigned] has 32 bits, and a conversion of a [double]
    to [unsigned] is defined when the truncated value fits. *)
Definition UINT_MAX : Z := 2 ^ 32 - 1.

(** The [double] nearest to [3.3219280948873626] and the [double] [0.5]. *)
Definition LOG2_10 : spec_float := S754_finite false 7480317065143154 (-51).
Definition HALF : spec_float := S754_finite false 4503599627370496 (-53).

Definition double_of_unsigned (n : Z) : spec_float :=
  binary_normalize 53 1024 n 0 false.

Definition unsigned_of_double (x : spec_float) : result Z :=
  match x with
  | S754_zero _ => Ok 0
  | S754_finite s m e =>
      let t := Z.shiftl (Zpos m) e in
      if s then (if t =? 0 then Ok 0 else Undef)
      else if t <=? UINT_MAX then Ok t else Undef
  | _ => Undef
  end.

(** [static unsigned digits_to_bits(unsigned digits)] *)
Definition digits_to_bits (digits : Z) : result Z :=
  let bits_d := SFmul 53 1024 (double_of_unsigned digits) LOG2_10 in
  bits <- unsigned_of_double (SFadd 53 1024 bits_d HALF) ;;
  Ok (if bits <? 3 then 3 else bits).

(** [gen_safe_prime] as the source has it, with [digits_to_bits] called on
    [digits]. *)
Definition gen_safe_prime_c (gmp : substrate) (fuel : nat)
    (st : randstate gmp) (digits : Z) : result (Z * Z) :=
  bits <- digits_to_bits digits ;;
  gen_safe_prime gmp (fun _ => bits) fuel st digits.

(** An upper bound of [log2 10] by repeated squaring: after [k] squarings
    [10 ^ (2 ^ k) <= 2 ^ n * (u / 2 ^ 128)], with [u] rounded up. *)
Fixpoint log2_10_chain (k : nat) : Z * Z :=
  match k with
  | O => (3, 5 * 2 ^ 126)
  | S k' =>
      let (n, u) := log2_10_chain k' in
      let v := (u * u + 2 ^ 128 - 1) / 2 ^ 128 in
      if 2 ^ 129 <=? v then (2 * n + 1, (v + 1) / 2) else (2 * n, v)
  end.

(** *** A substrate whose test grows with the repetitions

    The test runs Fermat's test to one base, and to one more base for
    every repetition beyond the 25th; [mpz_nextprime] searches upwards with
    the test at 25 repetitions, a number of its own that does not follow
    [PRP_REPS]. *)
Definition fermat_base (b n : Z) : bool :=
  (n =? b) ||
  match n - 1 with
  | Zpos e => pow_mod_pos b e n =? 1
  | _ => false
  end.

Definition rounds_test (n reps : Z) : Z :=
  if n <? 2 then 0
  else if forallb (fun b => fermat_base b n)
            (firstn (Z.to_nat (Z.max 1 (reps - 24))) [2; 3; 5; 7; 11; 13])
       then 1 else 0.

Fixpoint search_next (fuel : nat) (x : Z) : Z :=
  match fuel with
  | O => x
  | S fuel' => if rounds_test x 25 =? 0 then search_next fuel' (x + 1) else x
  end.

(** The size in base [10] estimated from the bit length: exact or one too
    big. *)
Definition sizeinbase_10_estimate (n : Z) : Z :=
  if n =? 0 then 1
  else (Z.log2 (Z.abs n) + 1) * 5553023288523357133 / 2 ^ 64 + 1.

Definition rounds_substrate : substrate := {|
  randstate := Z;
  mpz_urandomb := fun st n =>
    (st mod 2 ^ n, (st * 6364136223846793005 + 1442695040888963407) mod 2 ^ 192);
  mpz_nextprime := fun x => search_next 2000 (x + 1);
  mpz_probab_prime_p := rounds_test;
  mpz_sizeinbase_10 := sizeinbase_10_estimate
|}.

(** *** Specifications used by the proofs *)

(** The criterion of the primitive-root test for one candidate. *)
Definition generator_criterion (g p : Z) (factors : list Z) : Prop :=
  forall q, In q factors -> g ^ ((p - 1) / q) mod p <> 1.

(** [factors] lists the distinct prime factors of [n]. *)
Definition distinct_prime_factors (n : Z) (factors : list Z) : Prop :=
  NoDup factors /\ forall q, In q factors <-> Z.prime q /\ (q | n).

(** The multiplicity of [q >= 2] in [n >= 1]: how many times [q] divides
    it. *)
Fixpoint multiplicity_aux (fuel : nat) (q n : Z) : Z :=
  match fuel with
  | O => 0
  | S fuel' =>
      if n mod q =? 0 then 1 + multiplicity_aux fuel' q (n / q) else 0
  end.

Definition multiplicity (q n : Z) : Z :=
  multiplicity_aux (S (Z.to_nat (Z.log2 n))) q n.

(** The product of the listed factors, each raised to its multiplicity in
    [n]. *)
Definition power_product (n : Z) (factors : list Z) : Z :=
  fold_right (fun q acc => q ^ multiplicity q n * acc) 1 factors.

(** The invariant of the trial loops of [factor_distinct]: [n] is what is
    left of [orig], the recorded factors are distinct primes below the next
    trial divisor [d] that no longer divide [n], and [n] has no divisor
    below [d]. *)
Definition trial_invariant (orig n d : Z) (factors : list Z) : Prop :=
  1 <= n /\
  orig = n * power_product orig factors /\
  NoDup factors /\
  (forall q, In q factors -> Z.prime q /\ q < d /\ ~ (q | n) /\ (q | orig)) /\
  (forall c, 2 <= c < d -> ~ (c | n)).

(** What the trial loops leave: a cofactor that is [1] or a prime not yet
    recorded. *)
Definition trial_post (orig n : Z) (factors : list Z) : Prop :=
  1 <= n /\
  orig = n * power_product orig factors /\
  NoDup factors /\
  (forall q, In q factors -> Z.prime q /\ ~ (q | n) /\ (q | orig)) /\
  (n = 1 \/ Z.prime n).

(** The Proth prime [3 * 2^189 + 1]: odd, above the square of [ULONG_MAX],
    and without a divisor that an [unsigned long] can hold. *)
Definition proth_189 : Z := 3 * 2 ^ 189 + 1.

(** [k] squarings modulo [m]. *)
Definition square_iter (m : Z) (k : nat) (x : Z) : Z :=
  Nat.iter k (fun y => (y * y) mod m) x.

End DH.


(** * Notions used by the further properties *)

(** The size of the coefficients of one call of [gcdExtended], for
    arguments of either sign. *)
Definition gcd_size (a b x y : Z) : Prop :=
  (a = 0 -> x = 0 /\ y = 1) /\
  (a <> 0 -> Z.abs x <= Z.max (Z.abs b) 1 /\ Z.abs y <= Z.abs a).

(** [g] is a primitive root modulo [p]: a unit whose powers below the
    [(p - 1)]-th differ from [1]. *)
Definition primitive_root (g p : Z) : Prop :=
  g mod p <> 0 /\ forall k, 0 < k < p - 1 -> g ^ k mod p <> 1.

(** The first [main] of [diffie-hellman.c]: factor [P - 1], search a
    generator from [threshold + 1], exchange.  The prime, the threshold and
    the private keys, which the source sets to constants, are arguments;
    the result is [alpha] and [(YA, YB, SA, SB)]. *)
Definition main_generic (fuel : nat) (P threshold XA XB : Z)
  : result (Z * (Z * Z * Z * Z)) :=
  factors <- DH.factor_distinct fuel (P - 1) ;;
  alpha <- DH.find_generator fuel P factors (length factors)
             (DH.ulong (threshold + 1)) ;;
  Ok (alpha, DH.dh_exchange alpha XA XB P).

(** * Proofs about rsa_algorithm.c *)

Import C RSA.

Lemma no_divisor_upto_sound p k :
  no_divisor_upto p k = true ->
  forall d, 2 <= d < Z.of_nat k + 2 -> ~ (d | p).
Proof.
  induction k as [|k IH]; intros Hcheck d Hd; [lia|].
  cbn [no_divisor_upto] in Hcheck. apply andb_true_iff in Hcheck.
  destruct Hcheck as [Hk Hrest].
  destruct (Z.eq_dec d (Z.of_nat k + 2)) as [->|Hne].
  - intros Hdiv. apply Z.mod_divide in Hdiv; [|lia].
    rewrite Hdiv in Hk. discriminate.
  - apply IH; [exact Hrest|lia].
Qed.

Lemma prime_by_trial_sound p : prime_by_trial p = true -> Z.prime p.
Proof.
  unfold prime_by_trial. intros Hcheck. apply andb_true_iff in Hcheck.
  destruct Hcheck as [Hgt Hnodiv]. apply Z.ltb_lt in Hgt.
  split; [exact Hgt|].
  intros n Hn. apply (no_divisor_upto_sound p _ Hnodiv). lia.
Qed.

Section CArithmetic.

Lemma at_type_ok lo hi x : lo <= x <= hi -> at_type lo hi x = Ok x.
Proof.
  intros [Hlo Hhi]. unfold at_type.
  apply Z.leb_le in Hlo. apply Z.leb_le in Hhi.
  now rewrite Hlo, Hhi.
Qed.

Lemma at_int_ok x : INT_MIN <= x <= INT_MAX -> at_int x = Ok x.
Proof. apply at_type_ok. Qed.

Lemma at_llong_ok x : LLONG_MIN <= x <= LLONG_MAX -> at_llong x = Ok x.
Proof. apply at_type_ok. Qed.

Lemma bind_Ok_inv {A B} (r : result A) (k : A -> result B) v :
  bind r k = Ok v -> exists a, r = Ok a /\ k a = Ok v.
Proof. destruct r; simpl; try discriminate. eauto. Qed.

Lemma int_bounds : INT_MIN = -2147483648 /\ INT_MAX = 2147483647.
Proof. split; reflexivity. Qed.

Lemma llong_bounds :
  LLONG_MIN = -9223372036854775808 /\ LLONG_MAX = 9223372036854775807.
Proof. split; reflexivity. Qed.

Lemma to_int_id x : INT_MIN <= x <= INT_MAX -> to_int x = x.
Proof.
  destruct int_bounds as [Hmin Hmax]. rewrite Hmin, Hmax. intros H.
  unfold to_int. change (2 ^ 31) with 2147483648.
  change (2 ^ 32) with 4294967296.
  rewrite Z.mod_small by lia. lia.
Qed.

(** On non-negative operands C's [/] and [%] are the floor division of [Z]. *)
Lemma int_rem_nonneg a b :
  0 <= a <= INT_MAX -> 0 < b -> int_rem a b = Ok (a mod b).
Proof.
  destruct int_bounds as [Hmin Hmax]. intros Ha Hb. unfold int_rem.
  destruct (Z.eqb_spec b 0) as [->|_]; [lia|].
  rewrite Z.quot_div_nonneg by lia.
  rewrite at_int_ok.
  - simpl. now rewrite Z.rem_mod_nonneg by lia.
  - split.
    + pose proof (Z.div_pos a b). lia.
    + pose proof (Z.div_le_upper_bound a b INT_MAX). nia.
Qed.

Lemma int_div_nonneg a b :
  0 <= a <= INT_MAX -> 0 < b -> int_div a b = Ok (a / b).
Proof.
  destruct int_bounds as [Hmin Hmax]. intros Ha Hb. unfold int_div.
  destruct (Z.eqb_spec b 0) as [->|_]; [lia|].
  rewrite Z.quot_div_nonneg by lia.
  apply at_int_ok. split.
  - pose proof (Z.div_pos a b). lia.
  - pose proof (Z.div_le_upper_bound a b INT_MAX). nia.
Qed.

Lemma ll_rem_nonneg a b :
  0 <= a <= LLONG_MAX -> 0 < b -> ll_rem a b = Ok (a mod b).
Proof.
  destruct llong_bounds as [Hmin Hmax]. intros Ha Hb. unfold ll_rem.
  destruct (Z.eqb_spec b 0) as [->|_]; [lia|].
  rewrite Z.quot_div_nonneg by lia.
  rewrite at_llong_ok.
  - simpl. now rewrite Z.rem_mod_nonneg by lia.
  - split.
    + pose proof (Z.div_pos a b). lia.
    + pose proof (Z.div_le_upper_bound a b LLONG_MAX). nia.
Qed.

(** Two factors below an [int] modulus multiply inside [long long]. *)
Lemma ll_mul_reduced a b m :
  0 <= a <= m -> 0 <= b <= m -> m <= INT_MAX ->
  ll_mul a b = Ok (a * b) /\ 0 <= a * b <= LLONG_MAX.
Proof.
  destruct int_bounds as [_ Hmax]. destruct llong_bounds as [Hlmin Hlmax].
  intros Ha Hb Hm.
  assert (0 <= a * b <= 2147483647 * 2147483647) by nia.
  split; [apply at_llong_ok|]; lia.
Qed.

End CArithmetic.

(** ** [power]: square and multiply *)

Section Power.

Lemma log2_half e : 1 < e -> Z.log2 (e / 2) = Z.log2 e - 1.
Proof.
  intros He. change 2 with (2 ^ 1) at 1.
  rewrite <- Z.shiftr_div_pow2, Z.log2_shiftr by lia.
  pose proof (Z.log2_pos e He). lia.
Qed.

Lemma land_1_parity e : 0 <= e -> Z.land e 1 = e mod 2.
Proof. intros He. change 1 with (Z.ones 1). now rewrite Z.land_ones by lia. Qed.

Lemma power_spec_step res b expo m :
  0 < expo -> 0 < m ->
  power_spec (if Z.land expo 1 =? 0 then res else (res * b) mod m)
             ((b * b) mod m) (expo / 2) m
  = power_spec res b expo m.
Proof.
  intros He Hm. unfold power_spec.
  rewrite land_1_parity by lia.
  destruct (Z.eqb_spec expo 0) as [|_]; [lia|].
  pose proof (Z.div_mod expo 2 ltac:(lia)) as Hdm.
  pose proof (Z.mod_pos_bound expo 2 ltac:(lia)) as Hbit.
  assert (Hh : 0 <= expo / 2) by (apply Z.div_pos; lia).
  assert (Hsq : ((b * b) mod m) ^ (expo / 2) mod m = b ^ (2 * (expo / 2)) mod m).
  { rewrite Z.mod_pow_l, Z.pow_mul_r by lia. now rewrite Z.pow_2_r. }
  destruct (Z.eqb_spec (expo mod 2) 0) as [Hev|Hodd].
  - destruct (Z.eqb_spec (expo / 2) 0) as [Hz|_]; [lia|].
    rewrite <- Z.mul_mod_idemp_r, Hsq, Z.mul_mod_idemp_r by lia.
    now replace (2 * (expo / 2)) with expo by lia.
  - assert (Hone : expo mod 2 = 1) by lia.
    destruct (Z.eqb_spec (expo / 2) 0) as [Hz|_].
    + replace expo with 1 by lia. now rewrite Z.pow_1_r.
    + rewrite <- Z.mul_mod_idemp_r, Hsq, Z.mul_mod_idemp_r by lia.
      rewrite Z.mul_mod_idemp_l by lia.
      f_equal. replace expo with (1 + 2 * (expo / 2)) at 2 by lia.
      rewrite Z.pow_add_r, Z.pow_1_r by lia. ring.
Qed.

(** The loop runs without leaving [long long] and ends on [power_spec]. *)
Lemma power_loop_exact fuel : forall res b expo m,
  1 <= m <= INT_MAX -> 0 <= res <= m -> 0 <= b < m -> 0 <= expo ->
  (0 < expo -> Z.log2 expo < Z.of_nat fuel) ->
  power_loop fuel res b expo m = Ok (power_spec res b expo m).
Proof.
  destruct llong_bounds as [_ Hlmax].
  induction fuel as [|fuel IH]; intros res b expo m Hm Hres Hb He Hfuel.
  - pose proof (Z.log2_nonneg expo).
    replace expo with 0 by lia. reflexivity.
  - cbn [power_loop]. destruct (Z.ltb_spec 0 expo) as [Hpos|Hzero].
    + destruct (ll_mul_reduced res b m) as [Hrb Hrb_range]; try lia.
      destruct (ll_mul_reduced b b m) as [Hbb Hbb_range]; try lia.
      assert (Hres' : (if Z.land expo 1 =? 0 then Ok res
                       else p <- ll_mul res b ;; ll_rem p m)
                      = Ok (if Z.land expo 1 =? 0 then res else (res * b) mod m)).
      { destruct (Z.land expo 1 =? 0); [reflexivity|].
        rewrite Hrb. cbn [bind]. apply ll_rem_nonneg; lia. }
      rewrite Hres', Hbb. cbn [bind].
      rewrite ll_rem_nonneg by lia. cbn [bind].
      rewrite Z.quot_div_nonneg by lia.
      rewrite IH.
      * f_equal. apply power_spec_step; lia.
      * lia.
      * destruct (Z.land expo 1 =? 0); [lia|].
        pose proof (Z.mod_pos_bound (res * b) m). lia.
      * apply Z.mod_pos_bound. lia.
      * apply Z.div_pos; lia.
      * intros Hhalf. specialize (Hfuel Hpos).
        assert (1 < expo) by (destruct (Z.eq_dec expo 1) as [->|]; [discriminate|lia]).
        rewrite log2_half by lia. lia.
    + replace expo with 0 by lia. reflexivity.
Qed.

End Power.

(** The run of [power] on a non-negative base: exact, inside [long long],
    and unchanged by the conversion to [int]. *)
Lemma power_exact base expo m :
  0 <= base <= INT_MAX -> 1 <= expo <= INT_MAX -> 1 <= m <= INT_MAX ->
  exists r,
    power_loop (power_fuel expo) 1 (base mod m) expo m = Ok r /\
    0 <= r < m /\ to_int r = r /\
    power base expo m = Ok r /\
    r = base ^ expo mod m.
Proof.
  intros Hbase Hexpo Hm.
  destruct int_bounds as [Hmin Hmax].
  pose proof (Z.mod_pos_bound base m ltac:(lia)) as Hb.
  assert (Hloop : power_loop (power_fuel expo) 1 (base mod m) expo m
                  = Ok (base ^ expo mod m)).
  { rewrite power_loop_exact; try lia.
    - unfold power_spec. destruct (Z.eqb_spec expo 0); [lia|].
      now rewrite Z.mul_1_l, Z.mod_pow_l.
    - intros _. unfold power_fuel. pose proof (Z.log2_nonneg expo). lia. }
  pose proof (Z.mod_pos_bound (base ^ expo) m ltac:(lia)) as Hr.
  exists (base ^ expo mod m).
  split; [exact Hloop|]. split; [lia|].
  split; [apply to_int_id; lia|]. split; [|reflexivity].
  unfold power. rewrite int_rem_nonneg by lia. cbn [bind].
  rewrite Hloop. cbn [bind]. now rewrite to_int_id by lia.
Qed.

(** C10. For a base [>= 0], an exponent [>= 1] and a modulus [m] with
    [1 <= m <= 2^31 - 1], all of type [int], the loop of [power] finishes
    with every product [res * b] and [b * b] inside [long long] (an
    overflow would make the run [Undef]), on a value [r] of [[0, m)] that
    the conversion to [int] leaves unchanged, and [r] is the mathematical
    [base ^ expo mod m]. *)
Theorem power_machine_arithmetic_exact base expo m :
  0 <= base <= INT_MAX -> 1 <= expo <= INT_MAX -> 1 <= m <= INT_MAX ->
  exists r,
    power_loop (power_fuel expo) 1 (base mod m) expo m = Ok r /\
    0 <= r < m /\ to_int r = r /\
    power base expo m = Ok r /\
    r = base ^ expo mod m.
Proof. exact (power_exact base expo m). Qed.

Lemma power_machine_arithmetic_exact_witness :
  exists r,
    power_loop (power_fuel 13) 1 (7 mod 33) 13 33 = Ok r /\
    0 <= r < 33 /\ to_int r = r /\
    power 7 13 33 = Ok r /\
    r = 7 ^ 13 mod 33.
Proof.
  apply (power_machine_arithmetic_exact 7 13 33); unfold INT_MAX; lia.
Defined.

(** With exponent [0] the loop body never runs and [res], initialised to
    [1], is returned unreduced, whatever the modulus. *)
Lemma power_exponent_zero base m :
  0 <= base <= INT_MAX -> 1 <= m <= INT_MAX -> power base 0 m = Ok 1.
Proof.
  intros Hbase Hm. unfold power. now rewrite int_rem_nonneg by lia.
Qed.

(** With modulus [1] and one round at least, the result is [0]. *)
Lemma power_modulus_one base expo :
  0 <= base <= INT_MAX -> 1 <= expo <= INT_MAX -> power base expo 1 = Ok 0.
Proof.
  intros Hbase Hexpo.
  assert (H1 : 1 <= 1 <= INT_MAX) by (unfold INT_MAX; lia).
  destruct (power_exact base expo 1 Hbase Hexpo H1)
    as (r & _ & Hr & _ & Hp & _).
  rewrite Hp. f_equal. lia.
Qed.

(** C8. At exponent [0] and modulus [1] the function returns [1], where
    [base ^ 0 mod 1], the value announced by the comment on [power], is
    [0]: the initial [res = 1] is never reduced modulo [m]. *)
Theorem power_exponent_zero_modulus_one :
  power 5 0 1 = Ok 1 /\ 5 ^ 0 mod 1 = 0 /\ 1 mod 1 = 0.
Proof. repeat split. Qed.

(** ** [gcdExtended] *)

Section ExtendedEuclid.

Lemma gcd_post_base b : 0 < b -> gcd_post 0 b b 0 1.
Proof.
  intros Hb. unfold gcd_post. rewrite Z.gcd_0_l, Z.abs_eq by lia.
  repeat split; lia.
Qed.

(** Back-substitution: from the result of the inner call on [(b % a, a)] to
    the result of the call on [(a, b)]. *)
Lemma gcdExtended_step fuel a b g x1 y1 :
  0 < a <= INT_MAX -> 0 < b <= INT_MAX ->
  gcdExtended_rec fuel (b mod a) a = Ok (g, x1, y1) ->
  gcd_post (b mod a) a g x1 y1 ->
  gcdExtended_rec (S fuel) a b = Ok (g, y1 - b / a * x1, x1) /\
  gcd_post a b g (y1 - b / a * x1) x1.
Proof.
  destruct int_bounds as [Hmin Hmax].
  intros Ha Hb Hrec (Hg & Hbez & Hzero & Hpos).
  pose proof (Z.mod_pos_bound b a ltac:(lia)) as Hr.
  pose proof (Z.div_mod b a ltac:(lia)) as Hdm.
  assert (Hq : 0 <= b / a) by (apply Z.div_pos; lia).
  assert (Hsize : Z.abs (b / a * x1) <= b /\ Z.abs (y1 - b / a * x1) <= b
                  /\ Z.abs x1 <= a).
  { destruct (Z.eq_dec (b mod a) 0) as [Hr0|Hr0].
    - destruct (Hzero Hr0) as [-> ->]. rewrite Z.mul_0_r. simpl. lia.
    - destruct (Hpos ltac:(lia)) as [Hx1 Hy1].
      rewrite Z.abs_mul, (Z.abs_eq (b / a)) by lia.
      assert (b / a * Z.abs x1 <= b / a * a) by (apply Z.mul_le_mono_nonneg_l; lia).
      lia. }
  split.
  - cbn [gcdExtended_rec]. destruct (Z.eqb_spec a 0) as [|_]; [lia|].
    rewrite int_rem_nonneg by lia. cbn [bind]. rewrite Hrec. cbn [bind].
    rewrite int_div_nonneg by lia. cbn [bind].
    unfold int_mul, int_sub. rewrite at_int_ok by lia. cbn [bind].
    rewrite at_int_ok by lia. reflexivity.
  - unfold gcd_post. split; [|split; [|split]].
    + rewrite Hg. apply Z.gcd_mod. lia.
    + rewrite <- Hbez. rewrite Hdm at 2. ring.
    + lia.
    + intros _. lia.
Qed.

(** Once the first argument is the smaller one, [log2 a + log2 b] bounds the
    depth of the recursion. *)
Lemma gcdExtended_rec_ordered fuel : forall a b,
  0 < a <= b -> b <= INT_MAX ->
  Z.log2 a + Z.log2 b < Z.of_nat fuel ->
  exists g x y, gcdExtended_rec fuel a b = Ok (g, x, y) /\ gcd_post a b g x y.
Proof.
  induction fuel as [|fuel IH]; intros a b Hab Hb Hfuel.
  - pose proof (Z.log2_nonneg a). pose proof (Z.log2_nonneg b). lia.
  - pose proof (Z.mod_pos_bound b a ltac:(lia)) as Hr.
    destruct (Z.eq_dec (b mod a) 0) as [Hr0|Hr0].
    + destruct (gcdExtended_step fuel a b a 0 1) as [Hrun Hpost]; try lia.
      * rewrite Hr0. destruct fuel; reflexivity.
      * rewrite Hr0. apply gcd_post_base. lia.
      * eauto.
    + destruct (IH (b mod a) a) as (g & x1 & y1 & Hrun & Hpost); try lia.
      * pose proof (Z.div_mod b a ltac:(lia)) as Hdm.
        assert (1 <= b / a) by (apply Z.div_le_lower_bound; lia).
        assert (H2r : 2 * (b mod a) <= b) by nia.
        apply Z.log2_le_mono in H2r.
        rewrite Z.log2_double in H2r by lia. lia.
      * destruct (gcdExtended_step fuel a b g x1 y1) as [Hrun' Hpost']; try lia;
          eauto.
Qed.

(** More fuel never changes a result. *)
Lemma gcdExtended_rec_more fuel : forall a b v,
  gcdExtended_rec fuel a b = Ok v ->
  forall fuel', (fuel <= fuel')%nat -> gcdExtended_rec fuel' a b = Ok v.
Proof.
  induction fuel as [|fuel IH]; intros a b v Hrun fuel' Hle.
  - cbn [gcdExtended_rec] in Hrun.
    destruct fuel'; cbn [gcdExtended_rec];
      destruct (a =? 0); congruence.
  - destruct fuel' as [|fuel']; [lia|].
    cbn [gcdExtended_rec] in *. destruct (a =? 0); [exact Hrun|].
    apply bind_Ok_inv in Hrun. destruct Hrun as (r & Hr & Hrun).
    apply bind_Ok_inv in Hrun. destruct Hrun as (inner & Hinner & Hrun).
    rewrite Hr. cbn [bind].
    rewrite (IH _ _ _ Hinner fuel') by lia. exact Hrun.
Qed.

End ExtendedEuclid.

(** C7. For [int] arguments [a, b > 0], [gcdExtended a b] returns [g] and
    writes [x] and [y] with [a * x + b * y = g] and [g = gcd a b]; the base
    case [a = 0] gives [(b, 0, 1)], and the call on [(a, b)] back-substitutes
    [x = y1 - (b / a) * x1], [y = x1] from the result [(g, x1, y1)] of the
    call on [(b mod a, a)]. *)
Theorem gcdExtended_bezout a b :
  0 < a <= INT_MAX -> 0 < b <= INT_MAX ->
  (exists g x y,
     gcdExtended a b = Ok (g, x, y) /\ a * x + b * y = g /\ g = Z.gcd a b) /\
  gcdExtended 0 b = Ok (b, 0, 1) /\
  (exists g x1 y1,
     gcdExtended (b mod a) a = Ok (g, x1, y1) /\
     gcdExtended a b = Ok (g, y1 - b / a * x1, x1)).
Proof.
  intros Ha Hb.
  pose proof (Z.log2_nonneg a) as Hla. pose proof (Z.log2_nonneg b) as Hlb.
  assert (Hmain : exists g x y,
            gcdExtended a b = Ok (g, x, y) /\ gcd_post a b g x y).
  { unfold gcdExtended, gcd_fuel. rewrite !Z.abs_eq by lia.
    set (fuel := S (Z.to_nat (Z.log2 a + Z.log2 b))).
    assert (Hfuel : Z.log2 a + Z.log2 b < Z.of_nat fuel) by (unfold fuel; lia).
    destruct (Z_le_gt_dec a b) as [Hle|Hgt].
    - apply (gcdExtended_rec_ordered (S fuel) a b); lia.
    - assert (Hmod : b mod a = b) by (apply Z.mod_small; lia).
      assert (Hfuel' : Z.log2 (b mod a) + Z.log2 a < Z.of_nat fuel)
        by (rewrite Hmod; lia).
      destruct (gcdExtended_rec_ordered fuel (b mod a) a
                  ltac:(lia) ltac:(lia) Hfuel')
        as (g & x1 & y1 & Hrun & Hpost).
      destruct (gcdExtended_step fuel a b g x1 y1 Ha Hb Hrun Hpost).
      eauto. }
  destruct Hmain as (g & x & y & Hrun & Hg & Hbez & _).
  split; [eauto 6|]. split; [reflexivity|].
  pose proof (Z.mod_pos_bound b a ltac:(lia)) as Hr.
  assert (Hinner : exists g' x1 y1,
            gcdExtended (b mod a) a = Ok (g', x1, y1) /\
            gcd_post (b mod a) a g' x1 y1).
  { destruct (Z.eq_dec (b mod a) 0) as [Hr0|Hr0].
    - rewrite Hr0. exists a, 0, 1. split; [reflexivity|].
      apply gcd_post_base; lia.
    - unfold gcdExtended, gcd_fuel. rewrite !Z.abs_eq by lia.
      apply gcdExtended_rec_ordered; lia. }
  destruct Hinner as (g' & x1 & y1 & Hrun' & Hpost').
  exists g', x1, y1. split; [exact Hrun'|].
  destruct (gcdExtended_step _ a b g' x1 y1 Ha Hb Hrun' Hpost') as [Hup _].
  unfold gcdExtended in Hrun.
  set (f1 := gcd_fuel a b) in *. set (f2 := S (gcd_fuel (b mod a) a)) in *.
  pose proof (gcdExtended_rec_more f1 a b _ Hrun (Nat.max f1 f2) ltac:(lia)) as E1.
  pose proof (gcdExtended_rec_more f2 a b _ Hup (Nat.max f1 f2) ltac:(lia)) as E2.
  unfold gcdExtended. fold f1. rewrite Hrun. congruence.
Qed.

Lemma gcdExtended_bezout_witness :
  (exists g x y,
     gcdExtended 12 18 = Ok (g, x, y) /\ 12 * x + 18 * y = g /\ g = Z.gcd 12 18) /\
  gcdExtended 0 18 = Ok (18, 0, 1) /\
  (exists g x1 y1,
     gcdExtended (18 mod 12) 12 = Ok (g, x1, y1) /\
     gcdExtended 12 18 = Ok (g, y1 - 18 / 12 * x1, x1)).
Proof.
  apply (gcdExtended_bezout 12 18); unfold INT_MAX; lia.
Defined.

(** ** [modInverse]: the scan from [d = 2] *)

Section ModInverse.

(** The loop stops at the first [d' >= d] below [totient] whose product with
    [e] leaves remainder [1], and yields [-1] when it meets none. *)
Lemma modInverse_loop_scan fuel : forall e totient d,
  0 <= e -> 0 <= d -> totient <= INT_MAX -> e * (totient - 1) <= INT_MAX ->
  totient - d <= Z.of_nat fuel ->
  (exists d', modInverse_loop fuel e totient d = Ok d' /\
              d <= d' < totient /\ (e * d') mod totient = 1 /\
              forall c, d <= c < d' -> (e * c) mod totient <> 1) \/
  (modInverse_loop fuel e totient d = Ok (-1) /\
   forall c, d <= c < totient -> (e * c) mod totient <> 1).
Proof.
  destruct int_bounds as [Hmin Hmax].
  induction fuel as [|fuel IH]; intros e totient d He Hd Ht Hprod Hfuel;
    cbn [modInverse_loop]; destruct (Z.ltb_spec d totient) as [Hlt|Hge];
    try (right; split; [reflexivity|intros; lia]); [lia|].
  assert (Hed : 0 <= e * d <= INT_MAX) by nia.
  unfold int_mul. rewrite at_int_ok by lia. cbn [bind].
  rewrite int_rem_nonneg by lia. cbn [bind].
  destruct (Z.eqb_spec ((e * d) mod totient) 1) as [Hhit|Hmiss].
  - left. exists d. split; [reflexivity|]. split; [lia|].
    split; [exact Hhit|]. intros; lia.
  - unfold int_add. rewrite at_int_ok by lia. cbn [bind].
    destruct (IH e totient (d + 1)) as [(d' & Hrun & Hd' & Hinv & Hleast)|[Hrun Hnone]];
      try lia.
    + left. exists d'. split; [exact Hrun|]. split; [lia|].
      split; [exact Hinv|].
      intros c Hc. destruct (Z.eq_dec c d) as [->|]; [exact Hmiss|].
      apply Hleast. lia.
    + right. split; [exact Hrun|].
      intros c Hc. destruct (Z.eq_dec c d) as [->|]; [exact Hmiss|].
      apply Hnone. lia.
Qed.

(** A residue [d] of [[2, modulus)] with [e * d = 1] modulo [modulus] exists
    exactly for the [e] coprime to [modulus] that are not themselves
    congruent to [1]. *)
Lemma inverse_from_two e modulus :
  1 < modulus ->
  (exists d, 2 <= d < modulus /\ (e * d) mod modulus = 1) <->
  Z.gcd e modulus = 1 /\ e mod modulus <> 1.
Proof.
  intros Hm. split.
  - intros (d & Hd & Hinv). split.
    + apply Z.coprime_Bezout. exists d, (- (e * d / modulus)).
      pose proof (Z.div_mod (e * d) modulus ltac:(lia)). lia.
    + intros He. rewrite <- Z.mul_mod_idemp_l, He, Z.mul_1_l in Hinv by lia.
      rewrite Z.mod_small in Hinv by lia. lia.
  - intros [Hgcd He]. exists (Z.invmod e modulus).
    pose proof (Z.invmod_coprime e modulus ltac:(lia) Hgcd) as Hinv.
    pose proof (Z.mod_invmod modulus e) as Hred.
    pose proof (Z.mod_pos_bound (Z.invmod e modulus) modulus ltac:(lia)) as Hrange.
    rewrite Hred in Hrange. rewrite Z.mul_comm in Hinv.
    split; [|exact Hinv].
    destruct (Z.eq_dec (Z.invmod e modulus) 0) as [E0|N0].
    { rewrite E0, Z.mul_0_r, Z.mod_0_l in Hinv by lia. lia. }
    destruct (Z.eq_dec (Z.invmod e modulus) 1) as [E1|N1].
    { rewrite E1, Z.mul_1_r in Hinv. contradiction. }
    lia.
Qed.

Lemma modInverse_scan e modulus :
  1 < modulus <= INT_MAX -> 0 <= e -> e * (modulus - 1) <= INT_MAX ->
  (exists d, modInverse e modulus = Ok d /\
             2 <= d < modulus /\ (e * d) mod modulus = 1 /\
             Z.gcd e modulus = 1 /\ e mod modulus <> 1) \/
  (modInverse e modulus = Ok (-1) /\
   (Z.gcd e modulus <> 1 \/ e mod modulus = 1)).
Proof.
  intros Hm He Hprod. unfold modInverse.
  destruct (modInverse_loop_scan (Z.to_nat (modulus - 2)) e modulus 2)
    as [(d & Hrun & Hd & Hinv & _)|[Hrun Hnone]]; try lia.
  - left. exists d. split; [exact Hrun|]. split; [lia|].
    split; [exact Hinv|].
    apply (inverse_from_two e modulus); [lia|]. exists d. split; [lia|exact Hinv].
  - right. split; [exact Hrun|].
    destruct (Z.eq_dec (Z.gcd e modulus) 1) as [Hgcd|]; [|now left].
    destruct (Z.eq_dec (e mod modulus) 1) as [|Hne]; [now right|].
    destruct (proj2 (inverse_from_two e modulus ltac:(lia)) (conj Hgcd Hne))
      as (d & Hd & Hinv).
    exfalso. exact (Hnone d Hd Hinv).
Qed.

End ModInverse.

(** C9, as the code has it.  For a modulus [> 1] and an [e >= 0] whose
    products [e * d] with the candidates stay inside [int], [modInverse]
    returns either a [d] with [0 < d < modulus] and
    [(e * d) mod modulus = 1], found by scanning up from [2], or [-1]; and
    it returns [-1] exactly when [gcd e modulus <> 1] or [e] is congruent to
    [1], whose inverse [1] lies below the start of the scan. *)
Theorem modInverse_contract e modulus :
  1 < modulus <= INT_MAX -> 0 <= e -> e * (modulus - 1) <= INT_MAX ->
  (exists d, modInverse e modulus = Ok d /\
             (d = -1 \/ (0 < d < modulus /\ (e * d) mod modulus = 1))) /\
  (modInverse e modulus = Ok (-1) <->
   Z.gcd e modulus <> 1 \/ e mod modulus = 1).
Proof.
  intros Hm He Hprod.
  destruct (modInverse_scan e modulus Hm He Hprod)
    as [(d & Hrun & Hd & Hinv & Hgcd & Hne)|[Hrun Hwhy]].
  - split.
    + exists d. split; [exact Hrun|right]. split; [lia|exact Hinv].
    + rewrite Hrun. split.
      * intros [= Hneg]. lia.
      * intros [|]; contradiction.
  - split.
    + exists (-1). auto.
    + tauto.
Qed.

Lemma modInverse_contract_witness :
  (exists d, modInverse 3 8 = Ok d /\
             (d = -1 \/ (0 < d < 8 /\ (3 * d) mod 8 = 1))) /\
  (modInverse 3 8 = Ok (-1) <-> Z.gcd 3 8 <> 1 \/ 3 mod 8 = 1).
Proof.
  apply (modInverse_contract 3 8); unfold INT_MAX; lia.
Defined.

(** C9 as stated fails at [e = 1]: [1] is coprime to [5], and the scan,
    which starts at [d = 2], reports that there is no inverse. *)
Lemma modInverse_one_counterexample :
  ~ (modInverse 1 5 = Ok (-1) <-> Z.gcd 1 5 <> 1).
Proof.
  intros [Hfwd _]. apply Hfwd; reflexivity.
Qed.

(** ** The RSA round trip *)

Section RoundTrip.

(** Fermat's little theorem, iterated: an exponent congruent to [1] modulo
    [p - 1] acts as the identity modulo the prime [p]. *)
Lemma fermat_exponent p m k :
  Z.prime p -> 0 <= k -> m ^ (1 + k * (p - 1)) mod p = m mod p.
Proof.
  intros Hp Hk. pose proof (Z.prime_ge_2 p Hp) as Hp2.
  rewrite Z.pow_add_r, Z.pow_1_r by nia.
  destruct (Z.eq_dec (m mod p) 0) as [Hz|Hnz].
  - now rewrite <- Z.mul_mod_idemp_l, Hz by lia.
  - rewrite <- Z.mul_mod_idemp_r by lia.
    replace (k * (p - 1)) with ((p - 1) * k) by ring.
    rewrite Z.pow_mul_r by lia.
    rewrite <- Z.mod_pow_l, (Z.fermat_nz p m Hp Hnz).
    rewrite Z.pow_1_l by lia.
    rewrite Z.mul_mod_idemp_r, Z.mul_1_r by lia. reflexivity.
Qed.

Lemma divide_coprime_product p q x :
  Z.gcd p q = 1 -> (p | x) -> (q | x) -> (p * q | x).
Proof.
  intros Hpq [k ->] Hq.
  assert (Hqk : (q | k)).
  { apply (Z.gauss q p k); [now rewrite Z.mul_comm|now rewrite Z.gcd_comm]. }
  destruct Hqk as [j ->]. exists j. ring.
Qed.

Lemma distinct_primes_coprime p q :
  Z.prime p -> Z.prime q -> p <> q -> Z.gcd p q = 1.
Proof.
  intros Hp Hq Hne. apply Z.coprime_prime_l; [exact Hp|].
  intros Hdiv. apply Hne. now apply Z.divide_prime_prime.
Qed.

(** The arithmetic core of RSA: with [e * d = 1] modulo [(p-1)*(q-1)],
    raising to [e * d] is the identity on the residues of [p * q]. *)
Lemma rsa_exponent_identity p q e d m :
  Z.prime p -> Z.prime q -> p <> q ->
  0 <= e -> 0 <= d -> (e * d) mod ((p - 1) * (q - 1)) = 1 ->
  0 <= m < p * q ->
  m ^ (e * d) mod (p * q) = m.
Proof.
  intros Hp Hq Hne He Hd Hinv Hm.
  pose proof (Z.prime_ge_2 p Hp) as Hp2. pose proof (Z.prime_ge_2 q Hq) as Hq2.
  set (t := (p - 1) * (q - 1)) in *.
  assert (Ht : 0 < t) by (unfold t; nia).
  pose proof (Z.div_mod (e * d) t ltac:(lia)) as Hdm. rewrite Hinv in Hdm.
  assert (Hk : 0 <= e * d / t) by (apply Z.div_pos; nia).
  set (k := e * d / t) in *.
  assert (Hmodp : m ^ (e * d) mod p = m mod p).
  { replace (e * d) with (1 + (k * (q - 1)) * (p - 1)) by (unfold t in Hdm; lia).
    apply fermat_exponent; [exact Hp|nia]. }
  assert (Hmodq : m ^ (e * d) mod q = m mod q).
  { replace (e * d) with (1 + (k * (p - 1)) * (q - 1)) by (unfold t in Hdm; lia).
    apply fermat_exponent; [exact Hq|nia]. }
  assert (Hdiv : (p * q | m ^ (e * d) - m)).
  { apply divide_coprime_product.
    - now apply distinct_primes_coprime.
    - apply Z.mod_divide; [lia|]. rewrite Zminus_mod, Hmodp, Z.sub_diag.
      apply Z.mod_0_l. lia.
    - apply Z.mod_divide; [lia|]. rewrite Zminus_mod, Hmodq, Z.sub_diag.
      apply Z.mod_0_l. lia. }
  destruct Hdiv as [j Hj].
  replace (m ^ (e * d)) with (m + j * (p * q)) by lia.
  rewrite Z.mod_add by nia. apply Z.mod_small. lia.
Qed.

End RoundTrip.

(** C1, as the code has it.  For distinct primes [p], [q] with [n = p * q]
    inside [int], [totient = (p-1)*(q-1)], an exponent [e >= 0] coprime to
    [totient], not congruent to [1] modulo [totient], whose products [e * d]
    with the scanned candidates stay inside [int], and a message
    [0 <= m < n]: decrypting the encryption of [m] with
    [d = modInverse e totient] gives back [m]. *)
Theorem rsa_round_trip p q e m :
  Z.prime p -> Z.prime q -> p <> q -> p * q <= INT_MAX ->
  0 <= e -> Z.gcd e ((p - 1) * (q - 1)) = 1 ->
  e mod ((p - 1) * (q - 1)) <> 1 ->
  e * ((p - 1) * (q - 1) - 1) <= INT_MAX ->
  0 <= m < p * q ->
  round_trip m e (p * q) ((p - 1) * (q - 1)) = Ok m /\
  exists c d,
    encrypt m e (p * q) = Ok c /\ modInverse e ((p - 1) * (q - 1)) = Ok d /\
    decrypt c d (p * q) = Ok m.
Proof.
  intros Hp Hq Hne Hn He Hgcd Hne1 Hprod Hm.
  pose proof (Z.prime_ge_2 p Hp) as Hp2. pose proof (Z.prime_ge_2 q Hq) as Hq2.
  destruct int_bounds as [Hmin Hmax].
  set (t := (p - 1) * (q - 1)) in *. set (n := p * q) in *.
  assert (Ht : 1 < t < n) by (unfold t, n; nia).
  assert (He1 : 1 <= e).
  { destruct (Z.eq_dec e 0) as [->|]; [|lia].
    rewrite Z.gcd_0_l in Hgcd. lia. }
  assert (HeMax : e <= INT_MAX) by nia.
  destruct (modInverse_scan e t ltac:(lia) He Hprod)
    as [(d & Hd & Hdr & Hinv & _)|[_ [Hbad|Hbad]]]; try contradiction.
  destruct (power_exact m e n) as (c & _ & Hc & _ & Henc & Hcv);
    try lia.
  destruct (power_exact c d n) as (m' & _ & _ & _ & Hdec & Hmv);
    try lia.
  assert (Hback : m' = m).
  { rewrite Hmv, Hcv, Z.mod_pow_l, <- Z.pow_mul_r by lia.
    apply rsa_exponent_identity; auto; lia. }
  rewrite Hback in Hdec. clear Hmv.
  fold (encrypt m e n) in Henc. fold (decrypt c d n) in Hdec. split.
  - unfold round_trip. rewrite Hd. cbn [bind]. rewrite Henc. cbn [bind].
    exact Hdec.
  - exists c, d. auto.
Qed.

Lemma rsa_round_trip_witness :
  round_trip 2 3 (3 * 5) ((3 - 1) * (5 - 1)) = Ok 2 /\
  exists c d,
    encrypt 2 3 (3 * 5) = Ok c /\ modInverse 3 ((3 - 1) * (5 - 1)) = Ok d /\
    decrypt c d (3 * 5) = Ok 2.
Proof.
  apply (rsa_round_trip 3 5 3 2);
    try (apply prime_by_trial_sound; reflexivity);
    try (unfold INT_MAX; simpl; lia); try reflexivity; discriminate.
Defined.

(** C1 as stated fails at [e = 1], coprime to every totient: [modInverse]
    scans from [d = 2], finds no inverse and returns [-1], and [power] with
    a negative exponent returns [1].  Here [p = 3], [q = 5], [m = 2]. *)
Lemma rsa_round_trip_counterexample :
  Z.prime 3 /\ Z.prime 5 /\ 3 <> 5 /\ Z.gcd 1 ((3 - 1) * (5 - 1)) = 1 /\
  0 <= 2 < 3 * 5 /\
  modInverse 1 ((3 - 1) * (5 - 1)) = Ok (-1) /\
  round_trip 2 1 (3 * 5) ((3 - 1) * (5 - 1)) = Ok 1 /\
  round_trip 2 1 (3 * 5) ((3 - 1) * (5 - 1)) <> Ok 2.
Proof.
  split; [apply prime_by_trial_sound; reflexivity|].
  split; [apply prime_by_trial_sound; reflexivity|].
  repeat split; try reflexivity; try lia; discriminate.
Qed.

(** * Proofs about diffie-hellman.c *)

Import GMP DH.

(** ** The key exchange *)

Lemma mpz_powm_pos base exp md :
  0 < md -> mpz_powm base exp md = base ^ exp mod md.
Proof. intros Hm. unfold mpz_powm. now rewrite Z.abs_eq by lia. Qed.

(** C2. For a modulus [P > 0] (every prime is), any [alpha] and private
    exponents [XA, XB >= 0], the four [mpz_powm] calls of [main] end with
    equal shared secrets [SA] and [SB]. *)
Theorem dh_shared_secrets_agree alpha XA XB P :
  0 < P -> 0 <= XA -> 0 <= XB ->
  let YA := mpz_powm alpha XA P in
  let YB := mpz_powm alpha XB P in
  let SA := mpz_powm YB XA P in
  let SB := mpz_powm YA XB P in
  dh_exchange alpha XA XB P = (YA, YB, SA, SB) /\ SA = SB.
Proof.
  intros HP HXA HXB. cbv zeta. split; [reflexivity|].
  rewrite !mpz_powm_pos by exact HP.
  rewrite !Z.mod_pow_l, <- !Z.pow_mul_r by lia.
  now rewrite Z.mul_comm.
Qed.

Lemma dh_shared_secrets_agree_witness :
  let YA := mpz_powm 5 6 23 in
  let YB := mpz_powm 5 15 23 in
  let SA := mpz_powm YB 6 23 in
  let SB := mpz_powm YA 15 23 in
  dh_exchange 5 6 15 23 = (YA, YB, SA, SB) /\ SA = SB.
Proof.
  apply (dh_shared_secrets_agree 5 6 15 23); lia.
Defined.

(** ** The generator search *)

Section GeneratorSearch.

Lemma ulong_small x : 0 <= x <= ULONG_MAX -> ulong x = x.
Proof.
  unfold ULONG_MAX, ulong. intros Hx. apply Z.mod_small. lia.
Qed.

(** More fuel never changes the result of a search. *)
Lemma generator_search_more fuel : forall test cand g,
  generator_search fuel test cand = Ok g ->
  forall fuel', (fuel <= fuel')%nat -> generator_search fuel' test cand = Ok g.
Proof.
  induction fuel as [|fuel IH]; intros test cand g Hrun fuel' Hle;
    [discriminate|].
  destruct fuel' as [|fuel']; [lia|].
  cbn [generator_search] in *.
  destruct (test cand =? 0); [|exact Hrun].
  apply (IH _ _ _ Hrun). lia.
Qed.

(** The search from [cand] stops at the first candidate that passes, when
    there is one among the next [fuel] candidates below [2^64]. *)
Lemma generator_search_least test : forall fuel cand g0,
  0 <= cand <= g0 -> g0 <= ULONG_MAX ->
  test g0 <> 0 -> g0 - cand < Z.of_nat fuel ->
  exists g, generator_search fuel test cand = Ok g /\
            cand <= g <= g0 /\ test g <> 0 /\
            forall c, cand <= c < g -> test c = 0.
Proof.
  induction fuel as [|fuel IH]; intros cand g0 Hcand Hg0 Hpass Hfuel; [lia|].
  cbn [generator_search].
  destruct (Z.eqb_spec (test cand) 0) as [Hfail|Hok].
  - assert (cand <> g0) by congruence.
    rewrite ulong_small by lia.
    destruct (IH (cand + 1) g0) as (g & Hrun & Hg & Hgpass & Hleast); try lia.
    exists g. split; [exact Hrun|]. split; [lia|]. split; [exact Hgpass|].
    intros c Hc. destruct (Z.eq_dec c cand) as [->|]; [exact Hfail|].
    apply Hleast. lia.
  - exists cand. split; [reflexivity|]. split; [lia|]. split; [exact Hok|].
    intros; lia.
Qed.

(** [is_generator] decides the criterion on the factors it is given. *)
Lemma is_generator_loop_criterion g p factors :
  0 < p ->
  (is_generator_loop g p (p - 1) factors <> 0 <->
   generator_criterion g p factors) /\
  (is_generator_loop g p (p - 1) factors = 0 \/
   is_generator_loop g p (p - 1) factors = 1).
Proof.
  intros Hp. unfold generator_criterion.
  induction factors as [|q rest [IH IH01]]; cbn [is_generator_loop].
  - split; [|now right]. split; [intros _ q []|discriminate].
  - unfold mpz_divexact. rewrite mpz_powm_pos by exact Hp.
    destruct (Z.eqb_spec (g ^ ((p - 1) / q) mod p) 1) as [Hone|Hnot].
    + split; [|now left]. split; [congruence|].
      intros Hall. exfalso. apply (Hall q); [now left|exact Hone].
    + split; [|exact IH01]. rewrite IH. split.
      * intros Hall q' [<-|Hin]; auto.
      * intros Hall q' Hin. apply Hall. now right.
Qed.

Lemma is_generator_criterion g p factors :
  0 < p ->
  is_generator g p factors (length factors) <> 0 <->
  generator_criterion g p factors.
Proof.
  intros Hp. unfold is_generator. rewrite firstn_all.
  now apply is_generator_loop_criterion.
Qed.

(** The safe-prime test is the generic test on the factors [2] and [r]. *)
Lemma is_generator_safe_prime_generic g P r :
  is_generator_safe_prime g P r = is_generator g P [2; r] 2.
Proof. reflexivity. Qed.

Lemma find_generator_safe_prime_generic fuel P r start :
  find_generator_safe_prime fuel P r start = find_generator fuel P [2; r] 2 start.
Proof. reflexivity. Qed.

End GeneratorSearch.

(** A search returns at most one candidate. *)
Lemma generator_search_deterministic test cand g g' :
  returns (fun fuel => generator_search fuel test cand) g ->
  returns (fun fuel => generator_search fuel test cand) g' ->
  g = g'.
Proof.
  intros [f Hf] [f' Hf'].
  pose proof (generator_search_more f test cand g Hf (Nat.max f f') ltac:(lia)) as E.
  pose proof (generator_search_more f' test cand g' Hf' (Nat.max f f') ltac:(lia)) as E'.
  congruence.
Qed.

(** A multiple of [p] passes the test: its powers are [0] modulo [p]. *)
Lemma multiple_satisfies_criterion p factors j :
  Z.prime p -> (forall q, In q factors -> Z.prime q /\ (q | p - 1)) ->
  generator_criterion (j * p) p factors.
Proof.
  intros Hp Hfactors q Hq. pose proof (Z.prime_ge_2 p Hp) as Hge.
  destruct (Hfactors q Hq) as [Hqp [k Hk]].
  pose proof (Z.prime_ge_2 q Hqp) as Hq2.
  assert (Hk1 : 1 <= k) by nia.
  rewrite Hk, Z.div_mul by lia.
  replace k with (Z.succ (k - 1)) by lia. rewrite Z.pow_succ_r by lia.
  replace (j * p * (j * p) ^ (k - 1)) with (j * (j * p) ^ (k - 1) * p) by ring.
  rewrite Z.mod_mul by lia. lia.
Qed.

(** C3.  Let [p] be prime, [factors] the distinct prime factors of [p - 1]
    and [start >= 2], and let the [unsigned long] counter reach a candidate
    that satisfies the criterion (it always does when [start + p <= 2^64]:
    a multiple of [p] is one).  Then the search loop returns a candidate
    [g]; [g] is at least [start], [g ^ ((p-1)/q) mod p <> 1] for every [q]
    of [factors], and no candidate from [start] up to [g - 1] has that
    property. *)
Theorem find_generator_least p factors start :
  Z.prime p -> distinct_prime_factors (p - 1) factors -> 2 <= start ->
  (start + p <= ULONG_MAX + 1 \/
   exists g0, start <= g0 <= ULONG_MAX /\ generator_criterion g0 p factors) ->
  exists g,
    returns (fun fuel => find_generator fuel p factors (length factors) start) g /\
    start <= g /\
    generator_criterion g p factors /\
    forall c, start <= c < g -> ~ generator_criterion c p factors.
Proof.
  intros Hprime [_ Hfactors] Hstart Hreach.
  pose proof (Z.prime_ge_2 p Hprime) as Hp.
  assert (Hcand : exists g0, start <= g0 <= ULONG_MAX /\
                             generator_criterion g0 p factors).
  { destruct Hreach as [Hroom|Hcand]; [|exact Hcand].
    exists ((start + p - 1) / p * p). split.
    - pose proof (Z.div_mod (start + p - 1) p ltac:(lia)) as Hdm.
      pose proof (Z.mod_pos_bound (start + p - 1) p ltac:(lia)). lia.
    - apply multiple_satisfies_criterion; [exact Hprime|].
      intros q Hq. now apply Hfactors. }
  destruct Hcand as (g0 & Hg0 & Hcrit).
  set (test := fun alpha => is_generator alpha p factors (length factors)).
  destruct (generator_search_least test (S (Z.to_nat (g0 - start))) start g0)
    as (g & Hrun & Hg & Hpass & Hleast); try lia.
  { unfold test. apply is_generator_criterion; [lia|exact Hcrit]. }
  exists g. split; [eexists; exact Hrun|]. split; [lia|]. split.
  - apply (is_generator_criterion g p factors); [lia|exact Hpass].
  - intros c Hc Hcc. apply (is_generator_criterion c p factors) in Hcc; [|lia].
    apply Hcc. now apply Hleast.
Qed.

Lemma distinct_prime_factors_22 : distinct_prime_factors 22 [2; 11].
Proof.
  split.
  - repeat constructor; cbn; intuition lia.
  - intros q. split.
    + intros [<-|[<-|[]]]; (split; [apply prime_by_trial_sound; reflexivity|]).
      * now exists 11.
      * now exists 2.
    + intros [Hq Hdiv]. pose proof (Z.prime_ge_2 q Hq) as Hge.
      pose proof (Z.divide_pos_le q 22 ltac:(lia) Hdiv) as Hle.
      destruct (Z.eq_dec q 2) as [->|N2]; [now left|].
      destruct (Z.eq_dec q 11) as [->|N11]; [right; now left|].
      exfalso. destruct (Z.eq_dec q 22) as [->|N22].
      * destruct Hq as [_ Hq]. apply (Hq 2); [lia|now exists 11].
      * destruct Hdiv as [k Hk].
        assert (Hk' : 1 < k < 22) by nia.
        assert (Hcases : k = 2 \/ k = 3 \/ k = 4 \/ k = 5 \/ k = 6 \/ k = 7 \/
                         k = 8 \/ k = 9 \/ k = 10 \/ k = 11 \/ k = 12 \/
                         k = 13 \/ k = 14 \/ k = 15 \/ k = 16 \/ k = 17 \/
                         k = 18 \/ k = 19 \/ k = 20 \/ k = 21) by lia.
        repeat (destruct Hcases as [->|Hcases]; [lia|]). lia.
Qed.

Lemma find_generator_least_witness :
  exists g,
    returns (fun fuel => find_generator fuel 23 [2; 11] (length [2; 11]) 2) g /\
    2 <= g /\
    generator_criterion g 23 [2; 11] /\
    forall c, 2 <= c < g -> ~ generator_criterion c 23 [2; 11].
Proof.
  apply (find_generator_least 23 [2; 11] 2).
  - apply prime_by_trial_sound. reflexivity.
  - exact distinct_prime_factors_22.
  - lia.
  - left. unfold ULONG_MAX. lia.
Defined.

Lemma distinct_prime_factors_10 : distinct_prime_factors (11 - 1) [2; 5].
Proof.
  change (11 - 1) with 10. split.
  - repeat constructor; cbn; intuition lia.
  - intros q. split.
    + intros [<-|[<-|[]]]; (split; [apply prime_by_trial_sound; reflexivity|]).
      * now exists 5.
      * now exists 2.
    + intros [Hq [k Hk]]. pose proof (Z.prime_ge_2 q Hq) as Hge.
      assert (Hk' : 1 <= k <= 5) by nia.
      assert (Hcases : k = 1 \/ k = 2 \/ k = 3 \/ k = 4 \/ k = 5) by lia.
      destruct Hcases as [-> | [-> | [-> | [-> | ->]]]]; try lia.
      * exfalso. assert (q = 10) by lia. subst q.
        destruct Hq as [_ Hq]. apply (Hq 2); [lia|now exists 5].
      * right; left. lia.
      * left. lia.
Qed.

(** C3, as stated, fails where no candidate up to [ULONG_MAX] passes: for
    [p = 11] and the start [2^64 - 2] the counter wraps around and the
    search returns [0], which is below the start. *)
Theorem find_generator_wrap_counterexample :
  Z.prime 11 /\ distinct_prime_factors (11 - 1) [2; 5] /\ 2 <= 2 ^ 64 - 2 /\
  returns (fun fuel => find_generator fuel 11 [2; 5] (length [2; 5])
                         (2 ^ 64 - 2)) 0 /\
  ~ (exists g,
       returns (fun fuel => find_generator fuel 11 [2; 5] (length [2; 5])
                              (2 ^ 64 - 2)) g /\
       2 ^ 64 - 2 <= g).
Proof.
  assert (Hrun : returns (fun fuel => find_generator fuel 11 [2; 5]
                                        (length [2; 5]) (2 ^ 64 - 2)) 0).
  { exists 3%nat. vm_compute. reflexivity. }
  split; [apply prime_by_trial_sound; reflexivity|].
  split; [exact distinct_prime_factors_10|]. split; [lia|].
  split; [exact Hrun|].
  intros (g & Hg & Hle).
  assert (g = 0); [|lia].
  unfold find_generator in *.
  exact (generator_search_deterministic _ _ g 0 Hg Hrun).
Qed.

(** C5.  For the safe prime [P = 23], [r = 11] and every start candidate
    from [2] to [22], the search with [is_generator_safe_prime] and the
    search with [is_generator] on the factors [[2; 11]], which are what
    [factor_distinct] finds for [P - 1 = 22], return the same generator. *)
Theorem safe_prime_strategy_agrees_23 start :
  2 <= start <= 22 ->
  returns (fun fuel => factor_distinct fuel 22) [2; 11] /\
  exists g,
    returns (fun fuel => find_generator_safe_prime fuel 23 11 start) g /\
    returns (fun fuel => find_generator fuel 23 [2; 11] 2 start) g.
Proof.
  intros Hstart. split; [exists 3%nat; vm_compute; reflexivity|].
  assert (Hrun : exists g, find_generator_safe_prime 4 23 11 start = Ok g).
  { assert (Hcases : start = 2 \/ start = 3 \/ start = 4 \/ start = 5 \/
                     start = 6 \/ start = 7 \/ start = 8 \/ start = 9 \/
                     start = 10 \/ start = 11 \/ start = 12 \/ start = 13 \/
                     start = 14 \/ start = 15 \/ start = 16 \/ start = 17 \/
                     start = 18 \/ start = 19 \/ start = 20 \/ start = 21 \/
                     start = 22) by lia.
    repeat (destruct Hcases as [->|Hcases];
            [eexists; vm_compute; reflexivity|]).
    subst start. eexists; vm_compute; reflexivity. }
  destruct Hrun as [g Hrun]. exists g. split.
  - exists 4%nat. exact Hrun.
  - exists 4%nat. rewrite <- find_generator_safe_prime_generic. exact Hrun.
Qed.

Lemma safe_prime_strategy_agrees_23_witness :
  returns (fun fuel => factor_distinct fuel 22) [2; 11] /\
  exists g,
    returns (fun fuel => find_generator_safe_prime fuel 23 11 22) g /\
    returns (fun fuel => find_generator fuel 23 [2; 11] 2 22) g.
Proof.
  apply (safe_prime_strategy_agrees_23 22). lia.
Defined.

(** ** [factor_distinct] *)

Section Factorizer.

Lemma mpz_divisible_ui_p_spec n d :
  d <> 0 -> (mpz_divisible_ui_p n d = true <-> (d | n)).
Proof.
  intros Hd. unfold mpz_divisible_ui_p.
  destruct (Z.eqb_spec d 0) as [|_]; [contradiction|].
  rewrite Z.eqb_eq. now apply Z.mod_divide.
Qed.

Lemma pow_ge_1 q k : 1 <= q -> 0 <= k -> 1 <= q ^ k.
Proof. intros Hq Hk. pose proof (Z.pow_pos_nonneg q k). lia. Qed.

(** [q ^ k] divides [n >= 1] only for [k <= log2 n]. *)
Lemma power_divisor_log2 q k c n :
  2 <= q -> 0 <= k -> 1 <= n -> n = q ^ k * c -> k <= Z.log2 n.
Proof.
  intros Hq Hk Hn Heq.
  pose proof (pow_ge_1 q k ltac:(lia) Hk) as Hqk.
  assert (Hc : 1 <= c) by nia.
  apply Z.log2_le_pow2; [lia|].
  pose proof (Z.pow_le_mono_l 2 q k ltac:(lia)). nia.
Qed.

(** *** Multiplicities *)

Lemma multiplicity_nonneg q n : 0 <= multiplicity q n.
Proof.
  unfold multiplicity. generalize (S (Z.to_nat (Z.log2 n))). intros fuel.
  revert n. induction fuel as [|fuel IH]; intros n; cbn [multiplicity_aux];
    [lia|].
  destruct (n mod q =? 0); [|lia]. specialize (IH (n / q)). lia.
Qed.

Lemma multiplicity_aux_unique fuel : forall q n k c,
  2 <= q -> 0 <= k -> n = q ^ k * c -> ~ (q | c) ->
  k < Z.of_nat fuel -> multiplicity_aux fuel q n = k.
Proof.
  induction fuel as [|fuel IH]; intros q n k c Hq Hk Heq Hc Hfuel; [lia|].
  cbn [multiplicity_aux].
  destruct (Z.eq_dec k 0) as [->|Hk0].
  - rewrite Z.pow_0_r, Z.mul_1_l in Heq. subst n.
    destruct (Z.eqb_spec (c mod q) 0) as [Hz|_]; [|reflexivity].
    exfalso. apply Hc. apply Z.mod_divide; [lia|exact Hz].
  - assert (Hn : n = (q ^ (k - 1) * c) * q).
    { rewrite Heq. replace k with (1 + (k - 1)) at 1 by lia.
      rewrite Z.pow_add_r, Z.pow_1_r by lia. ring. }
    rewrite Hn, Z.mod_mul, Z.div_mul by lia. rewrite Z.eqb_refl.
    rewrite (IH q (q ^ (k - 1) * c) (k - 1) c Hq ltac:(lia) eq_refl Hc ltac:(lia)).
    lia.
Qed.

Lemma multiplicity_unique q n k c :
  2 <= q -> 0 <= k -> 1 <= n -> n = q ^ k * c -> ~ (q | c) ->
  multiplicity q n = k.
Proof.
  intros Hq Hk Hn Heq Hc. unfold multiplicity.
  apply (multiplicity_aux_unique _ q n k c); auto.
  pose proof (power_divisor_log2 q k c n Hq Hk Hn Heq). lia.
Qed.

(** A prime that is none of the listed primes does not divide their power
    product. *)
Lemma prime_not_dividing_power_product p n factors :
  Z.prime p ->
  (forall q, In q factors -> Z.prime q /\ q <> p) ->
  ~ (p | power_product n factors).
Proof.
  intros Hp. unfold power_product.
  induction factors as [|q rest IH]; intros Hall; cbn [fold_right].
  - intros Hdiv. apply Z.divide_1_r_nonneg in Hdiv; pose proof (Z.prime_ge_2 p Hp);
      lia.
  - intros Hdiv. apply Z.divide_prime_mul in Hdiv; [|exact Hp].
    destruct Hdiv as [Hdiv|Hdiv].
    + destruct (Hall q ltac:(now left)) as [Hq Hne].
      apply Hne. symmetry.
      apply (Z.divide_prime_pp p q (multiplicity q n)); auto.
      apply multiplicity_nonneg.
    + apply IH; [|exact Hdiv]. intros q' Hin. apply Hall. now right.
Qed.

Lemma power_product_app n fs gs :
  power_product n (fs ++ gs) = power_product n fs * power_product n gs.
Proof.
  unfold power_product.
  induction fs as [|q fs IH]; cbn [app fold_right].
  - now rewrite Z.mul_1_l.
  - rewrite IH. ring.
Qed.

(** *** The inner loop *)

(** [divide_out] removes every power of [d] from [n]. *)
Lemma divide_out_spec fuel : forall n d,
  2 <= d -> 1 <= n -> Z.log2 n < Z.of_nat fuel ->
  exists k n', divide_out fuel n d = Ok n' /\
               0 <= k /\ n = d ^ k * n' /\ 1 <= n' /\ ~ (d | n').
Proof.
  induction fuel as [|fuel IH]; intros n d Hd Hn Hfuel.
  - pose proof (Z.log2_nonneg n). lia.
  - cbn [divide_out].
    destruct (mpz_divisible_ui_p n d) eqn:Hdiv.
    + apply mpz_divisible_ui_p_spec in Hdiv; [|lia].
      destruct Hdiv as [m Hm]. unfold mpz_divexact_ui.
      assert (Hquot : n / d = m) by (subst n; apply Z.div_mul; lia).
      rewrite Hquot.
      assert (Hm1 : 1 <= m) by nia.
      destruct (IH m d Hd Hm1) as (k & n' & Hrun & Hk & Heq & Hn' & Hnd).
      { assert (H2m : 2 * m <= n) by nia.
        apply Z.log2_le_mono in H2m. rewrite Z.log2_double in H2m by lia. lia. }
      exists (k + 1), n'. split; [exact Hrun|]. split; [lia|].
      split; [|auto]. rewrite Z.pow_add_r, Z.pow_1_r by lia. subst n m. ring.
    + exists 0, n. split; [reflexivity|]. split; [lia|].
      split; [rewrite Z.pow_0_r; lia|]. split; [exact Hn|].
      intros Hdn. apply mpz_divisible_ui_p_spec in Hdn; [|lia]. congruence.
Qed.

(** [multiplicity q n] is the largest power of [q] that divides [n]. *)
Lemma multiplicity_spec q n :
  2 <= q -> 1 <= n ->
  (q ^ multiplicity q n | n) /\ ~ (q ^ (multiplicity q n + 1) | n).
Proof.
  intros Hq Hn.
  destruct (divide_out_spec (S (Z.to_nat (Z.log2 n))) n q Hq Hn)
    as (k & n' & _ & Hk & Heq & Hn' & Hqn').
  { pose proof (Z.log2_nonneg n). lia. }
  rewrite (multiplicity_unique q n k n' Hq Hk Hn Heq Hqn').
  split; [exists n'; lia|].
  intros [c Hc]. apply Hqn'. exists c.
  rewrite Z.pow_add_r, Z.pow_1_r in Hc by lia.
  pose proof (pow_ge_1 q k ltac:(lia) Hk) as Hpow.
  apply (Z.mul_cancel_l _ _ (q ^ k)); [lia|]. lia.
Qed.

(** *** One trial *)

Lemma invariant_cofactor_le orig n d factors :
  1 <= orig -> trial_invariant orig n d factors -> n <= orig.
Proof.
  intros Horig (Hn & Heq & _). apply Z.divide_pos_le; [lia|].
  exists (power_product orig factors). lia.
Qed.

(** A divisor of [n] below which [n] has no divisor is prime. *)
Lemma least_divisor_prime n d :
  2 <= d -> (d | n) -> (forall c, 2 <= c < d -> ~ (c | n)) -> Z.prime d.
Proof.
  intros Hd Hdn Hleast. split; [lia|].
  intros c Hc Hcd. apply (Hleast c); [lia|].
  now apply (Z.divide_trans c d n).
Qed.

Lemma try_factor_spec orig fuel n d factors :
  1 <= orig -> 2 <= d -> Z.log2 orig < Z.of_nat fuel ->
  trial_invariant orig n d factors ->
  exists n' factors',
    try_factor fuel n d factors = Ok (n', factors') /\
    trial_invariant orig n' (d + 1) factors' /\ n' <= n.
Proof.
  intros Horig Hd Hfuel Hinv.
  pose proof (invariant_cofactor_le orig n d factors Horig Hinv) as Hle.
  destruct Hinv as (Hn & Heq & Hnodup & Hfactors & Hleast).
  unfold try_factor. destruct (mpz_divisible_ui_p n d) eqn:Hdiv.
  - apply mpz_divisible_ui_p_spec in Hdiv; [|lia].
    pose proof (least_divisor_prime n d Hd Hdiv Hleast) as Hprime.
    destruct (divide_out_spec fuel n d Hd Hn) as (k & n' & Hrun & Hk & Hnk & Hn' & Hdn').
    { pose proof (Z.log2_le_mono n orig Hle). lia. }
    rewrite Hrun. cbn [bind]. exists n', (factors ++ [d]).
    split; [reflexivity|].
    assert (Hn'n : (n' | n)) by (exists (d ^ k); lia).
    assert (Hcofactor : ~ (d | n' * power_product orig factors)).
    { intros Hboth. apply Z.divide_prime_mul in Hboth; [|exact Hprime].
      destruct Hboth as [Hboth|Hboth]; [contradiction|].
      revert Hboth. apply prime_not_dividing_power_product; [exact Hprime|].
      intros q Hq. destruct (Hfactors q Hq) as (Hqp & Hqd & _).
      split; [auto|lia]. }
    assert (Hnorig : (n | orig)) by (exists (power_product orig factors); lia).
    assert (Hmult : multiplicity d orig = k).
    { apply (multiplicity_unique d orig k (n' * power_product orig factors));
        auto. rewrite Heq at 1. rewrite Hnk. ring. }
    split; [|pose proof (pow_ge_1 d k ltac:(lia) Hk); nia].
    unfold trial_invariant. split; [exact Hn'|]. split; [|split; [|split]].
    + rewrite power_product_app. unfold power_product at 2. cbn [fold_right].
      rewrite Hmult, Heq at 1. rewrite Hnk. ring.
    + apply NoDup_app; [exact Hnodup|repeat constructor; intros []|].
      intros q Hq [Hqd|[]]. subst q.
      destruct (Hfactors d Hq) as (_ & Hlt & _). lia.
    + intros q Hq. apply in_app_or in Hq. destruct Hq as [Hq|[<-|[]]].
      * destruct (Hfactors q Hq) as (Hqp & Hqd & Hqn & Hqo).
        split; [exact Hqp|]. split; [lia|]. split; [|exact Hqo].
        intros Hqn'. apply Hqn. now apply (Z.divide_trans q n' n).
      * split; [exact Hprime|]. split; [lia|]. split; [exact Hdn'|].
        now apply (Z.divide_trans d n orig).
    + intros c Hc Hcn'. destruct (Z.eq_dec c d) as [->|Hne]; [contradiction|].
      apply (Hleast c); [lia|]. now apply (Z.divide_trans c n' n).
  - exists n, factors. split; [reflexivity|]. split; [|lia].
    unfold trial_invariant. split; [exact Hn|]. split; [exact Heq|].
    split; [exact Hnodup|]. split.
    + intros q Hq. destruct (Hfactors q Hq) as (Hqp & Hqd & Hqn).
      split; [exact Hqp|]. split; [lia|exact Hqn].
    + intros c Hc Hcn. destruct (Z.eq_dec c d) as [->|Hne].
      * apply mpz_divisible_ui_p_spec in Hcn; [congruence|lia].
      * apply (Hleast c); [lia|exact Hcn].
Qed.

(** *** The loop over the odd trial divisors *)

(** A cofactor with no divisor up to [i] and below [i * i] is [1] or prime. *)
Lemma small_cofactor_prime n i :
  1 <= n -> 2 <= i -> n < i * i ->
  (forall c, 2 <= c < i + 1 -> ~ (c | n)) ->
  n = 1 \/ Z.prime n.
Proof.
  intros Hn Hi Hsmall Hleast.
  destruct (Z.eq_dec n 1) as [|Hn1]; [now left|right].
  split; [lia|]. intros c Hc [e He].
  assert (He1 : 2 <= e) by nia.
  assert (Hci : i + 1 <= c).
  { destruct (Z_lt_le_dec c (i + 1)) as [Hlt|]; [|lia].
    exfalso. apply (Hleast c); [lia|]. exists e. exact He. }
  assert (Hei : i + 1 <= e).
  { destruct (Z_lt_le_dec e (i + 1)) as [Hlt|]; [|lia].
    exfalso. apply (Hleast e); [lia|]. exists c. lia. }
  nia.
Qed.

(** An odd cofactor has no even divisor: the invariant passes from [i + 1]
    to the next odd trial divisor. *)
Lemma invariant_skip_even orig n i factors :
  Z.odd i = true -> 3 <= i ->
  trial_invariant orig n (i + 1) factors ->
  trial_invariant orig n (i + 2) factors.
Proof.
  intros Hodd Hi (Hn & Heq & Hnodup & Hfactors & Hleast).
  apply Z.odd_spec in Hodd. destruct Hodd as [h Hh].
  unfold trial_invariant. split; [exact Hn|]. split; [exact Heq|].
  split; [exact Hnodup|]. split.
  - intros q Hq. destruct (Hfactors q Hq) as (Hqp & Hqd & Hqn).
    split; [exact Hqp|]. split; [lia|exact Hqn].
  - intros c Hc Hcn. destruct (Z.eq_dec c (i + 1)) as [->|Hne].
    + apply (Hleast 2); [lia|].
      apply (Z.divide_trans 2 (i + 1) n); [|exact Hcn]. exists (h + 1). lia.
    + apply (Hleast c); [lia|exact Hcn].
Qed.

Lemma odd_trials_spec orig fuel : forall n i factors,
  1 <= orig -> orig < ULONG_MAX * ULONG_MAX ->
  3 <= i <= orig + 2 -> Z.odd i = true ->
  trial_invariant orig n i factors ->
  (orig + 3 - i) + Z.log2 orig + 1 <= Z.of_nat fuel ->
  exists n' factors',
    odd_trials fuel n i factors = Ok (n', factors') /\
    trial_post orig n' factors'.
Proof.
  induction fuel as [|fuel IH]; intros n i factors Horig Hbound Hi Hodd Hinv Hfuel.
  - pose proof (Z.log2_nonneg orig). lia.
  - pose proof (Z.log2_nonneg orig) as Hlog.
    cbn [odd_trials]. destruct (Z.ltb_spec 1 n) as [Hn|Hn].
    + destruct (try_factor_spec orig fuel n i factors)
        as (n' & factors' & Hrun & Hinv' & Hle); try lia; auto.
      rewrite Hrun. cbn [bind].
      pose proof (invariant_cofactor_le orig n' _ factors' Horig Hinv') as Hle'.
      destruct (Z.ltb_spec n' (i * i)) as [Hbreak|Hcont].
      * exists n', factors'. split; [reflexivity|].
        destruct Hinv' as (Hn' & Heq & Hnodup & Hfactors & Hleast).
        unfold trial_post. split; [exact Hn'|]. split; [exact Heq|].
        split; [exact Hnodup|]. split.
        -- intros q Hq. destruct (Hfactors q Hq) as (Hqp & _ & Hqn). auto.
        -- apply (small_cofactor_prime n' i); auto; lia.
      * assert (Hiu : i + 2 <= ULONG_MAX).
        { assert (Hu : 0 < ULONG_MAX) by reflexivity.
          assert (Hlt : i < ULONG_MAX).
          { destruct (Z_lt_le_dec i ULONG_MAX) as [|Hge]; [assumption|].
            assert (ULONG_MAX * ULONG_MAX <= i * i)
              by (apply Z.mul_le_mono_nonneg; lia).
            lia. }
          apply Z.odd_spec in Hodd. destruct Hodd as [h Hh].
          change ULONG_MAX with 18446744073709551615 in *. lia. }
        rewrite ulong_small by lia.
        apply IH; auto.
        -- nia.
        -- replace (i + 2) with (Z.succ (Z.succ i)) by lia.
           now rewrite Z.odd_succ_succ.
        -- now apply invariant_skip_even.
        -- lia.
    + exists n, factors. split; [reflexivity|].
      destruct Hinv as (Hn1 & Heq & Hnodup & Hfactors & Hleast).
      unfold trial_post. split; [exact Hn1|]. split; [exact Heq|].
      split; [exact Hnodup|]. split.
      * intros q Hq. destruct (Hfactors q Hq) as (Hqp & _ & Hqn). auto.
      * left. lia.
Qed.

(** The run of [factor_distinct] on fuel that covers the trial divisors up
    to the square root and the divisions of one factor. *)
Lemma factor_distinct_run n fuel :
  1 < n < ULONG_MAX * ULONG_MAX ->
  n + Z.log2 n + 2 <= Z.of_nat fuel ->
  exists factors,
    factor_distinct fuel n = Ok factors /\
    Forall Z.prime factors /\ NoDup factors /\ power_product n factors = n /\
    (forall q, In q factors -> (q | n)).
Proof.
  intros Hn Hfuel. pose proof (Z.log2_nonneg n) as Hlog.
  assert (Hinit : trial_invariant n n 2 []).
  { unfold trial_invariant, power_product. cbn [fold_right].
    split; [lia|]. split; [lia|]. split; [constructor|].
    split; [intros q []|intros c Hc; lia]. }
  destruct (try_factor_spec n fuel n 2 [] ltac:(lia) ltac:(lia) ltac:(lia) Hinit)
    as (n1 & factors1 & Hrun1 & Hinv1 & _).
  destruct (odd_trials_spec n fuel n1 3 factors1)
    as (n2 & factors2 & Hrun2 & Hn2 & Heq & Hnodup & Hfactors & Hlast);
    try lia; auto.
  unfold factor_distinct. rewrite Hrun1. cbn [bind]. rewrite Hrun2. cbn [bind].
  eexists. split; [reflexivity|].
  destruct (Z.ltb_spec 1 n2) as [Hgt|Hle].
  - destruct Hlast as [|Hprime]; [lia|].
    assert (Hfresh : forall q, In q factors2 -> Z.prime q /\ q <> n2).
    { intros q Hq. destruct (Hfactors q Hq) as (Hqp & Hqn & _).
      split; [exact Hqp|].
      intros ->. apply Hqn. apply Z.divide_refl. }
    assert (Hmult : multiplicity n2 n = 1).
    { apply (multiplicity_unique n2 n 1 (power_product n factors2));
        [lia|lia|lia|rewrite Z.pow_1_r; exact Heq|].
      now apply prime_not_dividing_power_product. }
    split; [|split; [|split]].
    + apply Forall_forall. intros q Hq. apply in_app_or in Hq.
      destruct Hq as [Hq|[<-|[]]]; [apply Hfactors; exact Hq|exact Hprime].
    + apply NoDup_app; [exact Hnodup|repeat constructor; intros []|].
      intros q Hq [Hqn|[]]. subst q. now destruct (Hfresh n2 Hq).
    + rewrite power_product_app. unfold power_product at 2. cbn [fold_right].
      rewrite Hmult, Z.pow_1_r. lia.
    + intros q Hq. apply in_app_or in Hq. destruct Hq as [Hq|[<-|[]]].
      * apply Hfactors. exact Hq.
      * exists (power_product n factors2). lia.
  - assert (n2 = 1) by lia. subst n2.
    split; [|split; [exact Hnodup|split; [lia|]]].
    + apply Forall_forall. intros q Hq. apply Hfactors. exact Hq.
    + intros q Hq. apply Hfactors. exact Hq.
Qed.

(** A prime that divides a power product of primes is one of them. *)
Lemma prime_dividing_power_product q n factors :
  Z.prime q -> Forall Z.prime factors -> (q | power_product n factors) ->
  In q factors.
Proof.
  intros Hq Hprimes Hdiv.
  destruct (in_dec Z.eq_dec q factors) as [Hin|Hout]; [exact Hin|exfalso].
  revert Hdiv. apply prime_not_dividing_power_product; [exact Hq|].
  intros f Hf. split; [now apply (proj1 (Forall_forall _ _) Hprimes)|].
  intros ->. contradiction.
Qed.

(** [factor_distinct] lists the distinct prime factors of [n]. *)
Lemma factor_distinct_prime_factors n :
  1 < n < ULONG_MAX * ULONG_MAX ->
  exists factors,
    returns (fun fuel => factor_distinct fuel n) factors /\
    distinct_prime_factors n factors.
Proof.
  intros Hn. pose proof (Z.log2_nonneg n) as Hlog.
  destruct (factor_distinct_run n (Z.to_nat (n + Z.log2 n + 2)) Hn ltac:(lia))
    as (factors & Hrun & Hprime & Hnodup & Hprod & Hdiv).
  exists factors. split; [eexists; exact Hrun|].
  split; [exact Hnodup|]. intros q. split.
  - intros Hq. split; [now apply (proj1 (Forall_forall _ _) Hprime)|auto].
  - intros [Hq Hqn]. rewrite <- Hprod in Hqn.
    now apply (prime_dividing_power_product q n factors).
Qed.

End Factorizer.

(** ** [factor_distinct] beyond the reach of the [unsigned long] counter *)

Section CounterWraps.

(** *** Orders of elements, through exponents only *)

Lemma pow_mod_one_gcd p b :
  1 < p ->
  forall n, 0 <= n -> forall m, 0 <= m ->
  b ^ m mod p = 1 -> b ^ n mod p = 1 -> b ^ Z.gcd m n mod p = 1.
Proof.
  intros Hp n Hn. pattern n. apply Zlt_0_ind; [|exact Hn]. clear n Hn.
  intros n IH Hn m Hm Hbm Hbn.
  destruct (Z.eq_dec n 0) as [->|Hn0].
  - now rewrite Z.gcd_0_r, Z.abs_eq by lia.
  - pose proof (Z.mod_pos_bound m n ltac:(lia)) as Hr.
    assert (Hbr : b ^ (m mod n) mod p = 1).
    { pose proof (Z.div_mod m n ltac:(lia)) as Hdm.
      assert (Hq : 0 <= m / n) by (apply Z.div_pos; lia).
      rewrite Hdm, Z.pow_add_r, Z.pow_mul_r in Hbm by nia.
      rewrite <- Z.mul_mod_idemp_l, <- Z.mod_pow_l, Hbn in Hbm by lia.
      rewrite Z.pow_1_l, (Z.mod_small 1), Z.mul_1_l in Hbm by lia.
      exact Hbm. }
    rewrite Z.gcd_comm, <- Z.gcd_mod_r.
    apply (IH (m mod n) Hr n Hn Hbn Hbr).
Qed.

Lemma divisor_of_power_of_two g k :
  0 <= k -> (g | 2 ^ (k + 1)) -> ~ (2 ^ (k + 1) | g) -> (g | 2 ^ k).
Proof.
  intros Hk [h Hh] Hnot.
  assert (Hpow : 2 ^ (k + 1) = 2 * 2 ^ k)
    by (rewrite Z.pow_add_r, Z.pow_1_r by lia; ring).
  destruct (Z.Even_or_Odd h) as [[h' ->]|Hodd].
  - exists h'. lia.
  - exfalso. assert (Hcop : Z.gcd h (2 ^ (k + 1)) = 1).
    { apply Z.coprime_pow_r; [lia|].
      apply Z.gcd_unique; [lia|apply Z.divide_1_l|apply Z.divide_1_l|].
      intros q Hqh Hq2. destruct Hodd as [j Hj].
      apply Z.divide_add_cancel_r with (m := 2 * j); [|now rewrite <- Hj].
      now apply Z.divide_mul_l. }
    assert (Hh1 : (h | 1)).
    { rewrite <- Hcop. apply Z.gcd_greatest; [apply Z.divide_refl|].
      exists g. lia. }
    apply Z.divide_1_r in Hh1. apply Hnot.
    destruct Hh1 as [->| ->]; [exists 1|exists (-1)]; lia.
Qed.

(** An element whose [2^k]-th power is [-1] modulo an odd prime [p] has
    order [2^(k+1)], which then divides [p - 1]. *)
Lemma order_power_of_two p b k :
  Z.prime p -> p <> 2 -> 0 <= k -> b ^ (2 ^ k) mod p = p - 1 ->
  (2 ^ (k + 1) | p - 1).
Proof.
  intros Hp Hp2 Hk Hminus. pose proof (Z.prime_ge_2 p Hp) as Hge.
  pose proof (pow_ge_1 2 k ltac:(lia) Hk) as H2k.
  destruct (Z.BoolSpec_divide (2 ^ (k + 1)) (p - 1)) as [|Hnot];
    [assumption|exfalso].
  assert (Hdouble : b ^ (2 ^ (k + 1)) mod p = 1).
  { replace (2 ^ (k + 1)) with (2 ^ k * 2)
      by (rewrite Z.pow_add_r, Z.pow_1_r by lia; ring).
    rewrite Z.pow_mul_r, <- Z.mod_pow_l, Hminus by lia.
    replace ((p - 1) ^ 2) with (1 + (p - 2) * p) by ring.
    rewrite Z.mod_add by lia. apply Z.mod_small. lia. }
  assert (Hunit : b mod p <> 0).
  { intros Hz. rewrite <- Z.mod_pow_l, Hz, Z.pow_0_l, Z.mod_0_l in Hminus by lia.
    lia. }
  pose proof (Z.fermat_nz p b Hp Hunit) as Hfermat.
  pose proof (pow_mod_one_gcd p b ltac:(lia) (p - 1) ltac:(lia)
                (2 ^ (k + 1)) ltac:(lia) Hdouble Hfermat) as Hg.
  set (g := Z.gcd (2 ^ (k + 1)) (p - 1)) in *.
  assert (Hgk : (g | 2 ^ k)).
  { apply divisor_of_power_of_two; [exact Hk|apply Z.gcd_divide_l|].
    intros Hdiv. apply Hnot.
    apply (Z.divide_trans _ g); [exact Hdiv|apply Z.gcd_divide_r]. }
  destruct Hgk as [h Hh].
  assert (Hh0 : 0 <= h).
  { pose proof (Z.gcd_nonneg (2 ^ (k + 1)) (p - 1)). fold g in H. nia. }
  assert (Hg0 : 0 <= g) by apply Z.gcd_nonneg.
  rewrite Hh, Z.mul_comm, Z.pow_mul_r, <- Z.mod_pow_l, Hg in Hminus by lia.
  rewrite Z.pow_1_l, Z.mod_small in Hminus by lia. lia.
Qed.

(** Every [c >= 2] has a prime divisor. *)
Lemma prime_divisor c : 2 <= c -> exists p, Z.prime p /\ (p | c).
Proof.
  intros Hc. assert (H0 : 0 <= c) by lia. revert Hc. pattern c.
  apply Zlt_0_ind; [|exact H0]. clear c H0. intros c IH _ Hc.
  destruct (prime_dec c) as [Hprime|Hcomp].
  - exists c. split; [now apply prime_alt|apply Z.divide_refl].
  - destruct (not_prime_divide c ltac:(lia) Hcomp) as (n & Hn & Hnc).
    destruct (IH n ltac:(lia) ltac:(lia)) as (p & Hp & Hpn).
    exists p. split; [exact Hp|]. now apply (Z.divide_trans p n c).
Qed.

(** *** The cofactor [3 * 2^189 + 1] *)

Lemma square_iter_pow m k : forall x,
  0 < m -> square_iter m k (x mod m) = x ^ (2 ^ Z.of_nat k) mod m.
Proof.
  unfold square_iter. induction k as [|k IH]; intros x Hm.
  - change (x mod m = x ^ 2 ^ 0 mod m). now rewrite Z.pow_0_r, Z.pow_1_r.
  - rewrite Nat.iter_succ, IH by exact Hm.
    rewrite <- Z.mul_mod, <- Z.pow_add_r by lia. f_equal. f_equal.
    rewrite Nat2Z.inj_succ, Z.pow_succ_r by lia. lia.
Qed.

Lemma proth_189_certificate :
  (5 ^ 3) ^ (2 ^ 188) mod proth_189 = proth_189 - 1.
Proof.
  change 188 with (Z.of_nat 188).
  rewrite <- square_iter_pow by reflexivity.
  vm_compute. reflexivity.
Qed.

(** [-1] modulo [n] is [-1] modulo every divisor of [n]. *)
Lemma minus_one_mod_divisor x n p :
  0 < n -> 2 <= p -> (p | n) -> x mod n = n - 1 -> x mod p = p - 1.
Proof.
  intros Hn Hp [j Hj] Hx.
  pose proof (Z.div_mod x n ltac:(lia)) as Hdm. rewrite Hx in Hdm.
  replace x with (p - 1 + (j * (x / n + 1) - 1) * p) by nia.
  rewrite Z.mod_add by lia. apply Z.mod_small. lia.
Qed.

(** Every prime divisor of [proth_189] is congruent to [1] modulo [2^189]. *)
Lemma proth_189_prime_divisors p :
  Z.prime p -> (p | proth_189) -> (2 ^ 189 | p - 1).
Proof.
  intros Hp Hdiv. pose proof (Z.prime_ge_2 p Hp) as Hge.
  assert (Hodd : p <> 2).
  { intros ->. destruct Hdiv as [j Hj]. unfold proth_189 in Hj.
    change (2 ^ 189) with (2 * 2 ^ 188) in Hj. lia. }
  apply (order_power_of_two p (5 ^ 3) 188 Hp Hodd); [discriminate|].
  apply (minus_one_mod_divisor _ proth_189 p); [reflexivity|exact Hge|exact Hdiv|].
  exact proth_189_certificate.
Qed.

Lemma proth_189_prime : Z.prime proth_189.
Proof.
  split; [reflexivity|]. intros n Hn [m Hm].
  assert (Hm1 : 2 <= m) by nia.
  destruct (prime_divisor n ltac:(lia)) as (p & Hp & Hpn).
  destruct (prime_divisor m Hm1) as (p' & Hp' & Hpm).
  pose proof (Z.prime_ge_2 p Hp) as Hge. pose proof (Z.prime_ge_2 p' Hp') as Hge'.
  assert (Hbig : (2 ^ 189 | p - 1)).
  { apply proth_189_prime_divisors; [exact Hp|].
    apply (Z.divide_trans p n); [exact Hpn|]. exists m. exact Hm. }
  assert (Hbig' : (2 ^ 189 | p' - 1)).
  { apply proth_189_prime_divisors; [exact Hp'|].
    apply (Z.divide_trans p' m); [exact Hpm|]. exists n. lia. }
  apply Z.divide_pos_le in Hbig; [|lia].
  apply Z.divide_pos_le in Hbig'; [|lia].
  apply Z.divide_pos_le in Hpn; [|lia].
  apply Z.divide_pos_le in Hpm; [|lia].
  change (2 ^ 189)
    with 784637716923335095479473677900958302012794430558004314112 in *.
  assert (Hprod : (784637716923335095479473677900958302012794430558004314112 + 1)
                  * (784637716923335095479473677900958302012794430558004314112 + 1)
                  <= m * n) by (apply Z.mul_le_mono_nonneg; lia).
  rewrite <- Hm in Hprod. revert Hprod.
  change proth_189
    with 2353913150770005286438421033702874906038383291674012942337.
  lia.
Qed.

Lemma proth_189_no_small_divisor c :
  2 <= c <= ULONG_MAX -> ~ (c | proth_189).
Proof.
  intros Hc Hdiv. destruct (prime_divisor c ltac:(lia)) as (p & Hp & Hpc).
  pose proof (Z.prime_ge_2 p Hp) as Hge.
  assert (Hpn : (p | proth_189)) by now apply (Z.divide_trans p c).
  pose proof (proth_189_prime_divisors p Hp Hpn) as Hbig.
  apply Z.divide_pos_le in Hbig; [|lia].
  apply Z.divide_pos_le in Hpc; [|lia].
  change (2 ^ 189) with 784637716923335095479473677900958302012794430558004314112 in Hbig.
  change ULONG_MAX with 18446744073709551615 in Hc. lia.
Qed.

(** *** The run *)

(** Dividing by [1] never ends. *)
Lemma divide_out_by_one fuel : forall n, divide_out fuel n 1 = OutOfFuel.
Proof.
  induction fuel as [|fuel IH]; intros n; cbn [divide_out];
    unfold mpz_divisible_ui_p; cbn [Z.eqb]; rewrite Z.mod_1_r, Z.eqb_refl;
    [reflexivity|apply IH].
Qed.

(** From any odd trial divisor the loop walks up to [ULONG_MAX], wraps to
    [1], and is caught in the division by [1]. *)
Lemma odd_trials_proth_189 fuel : forall i factors,
  i = 1 \/ (3 <= i <= ULONG_MAX /\ Z.odd i = true) ->
  odd_trials fuel proth_189 i factors = OutOfFuel.
Proof.
  induction fuel as [|fuel IH]; intros i factors Hi; cbn [odd_trials].
  - reflexivity.
  - change (1 <? proth_189) with true. cbv iota.
    destruct Hi as [->|[Hi Hodd]].
    + unfold try_factor. change (mpz_divisible_ui_p proth_189 1) with true.
      cbv iota. now rewrite divide_out_by_one.
    + unfold try_factor.
      destruct (mpz_divisible_ui_p proth_189 i) eqn:Hdiv.
      { apply mpz_divisible_ui_p_spec in Hdiv; [|lia].
        exfalso. revert Hdiv. apply proth_189_no_small_divisor. lia. }
      cbn [bind].
      destruct (Z.ltb_spec proth_189 (i * i)) as [Hbreak|_].
      { exfalso.
        assert (i * i <= ULONG_MAX * ULONG_MAX)
          by (apply Z.mul_le_mono_nonneg; lia).
        change (ULONG_MAX * ULONG_MAX)
          with 340282366920938463426481119284349108225 in H.
        change proth_189
          with 2353913150770005286438421033702874906038383291674012942337
          in Hbreak. lia. }
      apply IH.
      apply Z.odd_spec in Hodd. destruct Hodd as [h Hh].
      change ULONG_MAX with 18446744073709551615 in Hi.
      destruct (Z.eq_dec i 18446744073709551615) as [->|Hne].
      * left. reflexivity.
      * right. unfold ulong. rewrite Z.mod_small
          by (change (2 ^ 64) with 18446744073709551616; lia).
        change ULONG_MAX with 18446744073709551615. split; [lia|].
        replace (i + 2) with (Z.succ (Z.succ i)) by lia.
        rewrite Z.odd_succ_succ. apply Z.odd_spec. now exists h.
Qed.

End CounterWraps.

(** C6 as stated fails for [n = 3 * 2^189 + 1] (a prime): no
    [unsigned long] divides it and [i * i] never exceeds it, so the trial
    divisor wraps from [ULONG_MAX] to [1], [mpz_divisible_ui_p(n, 1)] holds,
    and the inner [while] loop divides by [1] for ever: [factor_distinct]
    returns nothing. *)
Lemma factor_distinct_counterexample :
  1 < proth_189 /\
  diverges (fun fuel => factor_distinct fuel proth_189) /\
  ~ exists factors, returns (fun fuel => factor_distinct fuel proth_189) factors.
Proof.
  assert (Hdiv : diverges (fun fuel => factor_distinct fuel proth_189)).
  { intros fuel. unfold factor_distinct, try_factor.
    change (mpz_divisible_ui_p proth_189 2) with false. cbv iota. cbn [bind].
    rewrite odd_trials_proth_189; [reflexivity|].
    right. split; [|reflexivity]. unfold ULONG_MAX. lia. }
  split; [reflexivity|]. split; [exact Hdiv|].
  intros (factors & fuel & Hrun). rewrite Hdiv in Hrun. discriminate.
Qed.

(** C6, as the code has it.  For every [n] with [1 < n < ULONG_MAX^2], so
    that the trial divisor stays inside [unsigned long], [factor_distinct]
    returns factors that are all prime and pairwise distinct, and the
    product of the factors, each raised to its multiplicity in [n], is
    [n]. *)
Theorem factor_distinct_correct n :
  1 < n < ULONG_MAX * ULONG_MAX ->
  exists factors,
    returns (fun fuel => factor_distinct fuel n) factors /\
    Forall Z.prime factors /\ NoDup factors /\ power_product n factors = n.
Proof.
  intros Hn. pose proof (Z.log2_nonneg n) as Hlog.
  destruct (factor_distinct_run n (Z.to_nat (n + Z.log2 n + 2)) Hn ltac:(lia))
    as (factors & Hrun & Hprime & Hnodup & Hprod & _).
  exists factors. split; [eexists; exact Hrun|auto].
Qed.

Lemma factor_distinct_correct_witness :
  exists factors,
    returns (fun fuel => factor_distinct fuel 360) factors /\
    Forall Z.prime factors /\ NoDup factors /\ power_product 360 factors = 360.
Proof.
  apply (factor_distinct_correct 360). unfold ULONG_MAX. lia.
Defined.

(** ** The [double] arithmetic of [digits_to_bits] *)

Section Rounding64.

Lemma digits2_pos_size p : digits2_pos p = Pos.size p.
Proof. induction p as [p IH|p IH|]; cbn [digits2_pos Pos.size]; congruence. Qed.

Lemma Zdigits2_log2 m : 0 < m -> Zdigits2 m = Z.log2 m + 1.
Proof.
  destruct m as [|p|p]; try lia. intros _. cbn [Zdigits2].
  rewrite digits2_pos_size. destruct p; cbn [Z.log2 Pos.size]; lia.
Qed.

Lemma shr_1_m mrs : 0 <= shr_m mrs -> shr_m (shr_1 mrs) = shr_m mrs / 2.
Proof.
  destruct mrs as [m r s]. cbn [shr_m]. intros Hm. rewrite <- Z.div2_div.
  destruct m as [|[p|p|]|p]; try lia; reflexivity.
Qed.

Lemma iter_shr_1_m n : forall mrs,
  0 <= shr_m mrs -> shr_m (iter_pos shr_1 n mrs) = shr_m mrs / 2 ^ Zpos n.
Proof.
  assert (Hpow : forall k, 0 < 2 ^ Zpos k) by (intros k; apply Z.pow_pos_nonneg; lia).
  induction n as [n IH|n IH|]; intros mrs Hm; cbn [iter_pos].
  - pose proof (Hpow n).
    assert (H1 : 0 <= shr_m (shr_1 mrs)).
    { rewrite shr_1_m by exact Hm. apply Z.div_pos; lia. }
    assert (H2 : 0 <= shr_m (iter_pos shr_1 n (shr_1 mrs))).
    { rewrite IH by exact H1. apply Z.div_pos; lia. }
    rewrite IH, IH, shr_1_m by assumption.
    rewrite !Z.div_div by lia. f_equal.
    replace (Zpos n~1) with (1 + Zpos n + Zpos n) by lia.
    rewrite !Z.pow_add_r by lia. lia.
  - pose proof (Hpow n).
    assert (H2 : 0 <= shr_m (iter_pos shr_1 n mrs)).
    { rewrite IH by exact Hm. apply Z.div_pos; lia. }
    rewrite IH, IH by assumption.
    rewrite !Z.div_div by lia. f_equal.
    replace (Zpos n~0) with (Zpos n + Zpos n) by lia.
    rewrite !Z.pow_add_r by lia. lia.
  - now apply shr_1_m.
Qed.

Lemma shr_spec mrs e n mrs' e' :
  shr mrs e n = (mrs', e') -> 0 <= shr_m mrs ->
  e' = e + Z.max 0 n /\ shr_m mrs' = shr_m mrs / 2 ^ Z.max 0 n.
Proof.
  unfold shr. destruct n as [|p|p]; intros E Hm; injection E as <- <-.
  - split; [lia|]. cbn. now rewrite Z.div_1_r.
  - rewrite Z.max_r by lia. split; [lia|]. now apply iter_shr_1_m.
  - rewrite Z.max_l by lia. split; [lia|]. cbn. now rewrite Z.div_1_r.
Qed.

Lemma round_nearest_even_bounds m l : m <= round_nearest_even m l <= m + 1.
Proof.
  destruct l as [|[| |]]; cbn [round_nearest_even]; try destruct (Z.even m); lia.
Qed.

Lemma Zdigits2_le_succ m r :
  0 <= m -> m <= r <= m + 1 -> Zdigits2 r <= Z.log2 m + 2.
Proof.
  intros Hm Hr. pose proof (Z.log2_nonneg m).
  destruct (Z.eq_dec r 0) as [->|Hr0]; [cbn; lia|].
  rewrite Zdigits2_log2 by lia.
  assert (Z.log2 r <= Z.log2 (Z.succ m)) by (apply Z.log2_le_mono; lia).
  pose proof (Z.log2_succ_le m). lia.
Qed.

(** One rounding of a positive [m * 2^e] to binary64: the exponent moves up
    by what the format asks for, by one more at most, and the mantissa is
    not below the shifted one. *)
Lemma binary_round_aux_lower s m e :
  exists M e2,
    binary_round_aux 53 1024 s (Zpos m) e loc_Exact
    = match M with
      | Z0 => S754_zero s
      | Zpos m2 =>
          if e2 <=? 1024 - 53 then S754_finite s m2 e2 else S754_infinity s
      | Zneg _ => S754_nan
      end /\
    e <= e2 <= Z.max e (fexp 53 1024 (Zdigits2 (Zpos m) + e)) + 1 /\
    Zpos m / 2 ^ (e2 - e) <= M <= Zpos m / 2 ^ (e2 - e) + 1.
Proof.
  unfold binary_round_aux, shr_fexp.
  set (D := Zdigits2 (Zpos m)).
  destruct (shr (shr_record_of_loc (Zpos m) loc_Exact) e
              (fexp 53 1024 (D + e) - e)) as [mrs1 e1] eqn:E1.
  apply shr_spec in E1; [|cbn; lia]. destruct E1 as [He1 Hm1].
  cbn [shr_record_of_loc shr_m] in Hm1.
  set (n1 := Z.max 0 (fexp 53 1024 (D + e) - e)) in *.
  assert (Hp1 : 0 < 2 ^ n1) by (apply Z.pow_pos_nonneg; lia).
  assert (Hm1' : 0 <= shr_m mrs1) by (rewrite Hm1; apply Z.div_pos; lia).
  set (mr := round_nearest_even (shr_m mrs1) (loc_of_shr_record mrs1)).
  pose proof (round_nearest_even_bounds (shr_m mrs1) (loc_of_shr_record mrs1))
    as Hmr. fold mr in Hmr.
  destruct (shr (shr_record_of_loc mr loc_Exact) e1
              (fexp 53 1024 (Zdigits2 mr + e1) - e1)) as [mrs2 e2] eqn:E2.
  apply shr_spec in E2; [|cbn; lia]. destruct E2 as [He2 Hm2].
  cbn [shr_record_of_loc shr_m] in Hm2.
  set (n2 := Z.max 0 (fexp 53 1024 (Zdigits2 mr + e1) - e1)) in *.
  assert (Hp2 : 0 < 2 ^ n2) by (apply Z.pow_pos_nonneg; lia).
  exists (shr_m mrs2), e2. split; [reflexivity|].
  assert (HD : D = Z.log2 (Zpos m) + 1) by (apply Zdigits2_log2; lia).
  pose proof (Zdigits2_le_succ (shr_m mrs1) mr Hm1' Hmr) as Hdig.
  assert (Hlog : Z.log2 (shr_m mrs1) = Z.max 0 (Z.log2 (Zpos m) - n1)).
  { rewrite Hm1, <- Z.shiftr_div_pow2 by lia. apply Z.log2_shiftr. lia. }
  split.
  - unfold fexp, emin in *. lia.
  - replace (e2 - e) with (n1 + n2) by lia.
    rewrite Z.pow_add_r, <- Z.div_div by lia.
    rewrite Hm2, <- Hm1. split; [apply Z.div_le_mono; lia|].
    apply (Z.le_trans _ ((shr_m mrs1 + 1 * 2 ^ n2) / 2 ^ n2)).
    + apply Z.div_le_mono; lia.
    + rewrite Z.div_add by lia. lia.
Qed.


Lemma shr_nonpos mrs e n : n <= 0 -> shr mrs e n = (mrs, e).
Proof. destruct n; try reflexivity; lia. Qed.

(** A mantissa that already sits at the exponent of the format is left as
    it is. *)
Lemma binary_round_aux_exact s m e :
  fexp 53 1024 (Zdigits2 (Zpos m) + e) <= e -> e <= 971 ->
  binary_round_aux 53 1024 s (Zpos m) e loc_Exact = S754_finite s m e.
Proof.
  intros Hfexp He. unfold binary_round_aux, shr_fexp.
  rewrite shr_nonpos by lia.
  cbn [shr_record_of_loc loc_of_shr_record shr_m round_nearest_even].
  rewrite shr_nonpos by lia. cbn [shr_m].
  destruct (Z.leb_spec e (1024 - 53)); [reflexivity|lia].
Qed.

(** The same bounds on the value, scaled by [2^g] to stay in [Z]. *)
Lemma binary_round_aux_value s m e g :
  0 <= e + g ->
  exists M e2,
    binary_round_aux 53 1024 s (Zpos m) e loc_Exact
    = match M with
      | Z0 => S754_zero s
      | Zpos m2 =>
          if e2 <=? 1024 - 53 then S754_finite s m2 e2 else S754_infinity s
      | Zneg _ => S754_nan
      end /\
    e <= e2 <= Z.max e (fexp 53 1024 (Zdigits2 (Zpos m) + e)) + 1 /\
    Zpos m * 2 ^ (e + g) - 2 ^ (e2 + g) < M * 2 ^ (e2 + g)
      <= Zpos m * 2 ^ (e + g) + 2 ^ (e2 + g).
Proof.
  intros Hg. destruct (binary_round_aux_lower s m e) as (M & e2 & E & He2 & HM).
  exists M, e2. split; [exact E|]. split; [exact He2|].
  replace (e2 + g) with ((e2 - e) + (e + g)) by lia.
  rewrite (Z.pow_add_r 2 (e2 - e) (e + g)) by lia.
  assert (Ht : 0 < 2 ^ (e2 - e)) by (apply Z.pow_pos_nonneg; lia).
  assert (Hu : 0 < 2 ^ (e + g)) by (apply Z.pow_pos_nonneg; lia).
  pose proof (Z.mul_succ_div_gt (Zpos m) (2 ^ (e2 - e)) Ht) as Hlow.
  pose proof (Z.mul_div_le (Zpos m) (2 ^ (e2 - e)) Ht) as Hup.
  set (t := 2 ^ (e2 - e)) in *. set (u := 2 ^ (e + g)) in *.
  set (q := Zpos m / t) in *. split; nia.
Qed.

Lemma iter_xO_pow m d : Zpos (Pos.iter xO m d) = Zpos m * 2 ^ Zpos d.
Proof.
  induction d as [|d IH] using Pos.peano_ind.
  - cbn [Pos.iter]. rewrite Pos2Z.inj_xO. lia.
  - rewrite Pos.iter_succ, Pos2Z.inj_xO, IH, Pos2Z.inj_succ, Z.pow_succ_r by lia.
    ring.
Qed.

Lemma shl_align_spec m e e' m' e2 :
  shl_align m e e' = (m', e2) ->
  e2 = Z.min e e' /\ Zpos m' = Zpos m * 2 ^ (e - e2).
Proof.
  unfold shl_align. destruct (e' - e) as [|d|d] eqn:E; intros H;
    injection H as <- <-.
  - split; [lia|]. rewrite Z.sub_diag. cbn. lia.
  - split; [lia|]. rewrite Z.sub_diag. cbn. lia.
  - split; [lia|]. rewrite iter_xO_pow. f_equal. f_equal. lia.
Qed.

Lemma binary_round_value s m e g :
  0 <= e + g -> 0 <= fexp 53 1024 (Zdigits2 (Zpos m) + e) + g ->
  exists M e2,
    binary_round 53 1024 s m e
    = match M with
      | Z0 => S754_zero s
      | Zpos m2 =>
          if e2 <=? 1024 - 53 then S754_finite s m2 e2 else S754_infinity s
      | Zneg _ => S754_nan
      end /\
    e2 <= Z.max e (fexp 53 1024 (Zdigits2 (Zpos m) + e)) + 1 /\
    Zpos m * 2 ^ (e + g) - 2 ^ (e2 + g) < M * 2 ^ (e2 + g)
      <= Zpos m * 2 ^ (e + g) + 2 ^ (e2 + g).
Proof.
  intros Hg HF. unfold binary_round.
  change (Zpos (digits2_pos m)) with (Zdigits2 (Zpos m)).
  set (F := fexp 53 1024 (Zdigits2 (Zpos m) + e)) in *.
  destruct (shl_align m e F) as [mz ez] eqn:E.
  apply shl_align_spec in E. destruct E as [Hez Hmz].
  destruct (binary_round_aux_value s mz ez g) as (M & e2 & ER & He2 & HM);
    [lia|].
  exists M, e2. split; [exact ER|].
  assert (Hdig : Zdigits2 (Zpos mz) + ez = Zdigits2 (Zpos m) + e).
  { rewrite !Zdigits2_log2, Hmz, Z.log2_mul_pow2 by lia. lia. }
  rewrite Hdig in He2. fold F in He2. split; [lia|].
  assert (Hval : Zpos mz * 2 ^ (ez + g) = Zpos m * 2 ^ (e + g)).
  { rewrite Hmz, <- Z.mul_assoc, <- Z.pow_add_r by lia. f_equal. f_equal. lia. }
  rewrite <- Hval. exact HM.
Qed.

End Rounding64.

Section DigitsToBits.

(** An [unsigned] converts to [double] without rounding. *)
Lemma double_of_unsigned_exact d :
  0 < d < 2 ^ 53 ->
  exists m e,
    double_of_unsigned d = S754_finite false m e /\
    Zpos m = d * 2 ^ (- e) /\ e = Z.log2 d - 52.
Proof.
  intros Hd. destruct d as [|p|p]; try lia.
  unfold double_of_unsigned. cbn [binary_normalize]. unfold binary_round.
  change (Zpos (digits2_pos p)) with (Zdigits2 (Zpos p)).
  rewrite Z.add_0_r.
  assert (Hlog : Z.log2 (Zpos p) < 53) by (apply Z.log2_lt_pow2; lia).
  pose proof (Z.log2_nonneg (Zpos p)) as Hlog0.
  assert (HF : fexp 53 1024 (Zdigits2 (Zpos p)) = Z.log2 (Zpos p) - 52).
  { rewrite Zdigits2_log2 by lia. unfold fexp, emin. lia. }
  rewrite HF.
  destruct (shl_align p 0 (Z.log2 (Zpos p) - 52)) as [mz ez] eqn:E.
  apply shl_align_spec in E. destruct E as [Hez Hmz].
  assert (Hez' : ez = Z.log2 (Zpos p) - 52) by lia.
  exists mz, ez. split; [|split; [|exact Hez']].
  - apply binary_round_aux_exact; [|lia].
    rewrite Zdigits2_log2, Hmz, Z.log2_mul_pow2 by lia.
    unfold fexp, emin. lia.
  - rewrite Hmz. f_equal.
Qed.

(** What the two roundings and the truncation can take away is less than
    [1.5]: the result is above [digits * LOG2_10 - 1]. *)
Lemma digits_to_bits_lower d b :
  0 <= d <= UINT_MAX -> digits_to_bits d = Ok b ->
  3 <= b /\ d * 7480317065143154 < (b + 1) * 2 ^ 51.
Proof.
  intros Hd Hrun. unfold UINT_MAX in Hd.
  destruct (Z.eq_dec d 0) as [->|Hd0].
  { vm_compute in Hrun. injection Hrun as <-. lia. }
  destruct (double_of_unsigned_exact d ltac:(lia)) as (mx & ex & Ex & Hmx & Hex).
  assert (Hlog : 0 <= Z.log2 d < 32).
  { split; [apply Z.log2_nonneg|apply Z.log2_lt_pow2; lia]. }
  pose proof (Z.log2_spec d ltac:(lia)) as Hspec.
  (* the mantissa of [d] *)
  assert (Hpx : 2 ^ (- ex) * 2 ^ Z.log2 d = 2 ^ 52).
  { rewrite <- Z.pow_add_r by lia. f_equal. lia. }
  assert (Hpx0 : 0 < 2 ^ (- ex)) by (apply Z.pow_pos_nonneg; lia).
  assert (Hmx_range : 2 ^ 52 <= Zpos mx < 2 ^ 53).
  { rewrite Z.pow_succ_r in Hspec by lia.
    change (2 ^ 53) with (2 * 2 ^ 52). nia. }
  unfold digits_to_bits in Hrun. rewrite Ex in Hrun.
  unfold LOG2_10 in Hrun. cbn [SFmul xorb] in Hrun.
  (* the product *)
  set (mc := 7480317065143154%positive) in *.
  destruct (binary_round_aux_value false (mx * mc) (ex + -51) 104 ltac:(lia))
    as (Mp & ep & EP & Hep & HVp).
  rewrite EP in Hrun. clear EP.
  assert (Hprod : Zpos (mx * mc) * 2 ^ (ex + -51 + 104)
                  = d * Zpos mc * 2 ^ 53).
  { rewrite Pos2Z.inj_mul, Hmx.
    replace (ex + -51 + 104) with (ex + 53) by lia.
    replace (2 ^ 53) with (2 ^ (- ex) * 2 ^ (ex + 53)).
    - ring.
    - rewrite <- Z.pow_add_r by lia. f_equal. lia. }
  rewrite Hprod in HVp.
  assert (Hdigp : Zdigits2 (Zpos (mx * mc)) <= 106).
  { rewrite Zdigits2_log2 by lia.
    assert (Z.log2 (Zpos (mx * mc)) < 106); [|lia].
    apply Z.log2_lt_pow2; [lia|]. rewrite Pos2Z.inj_mul.
    change (2 ^ 106) with (2 ^ 53 * 2 ^ 53). unfold mc. nia. }
  assert (Hep' : ex + -51 <= ep <= -18) by (unfold fexp, emin in Hep; lia).
  assert (Hpp : 0 < 2 ^ (ep + 104) <= 2 ^ 86).
  { split; [apply Z.pow_pos_nonneg; lia|apply Z.pow_le_mono_r; lia]. }
  assert (Hbig : 2 ^ 105 <= d * Zpos mc * 2 ^ 53 < 2 ^ 138).
  { unfold mc. lia. }
  destruct Mp as [|mp|mp]; try nia.
  destruct (Z.leb_spec ep (1024 - 53)) as [_|]; [|lia].
  unfold HALF in Hrun. cbn [SFadd] in Hrun.
  (* the sum *)
  set (ez := Z.min ep (-53)) in *.
  destruct (shl_align mp ep ez) as [a ea] eqn:Ea.
  destruct (shl_align 4503599627370496 (-53) ez) as [h eh] eqn:Eh.
  apply shl_align_spec in Ea, Eh.
  destruct Ea as [Hea Ha]. destruct Eh as [Heh Hh].
  cbn [fst cond_Zopp Z.add binary_normalize] in Hrun.
  assert (Hea' : ea = ez) by lia. assert (Heh' : eh = ez) by lia.
  clear Hea Heh. subst ea eh.
  assert (Hez : -103 <= ez <= -53) by lia.
  assert (Hva : Zpos a * 2 ^ (ez + 104) = Zpos mp * 2 ^ (ep + 104)).
  { rewrite Ha, <- Z.mul_assoc, <- Z.pow_add_r by lia. f_equal. f_equal. lia. }
  assert (Hvh : Zpos h * 2 ^ (ez + 104) = 2 ^ 103).
  { rewrite Hh. change 4503599627370496 with (2 ^ 52).
    rewrite <- !Z.pow_add_r by lia. f_equal. lia. }
  assert (Hpz : 0 < 2 ^ (ez + 104)) by (apply Z.pow_pos_nonneg; lia).
  assert (Hsum : Zpos (a + h) * 2 ^ (ez + 104)
                 = Zpos mp * 2 ^ (ep + 104) + 2 ^ 103).
  { rewrite Pos2Z.inj_add. lia. }
  assert (Hlogs : -1 - ez <= Z.log2 (Zpos (a + h)) < 35 - ez).
  { split.
    - apply Z.log2_le_pow2; [lia|].
      rewrite Pos2Z.inj_add, Hh. change 4503599627370496 with (2 ^ 52).
      rewrite <- Z.pow_add_r by lia.
      replace (52 + (-53 - ez)) with (-1 - ez) by lia. lia.
    - apply Z.log2_lt_pow2; [lia|].
      apply (Z.mul_lt_mono_pos_r (2 ^ (ez + 104))); [exact Hpz|].
      rewrite <- Z.pow_add_r by lia.
      replace (35 - ez + (ez + 104)) with 139 by lia.
      rewrite Hsum. lia. }
  assert (Hdigs : 0 <= Zdigits2 (Zpos (a + h)) + ez <= 35).
  { rewrite Zdigits2_log2 by lia. lia. }
  destruct (binary_round_value false (a + h) ez 104)
    as (Ms & es & ES & Hes & HVs);
    [lia|unfold fexp, emin; lia|].
  rewrite ES in Hrun. clear ES. rewrite Hsum in HVs.
  assert (Hes' : es <= -17) by (unfold fexp, emin in Hes; lia).
  destruct Ms as [|ms|ms].
  - cbn [unsigned_of_double bind] in Hrun. exfalso.
    assert (es + 104 < 0 \/ 0 <= es + 104) as [Hneg|Hpos] by lia.
    + rewrite (Z.pow_neg_r 2 (es + 104)) in HVs by lia. lia.
    + assert (2 ^ (es + 104) <= 2 ^ 87) by (apply Z.pow_le_mono_r; lia). lia.
  - destruct (Z.leb_spec es (1024 - 53)) as [_|]; [|lia].
    cbn [unsigned_of_double] in Hrun.
    rewrite Z.shiftl_div_pow2 in Hrun by lia.
    set (t := Zpos ms / 2 ^ (- es)) in *.
    destruct (Z.leb_spec t UINT_MAX) as [_|]; [|discriminate].
    cbn [bind] in Hrun. injection Hrun as <-.
    assert (Ht : d * Zpos mc < (t + 1) * 2 ^ 51).
    { assert (Hes0 : -104 <= es).
      { destruct (Z_lt_le_dec es (-104)) as [Hneg|]; [|assumption].
        rewrite (Z.pow_neg_r 2 (es + 104)) in HVs by lia. lia. }
      assert (Hps : 0 < 2 ^ (es + 104) <= 2 ^ 87).
      { split; [apply Z.pow_pos_nonneg; lia|apply Z.pow_le_mono_r; lia]. }
      assert (Hpn : 0 < 2 ^ (- es)) by (apply Z.pow_pos_nonneg; lia).
      pose proof (Z.mul_succ_div_gt (Zpos ms) (2 ^ (- es)) Hpn) as Hfloor.
      fold t in Hfloor.
      assert (Hsplit : 2 ^ (- es) * 2 ^ (es + 104) = 2 ^ 104).
      { rewrite <- Z.pow_add_r by lia. f_equal. lia. }
      assert (Hscaled : Zpos ms * 2 ^ (es + 104) < Z.succ t * 2 ^ 104).
      { rewrite <- Hsplit. nia. }
      change (2 ^ 104) with (2 ^ 51 * 2 ^ 53) in Hscaled.
      assert (d * Zpos mc * 2 ^ 53 < (t + 1) * 2 ^ 51 * 2 ^ 53); [|lia].
      lia. }
    fold mc. destruct (Z.ltb_spec t 3); split; try lia.
  - cbn [unsigned_of_double bind] in Hrun. discriminate.
Qed.

End DigitsToBits.

(** ** [log2 10] is below the constant of [digits_to_bits] *)

Section Log2Of10.

Lemma log2_10_chain_sound k :
  let (n, u) := log2_10_chain k in
  0 <= n /\ 0 < u /\ 10 ^ (2 ^ Z.of_nat k) * 2 ^ 128 <= 2 ^ n * u.
Proof.
  induction k as [|k IH].
  - cbn [log2_10_chain]. change (10 ^ (2 ^ Z.of_nat 0)) with 10. lia.
  - cbn [log2_10_chain]. destruct (log2_10_chain k) as [n u].
    destruct IH as (Hn & Hu & HX).
    assert (HK : 0 <= 2 ^ Z.of_nat k) by (apply Z.pow_nonneg; lia).
    rewrite Nat2Z.inj_succ, Z.pow_succ_r by lia.
    rewrite (Z.mul_comm 2 (2 ^ Z.of_nat k)), Z.pow_mul_r, Z.pow_2_r by lia.
    assert (HX0 : 0 < 10 ^ (2 ^ Z.of_nat k)).
    { apply Z.pow_pos_nonneg; [lia|]. apply Z.pow_nonneg. lia. }
    set (X := 10 ^ (2 ^ Z.of_nat k)) in *. clearbody X.
    assert (HY : 2 ^ (2 * n) = 2 ^ n * 2 ^ n).
    { rewrite Z.mul_comm, Z.pow_mul_r, Z.pow_2_r by lia. reflexivity. }
    assert (HY0 : 0 < 2 ^ n) by (apply Z.pow_pos_nonneg; lia).
    set (v := (u * u + 2 ^ 128 - 1) / 2 ^ 128).
    assert (Hv : u * u <= v * 2 ^ 128).
    { pose proof (Z.mul_succ_div_gt (u * u + 2 ^ 128 - 1) (2 ^ 128) ltac:(lia)).
      fold v in H. lia. }
    assert (Hsq : (X * 2 ^ 128) * (X * 2 ^ 128) <= (2 ^ n * u) * (2 ^ n * u)).
    { apply Z.mul_le_mono_nonneg; lia. }
    assert (Hcore : X * X * 2 ^ 128 <= 2 ^ n * 2 ^ n * v).
    { set (Y := 2 ^ n) in *. clearbody Y.
      assert (X * X * 2 ^ 128 * 2 ^ 128 <= Y * Y * v * 2 ^ 128); [|nia].
      assert (Y * Y * (u * u) <= Y * Y * (v * 2 ^ 128))
        by (apply Z.mul_le_mono_nonneg_l; nia).
      nia. }
    destruct (Z.leb_spec (2 ^ 129) v) as [Hbig|Hsmall].
    + split; [lia|]. split; [apply Z.div_str_pos; lia|].
      rewrite Z.pow_add_r, HY, Z.pow_1_r by lia.
      pose proof (Z.mul_succ_div_gt (v + 1) 2 ltac:(lia)) as Hhalf.
      set (w := (v + 1) / 2) in *.
      set (Y := 2 ^ n) in *. clearbody Y. nia.
    + split; [lia|]. split; [nia|]. rewrite HY. exact Hcore.
Qed.

Lemma log2_10_chain_51 :
  log2_10_chain 51
  = (7480317065143153, 441035686286044000699797113747511194527).
Proof. vm_compute. reflexivity. Qed.

(** [log2 10 <= 7480317065143154 / 2^51], the constant [LOG2_10]. *)
Lemma log2_10_certificate : 10 ^ (2 ^ Z.of_nat 51) <= 2 ^ 7480317065143154.
Proof.
  pose proof (log2_10_chain_sound 51) as H. rewrite log2_10_chain_51 in H.
  destruct H as (_ & _ & H).
  assert (HN : 0 <= 7480317065143153) by (apply Z.leb_le; reflexivity).
  assert (HY : 0 < 2 ^ 7480317065143153)
    by (apply Z.pow_pos_nonneg; [reflexivity|exact HN]).
  assert (E : 2 ^ 7480317065143154 = 2 * 2 ^ 7480317065143153)
    by (exact (Z.pow_succ_r 2 7480317065143153 HN)).
  rewrite E. clear E HN. revert H HY.
  generalize (2 ^ 7480317065143153). generalize (10 ^ (2 ^ Z.of_nat 51)).
  intros X Y H HY. nia.
Qed.

Lemma pow_le_from_certificate K M a b :
  0 < K -> 0 <= M -> 10 ^ K <= 2 ^ M ->
  0 <= a -> 0 <= b -> a * M <= b * K -> 10 ^ a <= 2 ^ b.
Proof.
  intros HK HM Hcert Ha Hb Hab.
  apply (Z.pow_le_mono_l_iff (10 ^ a) (2 ^ b) K);
    [apply Z.pow_nonneg; lia|apply Z.pow_nonneg; lia|exact HK|].
  rewrite <- !Z.pow_mul_r by lia.
  apply (Z.le_trans _ (2 ^ (M * a))).
  - rewrite (Z.mul_comm a K), !Z.pow_mul_r by lia.
    apply Z.pow_le_mono_l. split; [apply Z.pow_nonneg; lia|exact Hcert].
  - apply Z.pow_le_mono_r; lia.
Qed.

Lemma pow10_le_pow2 a b :
  0 <= a -> 0 <= b -> a * 7480317065143154 <= b * 2 ^ 51 -> 10 ^ a <= 2 ^ b.
Proof.
  intros Ha Hb Hab.
  apply (pow_le_from_certificate (2 ^ Z.of_nat 51) 7480317065143154 a b);
    [reflexivity|lia|exact log2_10_certificate|exact Ha|exact Hb|].
  change (2 ^ Z.of_nat 51) with (2 ^ 51). exact Hab.
Qed.

(** With the bits that [digits_to_bits] asks for, raised to [130], a number
    of [bits] bits has [digits] decimal digits. *)
Lemma digits_to_bits_sizing d b :
  0 <= d <= UINT_MAX -> digits_to_bits d = Ok b ->
  10 ^ (d - 1) <= 2 ^ ((if b <? 130 then 130 else b) - 1).
Proof.
  intros Hd Hrun.
  destruct (digits_to_bits_lower d b Hd Hrun) as [Hb Hlow].
  destruct (Z.eq_dec d 0) as [->|Hd0].
  { rewrite Z.pow_neg_r by lia. apply Z.pow_nonneg. lia. }
  apply pow10_le_pow2; [lia|destruct (Z.ltb_spec b 130); lia|].
  destruct (Z.ltb_spec b 130); lia.
Qed.

End Log2Of10.

(** ** [gen_safe_prime] *)

Section SafePrime.

(** [decimal_digits] counts the decimal digits. *)
Lemma decimal_digits_aux_spec fuel : forall n,
  0 < n -> Z.log2 n <= Z.of_nat fuel ->
  10 ^ (decimal_digits_aux fuel n - 1) <= n < 10 ^ decimal_digits_aux fuel n.
Proof.
  induction fuel as [|fuel IH]; intros n Hn Hfuel; cbn [decimal_digits_aux].
  - assert (n = 1).
    { pose proof (Z.log2_nonneg n).
      assert (Hl : Z.log2 n = 0) by lia. apply Z.log2_null in Hl. lia. }
    subst n. simpl. lia.
  - destruct (Z.ltb_spec n 10) as [Hlt|Hge]; [simpl; lia|].
    assert (Hq : 0 < n / 10) by (apply Z.div_str_pos; lia).
    destruct (IH (n / 10) Hq) as [Hlo Hhi].
    { assert (H2 : 2 * (n / 10) <= n).
      { pose proof (Z.div_mod n 10 ltac:(lia)).
        pose proof (Z.mod_pos_bound n 10 ltac:(lia)). lia. }
      apply Z.log2_le_mono in H2. rewrite Z.log2_double in H2 by lia. lia. }
    set (d := decimal_digits_aux fuel (n / 10)) in *.
    assert (Hd : 1 <= d).
    { destruct (Z_lt_le_dec d 1) as [Hd0|]; [|assumption].
      rewrite (Z.pow_neg_r 10 (d - 1)) in Hlo by lia.
      destruct (Z.le_gt_cases 0 d) as [Hd1|Hd1].
      - replace d with 0 in Hhi by lia. simpl in Hhi. lia.
      - rewrite Z.pow_neg_r in Hhi by lia. lia. }
    replace (1 + d - 1) with (Z.succ (d - 1)) by lia.
    replace (1 + d) with (Z.succ d) by lia.
    rewrite !Z.pow_succ_r by lia.
    pose proof (Z.div_mod n 10 ltac:(lia)).
    pose proof (Z.mod_pos_bound n 10 ltac:(lia)). lia.
Qed.

Lemma decimal_digits_spec n :
  0 < n -> 10 ^ (decimal_digits n - 1) <= n < 10 ^ decimal_digits n.
Proof.
  intros Hn. apply decimal_digits_aux_spec; [exact Hn|].
  pose proof (Z.log2_nonneg n). lia.
Qed.

Variable gmp : substrate.

(** The loop only leaves through the two acceptance tests. *)
Lemma gen_safe_prime_loop_accepts fuel : forall st bits digits P r,
  gen_safe_prime_loop gmp fuel st bits digits = Ok (P, r) ->
  P = r * 2 + 1 /\
  mpz_probab_prime_p gmp P PRP_REPS <> 0 /\
  digits <= mpz_sizeinbase_10 gmp P /\
  exists x, r = mpz_nextprime gmp x.
Proof.
  induction fuel as [|fuel IH]; intros st bits digits P r Hrun;
    cbn [gen_safe_prime_loop] in Hrun; [discriminate|].
  destruct (mpz_urandomb gmp st (bits - 1)) as [sample st'].
  destruct (negb (mpz_probab_prime_p gmp
                    (mpz_nextprime gmp (mpz_setbit sample (bits - 2)) * 2 + 1)
                    PRP_REPS =? 0)) eqn:Hprp; cbn [andb] in Hrun.
  - destruct (Z.leb_spec digits
                (mpz_sizeinbase_10 gmp
                   (mpz_nextprime gmp (mpz_setbit sample (bits - 2)) * 2 + 1)))
      as [Hsize|Hsize].
    + injection Hrun as <- <-. split; [reflexivity|].
      apply negb_true_iff, Z.eqb_neq in Hprp. eauto.
    + now apply IH in Hrun.
  - now apply IH in Hrun.
Qed.

Lemma gen_safe_prime_loop_candidate fuel : forall st bits digits P r,
  gen_safe_prime_loop gmp fuel st bits digits = Ok (P, r) ->
  exists st0,
    r = mpz_nextprime gmp
          (mpz_setbit (fst (mpz_urandomb gmp st0 (bits - 1))) (bits - 2)) /\
    P = r * 2 + 1.
Proof.
  induction fuel as [|fuel IH]; intros st bits digits P r Hrun;
    cbn [gen_safe_prime_loop] in Hrun; [discriminate|].
  destruct (mpz_urandomb gmp st (bits - 1)) as [sample st'] eqn:Hdraw.
  destruct (negb (mpz_probab_prime_p gmp
                    (mpz_nextprime gmp (mpz_setbit sample (bits - 2)) * 2 + 1)
                    PRP_REPS =? 0)
            && (digits <=? mpz_sizeinbase_10 gmp
                  (mpz_nextprime gmp (mpz_setbit sample (bits - 2)) * 2 + 1))).
  - injection Hrun as <- <-. exists st. now rewrite Hdraw.
  - now apply IH in Hrun.
Qed.

End SafePrime.

Lemma setbit_lower x i : 0 <= x -> 0 <= i -> 2 ^ i <= mpz_setbit x i.
Proof.
  intros Hx Hi. unfold mpz_setbit.
  assert (Hnonneg : 0 <= Z.setbit x i).
  { rewrite Z.setbit_spec'. apply Z.lor_nonneg. split; [exact Hx|].
    apply Z.pow_nonneg. lia. }
  pose proof (Z.setbit_eq x i Hi) as Hbit.
  apply Z.testbit_true in Hbit; [|exact Hi].
  pose proof (Z.pow_pos_nonneg 2 i ltac:(lia) Hi) as Hpow.
  destruct (Z_lt_le_dec (Z.setbit x i) (2 ^ i)) as [Hlt|]; [|assumption].
  rewrite Z.div_small in Hbit by lia. discriminate.
Qed.

Section SafePrimePostcondition.

Variable gmp : substrate.

(** [mpz_urandomb] draws from [0 .. 2^n - 1] and [mpz_nextprime] returns a
    value above its argument. *)
Hypothesis draws_nonneg :
  forall st n, 0 <= n -> 0 <= fst (mpz_urandomb gmp st n).
Hypothesis nextprime_above : forall x, x < mpz_nextprime gmp x.

(** A pair that leaves the loop has a [P] of more than [bits - 1] bits. *)
Lemma gen_safe_prime_loop_size fuel st bits digits P r :
  2 <= bits ->
  gen_safe_prime_loop gmp fuel st bits digits = Ok (P, r) ->
  2 ^ (bits - 1) < P.
Proof.
  intros Hbits Hrun.
  destruct (gen_safe_prime_loop_candidate gmp fuel st bits digits P r Hrun)
    as (st0 & Hr & HP).
  pose proof (setbit_lower (fst (mpz_urandomb gmp st0 (bits - 1))) (bits - 2)
                (draws_nonneg st0 (bits - 1) ltac:(lia)) ltac:(lia)) as Hset.
  pose proof (nextprime_above
                (mpz_setbit (fst (mpz_urandomb gmp st0 (bits - 1))) (bits - 2)))
    as Hnext.
  rewrite <- Hr in Hnext.
  replace (bits - 1) with (Z.succ (bits - 2)) by lia.
  rewrite Z.pow_succ_r by lia. lia.
Qed.

Lemma gen_safe_prime_c_digits fuel st digits P r :
  0 <= digits <= UINT_MAX ->
  gen_safe_prime_c gmp fuel st digits = Ok (P, r) ->
  0 < P /\ digits <= decimal_digits P.
Proof.
  intros Hdigits Hrun. unfold gen_safe_prime_c in Hrun.
  apply bind_Ok_inv in Hrun. destruct Hrun as (bits & Hbits & Hrun).
  pose proof (digits_to_bits_sizing digits bits Hdigits Hbits) as Hsize.
  unfold gen_safe_prime in Hrun.
  set (B := if bits <? 130 then 130 else bits) in *.
  assert (HB : 130 <= B) by (unfold B; destruct (Z.ltb_spec bits 130); lia).
  apply gen_safe_prime_loop_size in Hrun; [|lia].
  assert (HP : 0 < P).
  { pose proof (Z.pow_pos_nonneg 2 (B - 1) ltac:(lia) ltac:(lia)). lia. }
  split; [exact HP|].
  destruct (decimal_digits_spec P HP) as [_ Hupper].
  destruct (Z_lt_le_dec (decimal_digits P) digits) as [Hfew|]; [|assumption].
  exfalso.
  assert (10 ^ decimal_digits P <= 10 ^ (digits - 1)); [|lia].
  destruct (Z_lt_le_dec (decimal_digits P) 0) as [Hneg|Hnonneg].
  - rewrite (Z.pow_neg_r 10 (decimal_digits P)) in Hupper by exact Hneg. lia.
  - apply Z.pow_le_mono_r; lia.
Qed.

End SafePrimePostcondition.

Lemma search_next_above fuel : forall x, x <= search_next fuel x.
Proof.
  induction fuel as [|fuel IH]; intros x; cbn [search_next]; [lia|].
  destruct (rounds_test x 25 =? 0); [|lia]. specialize (IH (x + 1)). lia.
Qed.

Lemma rounds_substrate_draws st n :
  0 <= n -> 0 <= fst (mpz_urandomb rounds_substrate st n).
Proof.
  intros Hn. cbn [rounds_substrate mpz_urandomb fst].
  apply Z.mod_pos_bound. apply Z.pow_pos_nonneg; lia.
Qed.

Lemma rounds_substrate_nextprime x : x < mpz_nextprime rounds_substrate x.
Proof.
  cbn [rounds_substrate mpz_nextprime].
  pose proof (search_next_above 2000 (x + 1)). lia.
Qed.

(** At [39] digits the C function gives what exact arithmetic gives. *)
Lemma digits_to_bits_exact_39 :
  digits_to_bits 39 = Ok (digits_to_bits_exact 39).
Proof. vm_compute. reflexivity. Qed.




(** * Further properties of rsa_algorithm.c *)

Section CArithmeticSigned.

Lemma at_int_inv x r : at_int x = Ok r -> r = x /\ INT_MIN <= x <= INT_MAX.
Proof.
  unfold at_int, at_type.
  destruct (Z.leb_spec INT_MIN x); destruct (Z.leb_spec x INT_MAX);
    cbn [andb]; try discriminate.
  intros [= <-]. lia.
Qed.

Lemma int_rem_inv a b r : int_rem a b = Ok r -> b <> 0 /\ r = Z.rem a b.
Proof.
  unfold int_rem. destruct (Z.eqb_spec b 0) as [|Hb]; [discriminate|].
  intros Hrun. apply bind_Ok_inv in Hrun. destruct Hrun as (q & _ & [= <-]).
  auto.
Qed.

Lemma int_div_inv a b q : int_div a b = Ok q -> b <> 0 /\ q = Z.quot a b.
Proof.
  unfold int_div. destruct (Z.eqb_spec b 0) as [|Hb]; [discriminate|].
  intros Hrun. apply at_int_inv in Hrun. destruct Hrun as [-> _]. auto.
Qed.

(** The quotient of an [int] by a non-zero [int] is an [int], the case
    [INT_MIN / -1] apart. *)
Lemma quot_in_int a b :
  - INT_MAX <= a <= INT_MAX -> b <> 0 -> INT_MIN <= Z.quot a b <= INT_MAX.
Proof.
  destruct int_bounds as [Hmin Hmax]. intros Ha Hb.
  assert (Hq : Z.abs (Z.quot a b) <= Z.abs a).
  { pose proof (Z.quot_rem' a b) as Hqr.
    pose proof (Z.rem_bound_abs a b Hb) as Hr.
    pose proof (Z.quot_abs a b Hb) as Habs.
    rewrite <- Habs.
    apply Z.quot_le_upper_bound; [lia|]. nia. }
  lia.
Qed.

Lemma int_rem_signed a b :
  - INT_MAX <= a <= INT_MAX -> b <> 0 -> int_rem a b = Ok (Z.rem a b).
Proof.
  intros Ha Hb. unfold int_rem.
  destruct (Z.eqb_spec b 0) as [|_]; [contradiction|].
  rewrite at_int_ok by now apply quot_in_int. reflexivity.
Qed.

Lemma int_div_signed a b :
  - INT_MAX <= a <= INT_MAX -> b <> 0 -> int_div a b = Ok (Z.quot a b).
Proof.
  intros Ha Hb. unfold int_div.
  destruct (Z.eqb_spec b 0) as [|_]; [contradiction|].
  apply at_int_ok. now apply quot_in_int.
Qed.

(** Truncated division splits the absolute value of the dividend. *)
Lemma quot_rem_abs a b :
  b <> 0 -> Z.abs a = Z.abs (Z.quot a b) * Z.abs b + Z.abs (Z.rem a b).
Proof.
  intros Hb.
  rewrite <- Z.quot_abs, <- Z.rem_abs by lia.
  pose proof (Z.quot_rem' (Z.abs a) (Z.abs b)). lia.
Qed.

End CArithmeticSigned.

(** ** [gcdExtended] and [findGCD] on arguments of either sign *)

Section ExtendedEuclidSigned.

(** Whatever a run returns satisfies the Bezout identity, and is the gcd up
    to its sign. *)
Lemma gcdExtended_rec_sound fuel : forall a b g x y,
  gcdExtended_rec fuel a b = Ok (g, x, y) ->
  a * x + b * y = g /\ Z.abs g = Z.gcd a b.
Proof.
  induction fuel as [|fuel IH]; intros a b g x y; cbn [gcdExtended_rec];
    destruct (Z.eqb_spec a 0) as [->|Ha]; intros Hrun;
    try discriminate;
    try (injection Hrun as Hg Hx Hy; subst g x y; split; [ring|reflexivity]).
  apply bind_Ok_inv in Hrun. destruct Hrun as (r & Hr & Hrun).
  apply int_rem_inv in Hr. destruct Hr as [_ ->].
  apply bind_Ok_inv in Hrun. destruct Hrun as ([[g' x1] y1] & Hinner & Hrun).
  apply bind_Ok_inv in Hrun. destruct Hrun as (q & Hq & Hrun).
  apply int_div_inv in Hq. destruct Hq as [_ ->].
  apply bind_Ok_inv in Hrun. destruct Hrun as (t & Ht & Hrun).
  apply at_int_inv in Ht. destruct Ht as [-> _].
  apply bind_Ok_inv in Hrun. destruct Hrun as (x' & Hx & Hrun).
  apply at_int_inv in Hx. destruct Hx as [-> _].
  injection Hrun as <- <- <-.
  destruct (IH _ _ _ _ _ Hinner) as [Hbez Hgcd]. split.
  - rewrite <- Hbez. pose proof (Z.quot_rem' b a) as Hqr.
    generalize dependent (Z.quot b a). generalize dependent (Z.rem b a).
    intros r _ _ _ q ->. ring.
  - rewrite Hgcd. now apply Z.gcd_rem.
Qed.

(** On non-negative arguments the returned gcd is non-negative. *)
Lemma gcdExtended_rec_nonneg fuel : forall a b g x y,
  gcdExtended_rec fuel a b = Ok (g, x, y) -> 0 <= a -> 0 <= b -> 0 <= g.
Proof.
  induction fuel as [|fuel IH]; intros a b g x y; cbn [gcdExtended_rec];
    destruct (Z.eqb_spec a 0) as [->|Ha0]; intros Hrun Ha Hb;
    try discriminate; try (injection Hrun as Hg _ _; subst g; exact Hb).
  apply bind_Ok_inv in Hrun. destruct Hrun as (r & Hr & Hrun).
  apply int_rem_inv in Hr. destruct Hr as [_ ->].
  apply bind_Ok_inv in Hrun. destruct Hrun as ([[g' x1] y1] & Hinner & Hrun).
  apply bind_Ok_inv in Hrun. destruct Hrun as (q & _ & Hrun).
  apply bind_Ok_inv in Hrun. destruct Hrun as (t & _ & Hrun).
  apply bind_Ok_inv in Hrun. destruct Hrun as (x' & _ & Hrun).
  injection Hrun as <- <- <-.
  apply (IH _ _ _ _ _ Hinner); [|exact Ha].
  apply Z.rem_nonneg; lia.
Qed.

Lemma gcd_size_base b : gcd_size 0 b 0 1.
Proof. split; [auto|intros []; reflexivity]. Qed.

Lemma gcdExtended_step_signed fuel a b g x1 y1 :
  a <> 0 -> - INT_MAX <= a <= INT_MAX -> - INT_MAX <= b <= INT_MAX ->
  gcdExtended_rec fuel (Z.rem b a) a = Ok (g, x1, y1) ->
  gcd_size (Z.rem b a) a x1 y1 ->
  gcdExtended_rec (S fuel) a b = Ok (g, y1 - Z.quot b a * x1, x1) /\
  gcd_size a b (y1 - Z.quot b a * x1) x1.
Proof.
  destruct int_bounds as [Hmin Hmax].
  intros Ha0 Ha Hb Hrec [Hzero Hnz].
  pose proof (quot_rem_abs b a Ha0) as Hsplit.
  assert (Hsize : Z.abs (Z.quot b a * x1) <= Z.abs b /\
                  Z.abs (y1 - Z.quot b a * x1) <= Z.max (Z.abs b) 1 /\
                  Z.abs x1 <= Z.abs a).
  { destruct (Z.eq_dec (Z.rem b a) 0) as [Hr0|Hr0].
    - destruct (Hzero Hr0) as [-> ->]. rewrite Z.mul_0_r. cbn. lia.
    - destruct (Hnz Hr0) as [Hx1 Hy1].
      rewrite Z.abs_mul.
      assert (Z.abs (Z.quot b a) * Z.abs x1 <= Z.abs (Z.quot b a) * Z.abs a)
        by (apply Z.mul_le_mono_nonneg_l; lia).
      lia. }
  split.
  - cbn [gcdExtended_rec]. destruct (Z.eqb_spec a 0) as [|_]; [contradiction|].
    rewrite int_rem_signed by assumption. cbn [bind]. rewrite Hrec. cbn [bind].
    rewrite int_div_signed by assumption. cbn [bind].
    unfold int_mul, int_sub. rewrite at_int_ok by lia. cbn [bind].
    rewrite at_int_ok by lia. reflexivity.
  - split; [contradiction|]. intros _. lia.
Qed.

Lemma gcdExtended_rec_ordered_signed fuel : forall a b,
  0 < Z.abs a <= Z.abs b -> Z.abs b <= INT_MAX ->
  Z.log2 (Z.abs a) + Z.log2 (Z.abs b) < Z.of_nat fuel ->
  exists g x y, gcdExtended_rec fuel a b = Ok (g, x, y) /\ gcd_size a b x y.
Proof.
  induction fuel as [|fuel IH]; intros a b Hab Hb Hfuel.
  - pose proof (Z.log2_nonneg (Z.abs a)). pose proof (Z.log2_nonneg (Z.abs b)).
    lia.
  - assert (Ha0 : a <> 0) by lia.
    pose proof (Z.rem_bound_abs b a Ha0) as Hr.
    pose proof (quot_rem_abs b a Ha0) as Hsplit.
    destruct (Z.eq_dec (Z.rem b a) 0) as [Hr0|Hr0].
    + destruct (gcdExtended_step_signed fuel a b a 0 1) as [Hrun Hpost];
        try lia.
      * rewrite Hr0. destruct fuel; reflexivity.
      * rewrite Hr0. apply gcd_size_base.
      * eauto.
    + destruct (IH (Z.rem b a) a) as (g & x1 & y1 & Hrun & Hpost); try lia.
      * assert (Hq : 1 <= Z.abs (Z.quot b a)).
        { rewrite <- Z.quot_abs by lia.
          apply Z.quot_le_lower_bound; lia. }
        assert (H2r : 2 * Z.abs (Z.rem b a) <= Z.abs b) by nia.
        apply Z.log2_le_mono in H2r.
        rewrite Z.log2_double in H2r by lia. lia.
      * destruct (gcdExtended_step_signed fuel a b g x1 y1)
          as [Hrun' Hpost']; try lia; eauto.
Qed.

(** [gcdExtended] returns on every pair of [int] arguments other than
    [INT_MIN]. *)
Lemma gcdExtended_total a b :
  - INT_MAX <= a <= INT_MAX -> - INT_MAX <= b <= INT_MAX ->
  exists g x y, gcdExtended a b = Ok (g, x, y).
Proof.
  intros Ha Hb. unfold gcdExtended, gcd_fuel.
  pose proof (Z.log2_nonneg (Z.abs a)) as Hla.
  pose proof (Z.log2_nonneg (Z.abs b)) as Hlb.
  set (fuel := S (Z.to_nat (Z.log2 (Z.abs a) + Z.log2 (Z.abs b)))).
  assert (Hfuel : Z.log2 (Z.abs a) + Z.log2 (Z.abs b) < Z.of_nat fuel)
    by (unfold fuel; lia).
  destruct (Z.eq_dec a 0) as [->|Ha0]; [cbn [gcdExtended_rec Z.eqb]; eauto|].
  destruct (Z_le_gt_dec (Z.abs a) (Z.abs b)) as [Hle|Hgt].
  - destruct (gcdExtended_rec_ordered_signed (S fuel) a b)
      as (g & x & y & Hrun & _); try lia; eauto.
  - assert (Hrem : Z.rem b a = b) by (apply Z.rem_small_iff; lia).
    assert (Hinner : exists g x1 y1,
              gcdExtended_rec fuel (Z.rem b a) a = Ok (g, x1, y1) /\
              gcd_size (Z.rem b a) a x1 y1).
    { rewrite Hrem. destruct (Z.eq_dec b 0) as [->|Hb0].
      - exists a, 0, 1. split; [reflexivity|apply gcd_size_base].
      - apply gcdExtended_rec_ordered_signed; lia. }
    destruct Hinner as (g & x1 & y1 & Hrun & Hpost).
    destruct (gcdExtended_step_signed fuel a b g x1 y1 Ha0 Ha Hb Hrun Hpost)
      as [Hrun' _].
    eauto.
Qed.

End ExtendedEuclidSigned.

(** X1.  For all [int] arguments other than [INT_MIN], of either sign and
    zero included, [gcdExtended] returns some [(g, x, y)] without
    overflow, with [a * x + b * y = g], and [g] is [gcd a b] up to its
    sign. *)
Theorem gcdExtended_any_sign a b :
  - INT_MAX <= a <= INT_MAX -> - INT_MAX <= b <= INT_MAX ->
  exists g x y,
    gcdExtended a b = Ok (g, x, y) /\ a * x + b * y = g /\
    Z.abs g = Z.gcd a b.
Proof.
  intros Ha Hb. destruct (gcdExtended_total a b Ha Hb) as (g & x & y & Hrun).
  exists g, x, y. split; [exact Hrun|].
  exact (gcdExtended_rec_sound _ _ _ _ _ _ Hrun).
Qed.

Lemma gcdExtended_any_sign_witness :
  exists g x y,
    gcdExtended 12 (-18) = Ok (g, x, y) /\ 12 * x + -18 * y = g /\
    Z.abs g = Z.gcd 12 (-18).
Proof.
  apply (gcdExtended_any_sign 12 (-18)); unfold INT_MAX; lia.
Defined.

(** X2.  For [int] arguments [a, b >= 0], zero included, [findGCD] returns
    [gcd a b]. *)
Theorem findGCD_is_gcd a b :
  0 <= a <= INT_MAX -> 0 <= b <= INT_MAX -> findGCD a b = Ok (Z.gcd a b).
Proof.
  intros Ha Hb.
  destruct (gcdExtended_total a b ltac:(lia) ltac:(lia)) as (g & x & y & Hrun).
  unfold findGCD. rewrite Hrun. cbn [bind]. f_equal.
  destruct (gcdExtended_rec_sound _ _ _ _ _ _ Hrun) as [_ Hgcd].
  pose proof (gcdExtended_rec_nonneg _ _ _ _ _ _ Hrun ltac:(lia) ltac:(lia)).
  lia.
Qed.

Lemma findGCD_is_gcd_witness : findGCD 3 1030216 = Ok (Z.gcd 3 1030216).
Proof. apply (findGCD_is_gcd 3 1030216); unfold INT_MAX; lia. Defined.

(** ** [power] on every [int] base and exponent *)

Section PowerSigned.

(** The quotient of two [int]s is an [int], the case [INT_MIN / -1]
    apart. *)
Lemma quot_in_int_all a b :
  INT_MIN <= a <= INT_MAX -> b <> 0 -> (a = INT_MIN -> b <> -1) ->
  INT_MIN <= Z.quot a b <= INT_MAX.
Proof.
  destruct int_bounds as [Hmin Hmax]. intros Ha Hb Hedge.
  destruct (Z.eq_dec a INT_MIN) as [Hmin'|Hne].
  - pose proof (quot_rem_abs a b Hb) as Hsplit.
    pose proof (Z.abs_nonneg (Z.rem a b)).
    destruct (Z.eq_dec b 1) as [->|Hb1]; [rewrite Z.quot_1_r; lia|].
    specialize (Hedge Hmin').
    assert (2 <= Z.abs b) by lia.
    assert (2 * Z.abs (Z.quot a b) <= Z.abs a) by nia.
    lia.
  - apply quot_in_int; lia.
Qed.

Lemma int_rem_all a b :
  INT_MIN <= a <= INT_MAX -> b <> 0 -> (a = INT_MIN -> b <> -1) ->
  int_rem a b = Ok (Z.rem a b).
Proof.
  intros Ha Hb Hedge. unfold int_rem.
  destruct (Z.eqb_spec b 0) as [|_]; [contradiction|].
  rewrite at_int_ok by now apply quot_in_int_all. reflexivity.
Qed.

Lemma ll_rem_signed a b :
  - LLONG_MAX <= a <= LLONG_MAX -> b <> 0 -> ll_rem a b = Ok (Z.rem a b).
Proof.
  destruct llong_bounds as [Hmin Hmax]. intros Ha Hb. unfold ll_rem.
  destruct (Z.eqb_spec b 0) as [|_]; [contradiction|].
  rewrite at_llong_ok; [reflexivity|].
  pose proof (quot_rem_abs a b Hb) as Hsplit.
  pose proof (Z.abs_nonneg (Z.rem a b)).
  assert (Z.abs (Z.quot a b) <= Z.abs a) by nia.
  lia.
Qed.

(** C's remainder is congruent to its dividend. *)
Lemma rem_congruent x m : m <> 0 -> Z.rem x m mod m = x mod m.
Proof.
  intros Hm. pose proof (Z.quot_rem' x m) as Hqr.
  replace (Z.rem x m) with (x + - Z.quot x m * m) by lia.
  apply Z.mod_add. exact Hm.
Qed.

Lemma power_loop_signed fuel : forall res b expo m,
  1 <= m <= INT_MAX -> Z.abs res <= m -> Z.abs b < m -> 0 <= expo ->
  (0 < expo -> Z.log2 expo < Z.of_nat fuel) ->
  exists r,
    power_loop fuel res b expo m = Ok r /\
    (expo = 0 -> r = res) /\ (0 < expo -> Z.abs r < m) /\
    r mod m = (res * b ^ expo) mod m.
Proof.
  destruct int_bounds as [_ Hmax]. destruct llong_bounds as [Hlmin Hlmax].
  induction fuel as [|fuel IH]; intros res b expo m Hm Hres Hb He Hfuel.
  - pose proof (Z.log2_nonneg expo). assert (expo = 0) by lia. subst expo.
    exists res. cbn [power_loop Z.ltb Z.compare]. rewrite Z.pow_0_r, Z.mul_1_r.
    repeat split; auto; lia.
  - cbn [power_loop]. destruct (Z.ltb_spec 0 expo) as [Hpos|Hzero].
    + assert (Hrb : Z.abs (res * b) <= 2147483647 * 2147483647)
        by (rewrite Z.abs_mul; nia).
      assert (Hbb : Z.abs (b * b) <= 2147483647 * 2147483647)
        by (rewrite Z.abs_mul; nia).
      set (res' := if Z.land expo 1 =? 0 then res else Z.rem (res * b) m).
      assert (Hres' : (if Z.land expo 1 =? 0 then Ok res
                       else p <- ll_mul res b ;; ll_rem p m) = Ok res').
      { unfold res'. destruct (Z.land expo 1 =? 0); [reflexivity|].
        unfold ll_mul. rewrite at_llong_ok by lia. cbn [bind].
        apply ll_rem_signed; lia. }
      rewrite Hres'. cbn [bind].
      unfold ll_mul. rewrite at_llong_ok by lia. cbn [bind].
      rewrite ll_rem_signed by lia. cbn [bind].
      rewrite Z.quot_div_nonneg by lia.
      pose proof (Z.rem_bound_abs (res * b) m ltac:(lia)) as Hr1.
      pose proof (Z.rem_bound_abs (b * b) m ltac:(lia)) as Hr2.
      assert (Hh : 0 <= expo / 2) by (apply Z.div_pos; lia).
      destruct (IH res' (Z.rem (b * b) m) (expo / 2) m)
        as (r & Hrun & Hstop & Hsmall & Hcong); try lia.
      { unfold res'. destruct (Z.land expo 1 =? 0); lia. }
      { intros Hhalf. specialize (Hfuel Hpos).
        assert (1 < expo)
          by (destruct (Z.eq_dec expo 1) as [->|]; [discriminate|lia]).
        rewrite log2_half by lia. lia. }
      exists r. split; [exact Hrun|]. split; [lia|].
      pose proof (Z.div_mod expo 2 ltac:(lia)) as Hdm.
      pose proof (Z.mod_pos_bound expo 2 ltac:(lia)) as Hbit.
      assert (Hsq : Z.rem (b * b) m ^ (expo / 2) mod m
                    = b ^ (2 * (expo / 2)) mod m).
      { rewrite <- Z.mod_pow_l, rem_congruent, Z.mod_pow_l by lia.
        rewrite Z.pow_mul_r by lia. now rewrite Z.pow_2_r. }
      split.
      * intros _. destruct (Z.eq_dec (expo / 2) 0) as [Hz|Hnz].
        -- rewrite (Hstop Hz). unfold res'. rewrite land_1_parity by lia.
           destruct (Z.eqb_spec (expo mod 2) 0); lia.
        -- apply Hsmall. lia.
      * rewrite Hcong. rewrite <- Z.mul_mod_idemp_r, Hsq by lia.
        unfold res'. rewrite land_1_parity by lia.
        destruct (Z.eqb_spec (expo mod 2) 0) as [Hev|Hodd].
        -- rewrite Z.mul_mod_idemp_r by lia.
           now replace (2 * (expo / 2)) with expo by lia.
        -- rewrite <- Z.mul_mod_idemp_l, rem_congruent by lia.
           rewrite Z.mul_mod_idemp_l, Z.mul_mod_idemp_r by lia.
           f_equal. replace expo with (1 + 2 * (expo / 2)) at 2 by lia.
           rewrite Z.pow_add_r, Z.pow_1_r by lia. ring.
    + assert (expo = 0) by lia. subst expo. exists res.
      rewrite Z.pow_0_r, Z.mul_1_r. repeat split; auto; lia.
Qed.

Lemma power_signed_run base expo m :
  INT_MIN <= base <= INT_MAX -> 1 <= expo <= INT_MAX -> 1 <= m <= INT_MAX ->
  exists r, power base expo m = Ok r /\ - m < r < m /\
            r mod m = base ^ expo mod m.
Proof.
  destruct int_bounds as [Hmin Hmax]. intros Hbase Hexpo Hm.
  pose proof (Z.rem_bound_abs base m ltac:(lia)) as Hb.
  destruct (power_loop_signed (power_fuel expo) 1 (Z.rem base m) expo m)
    as (r & Hrun & _ & Hsmall & Hcong); try lia.
  { intros _. unfold power_fuel. pose proof (Z.log2_nonneg expo). lia. }
  specialize (Hsmall ltac:(lia)).
  exists r. split; [|split; [lia|]].
  - unfold power. rewrite int_rem_all by lia. cbn [bind].
    rewrite Hrun. cbn [bind]. now rewrite to_int_id by lia.
  - rewrite Hcong, Z.mul_1_l, <- Z.mod_pow_l, rem_congruent by lia.
    apply Z.mod_pow_l.
Qed.

End PowerSigned.

(** X3.  With an exponent [<= 0] the loop of [power] never runs: for every
    [int] base and every [int] modulus other than [0] (the undefined
    [INT_MIN % -1] apart) the function returns [1], and no error is
    signalled for the negative exponent. *)
Theorem power_nonpositive_exponent base expo m :
  INT_MIN <= base <= INT_MAX -> m <> 0 -> (base = INT_MIN -> m <> -1) ->
  expo <= 0 -> power base expo m = Ok 1.
Proof.
  intros Hbase Hm Hedge Hexpo. unfold power.
  rewrite int_rem_all by assumption. cbn [bind].
  unfold power_fuel. cbn [power_loop].
  destruct (Z.ltb_spec 0 expo) as [|_]; [lia|reflexivity].
Qed.

Lemma power_nonpositive_exponent_witness : power 2 (-1) 6 = Ok 1.
Proof.
  apply (power_nonpositive_exponent 2 (-1) 6); unfold INT_MIN, INT_MAX; lia.
Defined.

(** X4.  For every [int] base, also a negative one, an exponent [>= 1] and
    a modulus [1 <= m <= INT_MAX], [power] returns without overflow a value
    [r] congruent to [base ^ expo] modulo [m] with [-m < r < m]: C's [%]
    truncates, so [r] is not always reduced into [[0, m)]. *)
Theorem power_any_base base expo m :
  INT_MIN <= base <= INT_MAX -> 1 <= expo <= INT_MAX -> 1 <= m <= INT_MAX ->
  exists r, power base expo m = Ok r /\ - m < r < m /\
            r mod m = base ^ expo mod m.
Proof. exact (power_signed_run base expo m). Qed.

Lemma power_any_base_witness :
  exists r, power (-7) 3 5 = Ok r /\ - 5 < r < 5 /\
            r mod 5 = (-7) ^ 3 mod 5.
Proof.
  apply (power_any_base (-7) 3 5); unfold INT_MIN, INT_MAX; lia.
Defined.

(** ** [modInverse] against [gcdExtended], and on exponents [<= 0] *)

Section ModInverseMore.

(** An inverse modulo [t] is unique among the residues. *)
Lemma inverse_unique e t d1 d2 :
  1 < t -> 0 <= d1 < t -> 0 <= d2 < t ->
  (e * d1) mod t = 1 -> (e * d2) mod t = 1 -> d1 = d2.
Proof.
  intros Ht H1 H2 Hinv1 Hinv2.
  assert (Hchain : (d1 * (e * d2)) mod t = (d2 * (e * d1)) mod t)
    by (f_equal; ring).
  rewrite <- (Z.mul_mod_idemp_r d1), <- (Z.mul_mod_idemp_r d2) in Hchain by lia.
  rewrite Hinv1, Hinv2, !Z.mul_1_r, !Z.mod_small in Hchain by lia.
  exact Hchain.
Qed.

Lemma modInverse_is_bezout_coefficient e totient :
  1 < totient <= INT_MAX -> 0 <= e -> e * (totient - 1) <= INT_MAX ->
  Z.gcd e totient = 1 -> e mod totient <> 1 ->
  exists x y,
    gcdExtended e totient = Ok (1, x, y) /\
    modInverse e totient = Ok (x mod totient).
Proof.
  intros Ht He Hprod Hgcd Hne.
  assert (HeMax : e <= INT_MAX) by nia.
  destruct (gcdExtended_total e totient ltac:(lia) ltac:(lia))
    as (g & x & y & Hrun).
  destruct (gcdExtended_rec_sound _ _ _ _ _ _ Hrun) as [Hbez Hg].
  pose proof (gcdExtended_rec_nonneg _ _ _ _ _ _ Hrun ltac:(lia) ltac:(lia)).
  assert (Hg1 : g = 1) by lia. rewrite Hg1 in Hrun, Hbez. clear Hg1 Hg.
  exists x, y. split; [exact Hrun|].
  destruct (modInverse_scan e totient Ht He Hprod)
    as [(d & Hd & Hdr & Hinv & _)|[_ [Hbad|Hbad]]]; try contradiction.
  rewrite Hd. f_equal.
  apply (inverse_unique e totient); try lia; try exact Hinv.
  - apply Z.mod_pos_bound. lia.
  - rewrite Z.mul_mod_idemp_r by lia.
    replace (e * x) with (1 + - y * totient) by lia.
    rewrite Z.mod_add by lia. apply Z.mod_small. lia.
Qed.

(** With [e <= 0] no product [e * d] leaves a positive remainder. *)
Lemma modInverse_loop_nonpositive fuel : forall e totient d,
  e <= 0 -> 2 <= d -> totient <= INT_MAX -> INT_MIN <= e * (totient - 1) ->
  totient - d <= Z.of_nat fuel ->
  modInverse_loop fuel e totient d = Ok (-1).
Proof.
  destruct int_bounds as [Hmin Hmax].
  induction fuel as [|fuel IH]; intros e totient d He Hd Ht Hprod Hfuel;
    cbn [modInverse_loop]; destruct (Z.ltb_spec d totient) as [Hlt|Hge];
    try reflexivity; [lia|].
  assert (Hed : INT_MIN <= e * d <= 0) by nia.
  unfold int_mul. rewrite at_int_ok by lia. cbn [bind].
  rewrite int_rem_all by lia. cbn [bind].
  pose proof (Z.rem_nonpos (e * d) totient ltac:(lia) ltac:(lia)) as Hrem.
  destruct (Z.eqb_spec (Z.rem (e * d) totient) 1) as [Hone|_]; [lia|].
  unfold int_add. rewrite at_int_ok by lia. cbn [bind].
  apply IH; lia.
Qed.

End ModInverseMore.

(** X5.  The scan of [modInverse] and the extended Euclidean algorithm
    agree: for [e >= 0] coprime to [totient], not congruent to [1], with
    products inside [int], [gcdExtended e totient] returns [(1, x, y)] and
    [modInverse e totient] returns [x] reduced modulo [totient]. *)
Theorem modInverse_agrees_with_gcdExtended e totient :
  1 < totient <= INT_MAX -> 0 <= e -> e * (totient - 1) <= INT_MAX ->
  Z.gcd e totient = 1 -> e mod totient <> 1 ->
  exists x y,
    gcdExtended e totient = Ok (1, x, y) /\
    modInverse e totient = Ok (x mod totient).
Proof. exact (modInverse_is_bezout_coefficient e totient). Qed.

Lemma modInverse_agrees_with_gcdExtended_witness :
  exists x y,
    gcdExtended 7 40 = Ok (1, x, y) /\ modInverse 7 40 = Ok (x mod 40).
Proof.
  apply (modInverse_agrees_with_gcdExtended 7 40);
    try (unfold INT_MAX; lia); [reflexivity|discriminate].
Defined.



(** ** The key pair *)

Section KeyPair.

(** What [main] derives from [p], [q] and [e]: a private exponent that
    inverts [e] modulo the totient. *)
Lemma rsa_private_exponent p q e :
  Z.prime p -> Z.prime q -> p <> q -> p * q <= INT_MAX ->
  0 <= e -> Z.gcd e ((p - 1) * (q - 1)) = 1 ->
  e mod ((p - 1) * (q - 1)) <> 1 ->
  e * ((p - 1) * (q - 1) - 1) <= INT_MAX ->
  exists d,
    modInverse e ((p - 1) * (q - 1)) = Ok d /\
    2 <= d < (p - 1) * (q - 1) /\ (e * d) mod ((p - 1) * (q - 1)) = 1 /\
    1 <= e <= INT_MAX /\ (p - 1) * (q - 1) < p * q.
Proof.
  intros Hp Hq Hne Hn He Hgcd Hne1 Hprod.
  pose proof (Z.prime_ge_2 p Hp) as Hp2. pose proof (Z.prime_ge_2 q Hq) as Hq2.
  set (t := (p - 1) * (q - 1)) in *.
  assert (Ht : 1 < t < p * q) by (unfold t; nia).
  assert (He1 : 1 <= e).
  { destruct (Z.eq_dec e 0) as [->|]; [|lia].
    rewrite Z.gcd_0_l in Hgcd. lia. }
  destruct (modInverse_scan e t ltac:(lia) He Hprod)
    as [(d & Hd & Hdr & Hinv & _)|[_ [Hbad|Hbad]]]; try contradiction.
  exists d. repeat split; try lia; auto. nia.
Qed.

End KeyPair.

(** X7.  Encrypting after decrypting is the identity as well (sign, then
    verify): under the conditions of the round trip, with
    [d = modInverse e totient], [encrypt (decrypt c d n) e n] is [c] for
    every [0 <= c < n]. *)
Theorem rsa_decrypt_then_encrypt p q e c :
  Z.prime p -> Z.prime q -> p <> q -> p * q <= INT_MAX ->
  0 <= e -> Z.gcd e ((p - 1) * (q - 1)) = 1 ->
  e mod ((p - 1) * (q - 1)) <> 1 ->
  e * ((p - 1) * (q - 1) - 1) <= INT_MAX ->
  0 <= c < p * q ->
  exists d s,
    modInverse e ((p - 1) * (q - 1)) = Ok d /\
    decrypt c d (p * q) = Ok s /\ encrypt s e (p * q) = Ok c.
Proof.
  intros Hp Hq Hne Hn He Hgcd Hne1 Hprod Hc.
  destruct (rsa_private_exponent p q e Hp Hq Hne Hn He Hgcd Hne1 Hprod)
    as (d & Hd & Hdr & Hinv & He1 & Ht).
  destruct int_bounds as [Hmin Hmax].
  pose proof (Z.prime_ge_2 p Hp) as Hp2. pose proof (Z.prime_ge_2 q Hq) as Hq2.
  destruct (power_exact c d (p * q)) as (s & _ & Hs & _ & Hdec & Hsv);
    try lia.
  destruct (power_exact s e (p * q)) as (c' & _ & _ & _ & Henc & Hcv);
    try lia.
  assert (Hback : c' = c).
  { rewrite Hcv, Hsv, Z.mod_pow_l, <- Z.pow_mul_r by lia.
    apply (rsa_exponent_identity p q d e c); auto; try lia.
    now rewrite Z.mul_comm. }
  rewrite Hback in Henc. exists d, s.
  split; [exact Hd|]. split; [exact Hdec|exact Henc].
Qed.

Lemma rsa_decrypt_then_encrypt_witness :
  exists d s,
    modInverse 3 ((3 - 1) * (5 - 1)) = Ok d /\
    decrypt 7 d (3 * 5) = Ok s /\ encrypt s 3 (3 * 5) = Ok 7.
Proof.
  apply (rsa_decrypt_then_encrypt 3 5 3 7);
    try (apply prime_by_trial_sound; reflexivity);
    try (unfold INT_MAX; simpl; lia); try reflexivity; discriminate.
Defined.

(** X8.  Under the conditions of the round trip [encrypt] is injective on
    the messages [0 <= m < n]: distinct messages have distinct
    ciphertexts. *)
Theorem encrypt_injective p q e m1 m2 :
  Z.prime p -> Z.prime q -> p <> q -> p * q <= INT_MAX ->
  0 <= e -> Z.gcd e ((p - 1) * (q - 1)) = 1 ->
  e mod ((p - 1) * (q - 1)) <> 1 ->
  e * ((p - 1) * (q - 1) - 1) <= INT_MAX ->
  0 <= m1 < p * q -> 0 <= m2 < p * q -> m1 <> m2 ->
  encrypt m1 e (p * q) <> encrypt m2 e (p * q).
Proof.
  intros Hp Hq Hne Hn He Hgcd Hne1 Hprod Hm1 Hm2 Hdiff Hsame. apply Hdiff.
  destruct (rsa_private_exponent p q e Hp Hq Hne Hn He Hgcd Hne1 Hprod)
    as (d & Hd & Hdr & Hinv & He1 & Ht).
  destruct (power_exact m1 e (p * q)) as (c1 & _ & _ & _ & Henc1 & Hc1);
    try lia.
  destruct (power_exact m2 e (p * q)) as (c2 & _ & _ & _ & Henc2 & Hc2);
    try lia.
  unfold encrypt in Hsame. rewrite Henc1, Henc2 in Hsame.
  injection Hsame as Hcc.
  rewrite <- (rsa_exponent_identity p q e d m1), <- (rsa_exponent_identity p q e d m2);
    auto; try lia.
  rewrite !Z.pow_mul_r by lia.
  rewrite <- (Z.mod_pow_l (m1 ^ e)), <- (Z.mod_pow_l (m2 ^ e)).
  now rewrite <- Hc1, <- Hc2, Hcc.
Qed.

Lemma encrypt_injective_witness : encrypt 2 3 (3 * 5) <> encrypt 3 3 (3 * 5).
Proof.
  apply (encrypt_injective 3 5 3 2 3);
    try (apply prime_by_trial_sound; reflexivity);
    try (unfold INT_MAX; simpl; lia); try reflexivity; discriminate.
Defined.

(** ** [modInverse] beyond the range of [int] *)

Section ModInverseOverflow.

Lemma at_int_above x : INT_MAX < x -> at_int x = Undef.
Proof.
  intros Hx. unfold at_int, at_type.
  destruct (Z.leb_spec x INT_MAX) as [Hle|_]; [lia|].
  now rewrite andb_false_r.
Qed.

(** A scan that finds no inverse runs into the first product [e * d] above
    [INT_MAX]. *)
Lemma modInverse_loop_overflow fuel : forall e totient d,
  0 <= e -> 0 <= d < totient -> totient <= INT_MAX ->
  INT_MAX < e * (totient - 1) ->
  (forall c, d <= c -> (e * c) mod totient <> 1) ->
  totient - d <= Z.of_nat fuel ->
  modInverse_loop fuel e totient d = Undef.
Proof.
  destruct int_bounds as [Hmin Hmax].
  induction fuel as [|fuel IH]; intros e totient d He Hd Ht Hover Hnone Hfuel;
    [lia|].
  cbn [modInverse_loop]. destruct (Z.ltb_spec d totient) as [_|Hge]; [|lia].
  unfold int_mul.
  destruct (Z_le_gt_dec (e * d) INT_MAX) as [Hfits|Hbig].
  - rewrite at_int_ok by nia. cbn [bind].
    rewrite int_rem_nonneg by nia. cbn [bind].
    destruct (Z.eqb_spec ((e * d) mod totient) 1) as [Hone|_].
    + exfalso. apply (Hnone d); [lia|exact Hone].
    + unfold int_add. rewrite at_int_ok by lia. cbn [bind].
      assert (d + 1 < totient).
      { destruct (Z.eq_dec (d + 1) totient) as [E|]; [|lia].
        replace (totient - 1) with d in Hover by lia. lia. }
      apply IH; try lia. intros c Hc. apply Hnone. lia.
  - now rewrite at_int_above by lia.
Qed.

Lemma no_inverse_without_coprimality e totient c :
  1 < totient -> Z.gcd e totient <> 1 -> (e * c) mod totient <> 1.
Proof.
  intros Ht Hgcd Hone. apply Hgcd.
  apply Z.coprime_Bezout. exists c, (- (e * c / totient)).
  pose proof (Z.div_mod (e * c) totient ltac:(lia)). lia.
Qed.

Lemma modInverse_undefined e totient :
  0 <= e -> 2 < totient <= INT_MAX -> INT_MAX < e * (totient - 1) ->
  Z.gcd e totient <> 1 ->
  modInverse e totient = Undef.
Proof.
  intros He Ht Hover Hgcd. unfold modInverse.
  apply modInverse_loop_overflow; try lia.
  intros c _ Hone. apply Hgcd.
  apply Z.coprime_Bezout. exists c, (- (e * c / totient)).
  pose proof (Z.div_mod (e * c) totient ltac:(lia)). lia.
Qed.

End ModInverseOverflow.

Section ModInverseOverflowAt.

(** Where the scan of [modInverse] overflows: at the least [d] whose product
    [e * d] is above [INT_MAX]. *)
Lemma first_overflow e totient :
  0 <= e <= INT_MAX -> INT_MAX < e * (totient - 1) ->
  exists d,
    2 <= d < totient /\ INT_MAX < e * d /\
    forall c, 2 <= c < d -> e * c <= INT_MAX.
Proof.
  destruct int_bounds as [_ Hmax]. intros He Hover.
  assert (He0 : 0 < e).
  { destruct (Z.eq_dec e 0) as [->|]; [rewrite Z.mul_0_l in Hover|]; lia. }
  exists (INT_MAX / e + 1).
  pose proof (Z.mul_div_le INT_MAX e He0) as Hlow.
  pose proof (Z.mul_succ_div_gt INT_MAX e He0) as Hup.
  assert (1 <= INT_MAX / e) by (apply Z.div_le_lower_bound; lia).
  split; [|split].
  - split; [lia|]. nia.
  - lia.
  - intros c Hc. nia.
Qed.

End ModInverseOverflowAt.

(** X22.  Where [e] has no inverse modulo [totient] and
    [e * (totient - 1)] is above [INT_MAX], the scan of [modInverse] does
    not come to its end: it finds no inverse up to the first [d] whose
    product [e * d] is above [INT_MAX], and computing that product is a
    signed overflow, for which C defines no result. *)
Theorem modInverse_overflow e totient :
  0 <= e <= INT_MAX -> 2 < totient <= INT_MAX ->
  INT_MAX < e * (totient - 1) -> Z.gcd e totient <> 1 ->
  modInverse e totient = Undef /\
  exists d,
    2 <= d < totient /\ INT_MAX < e * d /\
    forall c, 2 <= c < d -> e * c <= INT_MAX /\ (e * c) mod totient <> 1.
Proof.
  intros He Ht Hover Hgcd.
  split; [apply modInverse_undefined; tauto|].
  destruct (first_overflow e totient He Hover) as (d & Hd & Hbig & Hfits).
  exists d. split; [exact Hd|]. split; [exact Hbig|].
  intros c Hc. split; [now apply Hfits|].
  apply no_inverse_without_coprimality; [lia|exact Hgcd].
Qed.

Lemma modInverse_overflow_witness :
  modInverse 65536 65536 = Undef /\
  exists d,
    2 <= d < 65536 /\ INT_MAX < 65536 * d /\
    forall c, 2 <= c < d ->
              65536 * c <= INT_MAX /\ (65536 * c) mod 65536 <> 1.
Proof.
  apply (modInverse_overflow 65536 65536); try (unfold INT_MAX; lia).
  vm_compute. discriminate.
Defined.

(** * Further properties of diffie-hellman.c *)

(** ** What the primitive-root test decides *)

Section PrimitiveRoots.

(** For a unit [g] modulo the prime [p], the criterion on the prime factors
    of [p - 1] says that no power of [g] below the [(p - 1)]-th is [1]. *)
Lemma criterion_iff_order p factors g :
  Z.prime p -> (forall q, In q factors <-> Z.prime q /\ (q | p - 1)) ->
  g mod p <> 0 ->
  (generator_criterion g p factors <->
   forall k, 0 < k < p - 1 -> g ^ k mod p <> 1).
Proof.
  intros Hp Hfactors Hunit. pose proof (Z.prime_ge_2 p Hp) as Hge. split.
  - intros Hcrit k Hk Hone.
    pose proof (Z.fermat_nz p g Hp Hunit) as Hfermat.
    pose proof (pow_mod_one_gcd p g ltac:(lia) (p - 1) ltac:(lia)
                  k ltac:(lia) Hone Hfermat) as Hd.
    set (d := Z.gcd k (p - 1)) in *.
    assert (Hdk : (d | k)) by apply Z.gcd_divide_l.
    assert (Hdp : (d | p - 1)) by apply Z.gcd_divide_r.
    assert (Hd0 : 0 <= d) by apply Z.gcd_nonneg.
    apply Z.divide_pos_le in Hdk; [|lia].
    destruct Hdp as [m Hm].
    assert (Hm2 : 2 <= m) by nia.
    destruct (prime_divisor m Hm2) as (q & Hq & [m' Hm']).
    pose proof (Z.prime_ge_2 q Hq) as Hq2.
    assert (Hin : In q factors).
    { apply Hfactors. split; [exact Hq|]. exists (m' * d). nia. }
    apply (Hcrit q Hin).
    replace ((p - 1) / q) with (d * m').
    + assert (0 <= m') by nia.
      rewrite Z.pow_mul_r, <- Z.mod_pow_l, Hd, Z.pow_1_l by lia.
      apply Z.mod_small. lia.
    + apply Z.div_unique_exact; [lia|]. nia.
  - intros Horder q Hq. destruct (proj1 (Hfactors q) Hq) as [Hqp [k Hk]].
    pose proof (Z.prime_ge_2 q Hqp) as Hq2.
    rewrite Hk, Z.div_mul by lia. apply Horder. nia.
Qed.

Lemma is_generator_zero_or_one g p factors k :
  0 < p -> is_generator g p factors k = 0 \/ is_generator g p factors k = 1.
Proof.
  intros Hp. unfold is_generator.
  now apply is_generator_loop_criterion.
Qed.

Lemma is_generator_iff_primitive_root p factors g :
  Z.prime p -> (forall q, In q factors <-> Z.prime q /\ (q | p - 1)) ->
  g mod p <> 0 ->
  (is_generator g p factors (length factors) = 1 <-> primitive_root g p).
Proof.
  intros Hp Hfactors Hunit. pose proof (Z.prime_ge_2 p Hp) as Hge.
  unfold primitive_root. split.
  - intros E. split; [exact Hunit|].
    apply (criterion_iff_order p factors g Hp Hfactors Hunit).
    apply (is_generator_criterion g p factors); [lia|].
    rewrite E. discriminate.
  - intros [_ Horder].
    apply (criterion_iff_order p factors g Hp Hfactors Hunit) in Horder.
    apply (is_generator_criterion g p factors) in Horder; [|lia].
    destruct (is_generator_zero_or_one g p factors (length factors))
      as [E|E]; [lia|contradiction|exact E].
Qed.

(** The factors handed to the safe-prime test are the prime factors of
    [P - 1 = 2 * r]. *)
Lemma safe_prime_factors r q :
  Z.prime r -> (In q [2; r] <-> Z.prime q /\ (q | 2 * r + 1 - 1)).
Proof.
  intros Hr. replace (2 * r + 1 - 1) with (2 * r) by lia. split.
  - intros [<-|[<-|[]]].
    + split; [exact Z.prime_2|]. exists r. lia.
    + split; [exact Hr|]. exists 2. lia.
  - intros [Hq Hdiv]. apply Z.divide_prime_mul in Hdiv; [|exact Hq].
    destruct Hdiv as [Hdiv|Hdiv].
    + left. symmetry. now apply Z.divide_prime_prime; [|exact Z.prime_2|].
    + right; left. symmetry. now apply Z.divide_prime_prime.
Qed.

End PrimitiveRoots.

(** X9.  For a prime [p], [factors] the prime factors of [p - 1] and a
    candidate [g] not divisible by [p], [is_generator] returns [1] exactly
    when [g] is a primitive root modulo [p]: no power [g ^ k] with
    [0 < k < p - 1] is [1] modulo [p]. *)
Theorem is_generator_decides_primitive_root p factors g :
  Z.prime p -> distinct_prime_factors (p - 1) factors -> g mod p <> 0 ->
  (is_generator g p factors (length factors) = 1 <-> primitive_root g p).
Proof.
  intros Hp [_ Hfactors]. now apply is_generator_iff_primitive_root.
Qed.

Lemma is_generator_decides_primitive_root_witness :
  is_generator 5 23 [2; 11] (length [2; 11]) = 1 <-> primitive_root 5 23.
Proof.
  apply (is_generator_decides_primitive_root 23 [2; 11] 5).
  - apply prime_by_trial_sound. reflexivity.
  - exact distinct_prime_factors_22.
  - discriminate.
Defined.

(** X10.  For a safe prime [P = 2 * r + 1] ([P] and [r] prime) and a
    candidate [g] not divisible by [P], [is_generator_safe_prime] returns
    [1] exactly when [g] is a primitive root modulo [P]. *)
Theorem is_generator_safe_prime_decides_primitive_root P r g :
  Z.prime P -> Z.prime r -> P = 2 * r + 1 -> g mod P <> 0 ->
  (is_generator_safe_prime g P r = 1 <-> primitive_root g P).
Proof.
  intros HP Hr -> Hunit.
  rewrite is_generator_safe_prime_generic.
  apply (is_generator_iff_primitive_root (2 * r + 1) [2; r] g HP); [|exact Hunit].
  intros q. now apply safe_prime_factors.
Qed.

Lemma is_generator_safe_prime_decides_primitive_root_witness :
  is_generator_safe_prime 5 23 11 = 1 <-> primitive_root 5 23.
Proof.
  apply (is_generator_safe_prime_decides_primitive_root 23 11 5);
    try (apply prime_by_trial_sound; reflexivity);
    [reflexivity|discriminate].
Defined.

(** X11.  Both tests accept every multiple of [p], which is no primitive
    root: its powers are [0], not [1], modulo [p].  With such an [alpha]
    and private exponents [>= 1], every value of the exchange is [0]. *)
Theorem is_generator_accepts_multiples p factors j XA XB :
  Z.prime p -> distinct_prime_factors (p - 1) factors ->
  1 <= XA -> 1 <= XB ->
  is_generator (j * p) p factors (length factors) = 1 /\
  ~ primitive_root (j * p) p /\
  dh_exchange (j * p) XA XB p = (0, 0, 0, 0).
Proof.
  intros Hp [_ Hfactors] HXA HXB. pose proof (Z.prime_ge_2 p Hp) as Hge.
  assert (Hzero : forall X, 1 <= X -> mpz_powm (j * p) X p = 0).
  { intros X HX. rewrite mpz_powm_pos by lia.
    replace X with (Z.succ (X - 1)) by lia. rewrite Z.pow_succ_r by lia.
    replace (j * p * (j * p) ^ (X - 1)) with (j * (j * p) ^ (X - 1) * p) by ring.
    apply Z.mod_mul. lia. }
  assert (Hzero' : forall X, 1 <= X -> mpz_powm 0 X p = 0).
  { intros X HX. rewrite mpz_powm_pos by lia.
    rewrite Z.pow_0_l by lia. apply Z.mod_0_l. lia. }
  split; [|split].
  - assert (Hcrit : generator_criterion (j * p) p factors).
    { apply multiple_satisfies_criterion; [exact Hp|].
      intros q Hq. now apply Hfactors. }
    apply (is_generator_criterion (j * p) p factors) in Hcrit; [|lia].
    destruct (is_generator_zero_or_one (j * p) p factors (length factors));
      [lia|contradiction|assumption].
  - intros [Hunit _]. apply Hunit. apply Z.mod_mul. lia.
  - unfold dh_exchange. now rewrite !Hzero, !Hzero' by assumption.
Qed.

Lemma is_generator_accepts_multiples_witness :
  is_generator (1 * 23) 23 [2; 11] (length [2; 11]) = 1 /\
  ~ primitive_root (1 * 23) 23 /\
  dh_exchange (1 * 23) 6 15 23 = (0, 0, 0, 0).
Proof.
  apply (is_generator_accepts_multiples 23 [2; 11] 1 6 15); try lia.
  - apply prime_by_trial_sound. reflexivity.
  - exact distinct_prime_factors_22.
Defined.

(** X12.  For a prime [p], the prime factors of [p - 1] and a start with
    [start + p <= 2^64], the search returns within [p] candidates: the
    generator it returns is below [start + p]. *)
Theorem find_generator_within_p p factors start :
  Z.prime p -> distinct_prime_factors (p - 1) factors ->
  0 <= start -> start + p <= ULONG_MAX + 1 ->
  exists g,
    returns (fun fuel => find_generator fuel p factors (length factors) start) g /\
    start <= g < start + p.
Proof.
  intros Hp [_ Hfactors] Hstart Hroom. pose proof (Z.prime_ge_2 p Hp) as Hge.
  set (g0 := (start + p - 1) / p * p).
  assert (Hg0 : start <= g0 < start + p).
  { unfold g0. pose proof (Z.div_mod (start + p - 1) p ltac:(lia)) as Hdm.
    pose proof (Z.mod_pos_bound (start + p - 1) p ltac:(lia)). lia. }
  set (test := fun alpha => is_generator alpha p factors (length factors)).
  destruct (generator_search_least test (S (Z.to_nat (g0 - start))) start g0)
    as (g & Hrun & Hg & _); try lia.
  { unfold test. apply is_generator_criterion; [lia|].
    apply multiple_satisfies_criterion; [exact Hp|].
    intros q Hq. now apply Hfactors. }
  exists g. split; [eexists; exact Hrun|lia].
Qed.

Lemma find_generator_within_p_witness :
  exists g,
    returns (fun fuel => find_generator fuel 23 [2; 11] (length [2; 11]) 22) g /\
    22 <= g < 22 + 23.
Proof.
  apply (find_generator_within_p 23 [2; 11] 22); try (unfold ULONG_MAX; lia).
  - apply prime_by_trial_sound. reflexivity.
  - exact distinct_prime_factors_22.
Defined.

(** X13.  The shared secret of the exchange is [alpha ^ (XA * XB)] reduced
    modulo [P], and every exchanged value lies in [[0, P)]. *)
Theorem dh_exchange_values alpha XA XB P :
  0 < P -> 0 <= XA -> 0 <= XB ->
  exists YA YB S,
    dh_exchange alpha XA XB P = (YA, YB, S, S) /\
    S = alpha ^ (XA * XB) mod P /\
    0 <= YA < P /\ 0 <= YB < P /\ 0 <= S < P.
Proof.
  intros HP HXA HXB. unfold dh_exchange.
  exists (mpz_powm alpha XA P), (mpz_powm alpha XB P),
         (alpha ^ (XA * XB) mod P).
  rewrite !mpz_powm_pos by exact HP.
  rewrite !Z.mod_pow_l, <- !Z.pow_mul_r by lia.
  rewrite (Z.mul_comm XB XA).
  repeat split; try apply Z.mod_pos_bound; lia.
Qed.

Lemma dh_exchange_values_witness :
  exists YA YB S,
    dh_exchange 5 6 15 23 = (YA, YB, S, S) /\
    S = 5 ^ (6 * 15) mod 23 /\
    0 <= YA < 23 /\ 0 <= YB < 23 /\ 0 <= S < 23.
Proof. apply (dh_exchange_values 5 6 15 23); lia. Defined.

(** ** More on [factor_distinct] *)

Section FactorizerMore.

(** *** More fuel never changes a result *)

Lemma divide_out_more fuel : forall n d n',
  divide_out fuel n d = Ok n' ->
  forall fuel', (fuel <= fuel')%nat -> divide_out fuel' n d = Ok n'.
Proof.
  induction fuel as [|fuel IH]; intros n d n' Hrun fuel' Hle;
    cbn [divide_out] in Hrun.
  - destruct fuel'; cbn [divide_out];
      destruct (mpz_divisible_ui_p n d); congruence.
  - destruct fuel' as [|fuel']; [lia|]. cbn [divide_out].
    destruct (mpz_divisible_ui_p n d); [|exact Hrun].
    apply (IH _ _ _ Hrun). lia.
Qed.

Lemma try_factor_more fuel n d factors v :
  try_factor fuel n d factors = Ok v ->
  forall fuel', (fuel <= fuel')%nat -> try_factor fuel' n d factors = Ok v.
Proof.
  unfold try_factor. intros Hrun fuel' Hle.
  destruct (mpz_divisible_ui_p n d); [|exact Hrun].
  apply bind_Ok_inv in Hrun. destruct Hrun as (n' & Hdiv & Hret).
  now rewrite (divide_out_more fuel n d n' Hdiv fuel' Hle).
Qed.

Lemma odd_trials_more fuel : forall n i factors v,
  odd_trials fuel n i factors = Ok v ->
  forall fuel', (fuel <= fuel')%nat -> odd_trials fuel' n i factors = Ok v.
Proof.
  induction fuel as [|fuel IH]; intros n i factors v Hrun fuel' Hle;
    cbn [odd_trials] in Hrun.
  - destruct fuel'; cbn [odd_trials]; destruct (1 <? n); congruence.
  - destruct fuel' as [|fuel']; [lia|]. cbn [odd_trials].
    destruct (1 <? n); [|exact Hrun].
    apply bind_Ok_inv in Hrun. destruct Hrun as ([n' factors'] & Htry & Hrest).
    rewrite (try_factor_more fuel n i factors _ Htry fuel') by lia.
    cbn [bind]. destruct (n' <? i * i); [exact Hrest|].
    apply (IH _ _ _ _ Hrest). lia.
Qed.

Lemma factor_distinct_more fuel n factors :
  factor_distinct fuel n = Ok factors ->
  forall fuel', (fuel <= fuel')%nat -> factor_distinct fuel' n = Ok factors.
Proof.
  unfold factor_distinct. intros Hrun fuel' Hle.
  apply bind_Ok_inv in Hrun. destruct Hrun as ([n1 factors1] & Htry & Hrun).
  apply bind_Ok_inv in Hrun. destruct Hrun as ([n2 factors2] & Hodd & Hret).
  rewrite (try_factor_more fuel n 2 [] _ Htry fuel' Hle). cbn [bind].
  rewrite (odd_trials_more fuel n1 3 factors1 _ Hodd fuel' Hle). exact Hret.
Qed.

Lemma factor_distinct_deterministic n factors factors' :
  returns (fun fuel => factor_distinct fuel n) factors ->
  returns (fun fuel => factor_distinct fuel n) factors' ->
  factors = factors'.
Proof.
  intros [f Hf] [f' Hf'].
  pose proof (factor_distinct_more f n factors Hf (Nat.max f f') ltac:(lia)) as E.
  pose proof (factor_distinct_more f' n factors' Hf' (Nat.max f f') ltac:(lia)) as E'.
  congruence.
Qed.

(** *** The order of the factors *)

Lemma sorted_snoc factors d :
  StronglySorted Z.lt factors -> (forall q, In q factors -> q < d) ->
  StronglySorted Z.lt (factors ++ [d]).
Proof.
  induction factors as [|q rest IH]; intros Hsorted Hbelow; cbn [app].
  - repeat constructor.
  - apply StronglySorted_inv in Hsorted. destruct Hsorted as [Hrest Hq].
    constructor.
    + apply IH; [exact Hrest|]. intros q' Hq'. apply Hbelow. now right.
    + apply Forall_app. split; [exact Hq|].
      constructor; [|constructor]. apply Hbelow. now left.
Qed.

(** What [divide_out] returns divides its argument and is no longer
    divisible by [d]. *)
Lemma divide_out_result fuel : forall n d n',
  d <> 0 -> divide_out fuel n d = Ok n' -> (n' | n) /\ ~ (d | n').
Proof.
  induction fuel as [|fuel IH]; intros n d n' Hd Hrun; cbn [divide_out] in Hrun;
    destruct (mpz_divisible_ui_p n d) eqn:Hdiv; try discriminate.
  - injection Hrun as <-. split; [apply Z.divide_refl|].
    intros Hdn. apply mpz_divisible_ui_p_spec in Hdn; congruence.
  - apply mpz_divisible_ui_p_spec in Hdiv; [|exact Hd].
    destruct (IH _ _ _ Hd Hrun) as [Hn' Hnd]. split; [|exact Hnd].
    apply (Z.divide_trans _ (mpz_divexact_ui n d)); [exact Hn'|].
    destruct Hdiv as [m ->]. unfold mpz_divexact_ui.
    rewrite Z.div_mul by exact Hd. exists d. ring.
  - injection Hrun as <-. split; [apply Z.divide_refl|].
    intros Hdn. apply mpz_divisible_ui_p_spec in Hdn; congruence.
Qed.

(** Dividing a positive [n] keeps it positive. *)
Lemma divide_out_positive fuel : forall n d n',
  1 <= d -> 1 <= n -> divide_out fuel n d = Ok n' -> 1 <= n'.
Proof.
  induction fuel as [|fuel IH]; intros n d n' Hd Hn Hrun;
    cbn [divide_out] in Hrun;
    destruct (mpz_divisible_ui_p n d) eqn:Hdiv; try discriminate;
    try (injection Hrun as <-; exact Hn).
  apply mpz_divisible_ui_p_spec in Hdiv; [|lia].
  destruct Hdiv as [j ->]. unfold mpz_divexact_ui in Hrun.
  rewrite Z.div_mul in Hrun by lia.
  apply (IH j d n'); [exact Hd|nia|exact Hrun].
Qed.

(** The part of the state that orders the factors: they are increasing and
    below the next trial divisor, under which [n] has no divisor. *)
Lemma try_factor_order fuel n d factors n' factors' :
  2 <= d -> 1 <= n ->
  StronglySorted Z.lt factors -> (forall q, In q factors -> q < d) ->
  (forall c, 2 <= c < d -> ~ (c | n)) ->
  try_factor fuel n d factors = Ok (n', factors') ->
  1 <= n' <= n /\
  StronglySorted Z.lt factors' /\ (forall q, In q factors' -> q < d + 1) /\
  (forall c, 2 <= c < d + 1 -> ~ (c | n')).
Proof.
  intros Hd Hn Hsorted Hbelow Hleast. unfold try_factor.
  destruct (mpz_divisible_ui_p n d) eqn:Hdiv; intros Hrun.
  - apply bind_Ok_inv in Hrun. destruct Hrun as (m & Hm & Hret).
    injection Hret as <- <-.
    destruct (divide_out_result fuel n d m ltac:(lia) Hm) as [Hmn Hdm].
    assert (Hm1 : 1 <= m <= n).
    { pose proof (divide_out_positive fuel n d m ltac:(lia) Hn Hm).
      split; [lia|]. apply Z.divide_pos_le; [lia|exact Hmn]. }
    split; [exact Hm1|]. split; [now apply sorted_snoc|]. split.
    + intros q Hq. apply in_app_or in Hq. destruct Hq as [Hq|[<-|[]]]; [|lia].
      specialize (Hbelow q Hq). lia.
    + intros c Hc Hcm. destruct (Z.eq_dec c d) as [->|Hne]; [contradiction|].
      apply (Hleast c); [lia|]. now apply (Z.divide_trans c m n).
  - injection Hrun as <- <-. split; [lia|]. split; [exact Hsorted|]. split.
    + intros q Hq. specialize (Hbelow q Hq). lia.
    + intros c Hc Hcn. destruct (Z.eq_dec c d) as [->|Hne].
      * apply mpz_divisible_ui_p_spec in Hcn; [congruence|lia].
      * apply (Hleast c); [lia|exact Hcn].
Qed.

Lemma odd_trials_order fuel : forall n i factors n' factors',
  1 <= n < ULONG_MAX * ULONG_MAX -> 3 <= i <= ULONG_MAX -> Z.odd i = true ->
  StronglySorted Z.lt factors -> (forall q, In q factors -> q < i) ->
  (forall c, 2 <= c < i -> ~ (c | n)) ->
  odd_trials fuel n i factors = Ok (n', factors') ->
  StronglySorted Z.lt factors' /\
  (1 < n' -> forall q, In q factors' -> q < n').
Proof.
  induction fuel as [|fuel IH];
    intros n i factors n' factors' Hn Hi Hodd Hsorted Hbelow Hleast Hrun;
    cbn [odd_trials] in Hrun;
    destruct (Z.ltb_spec 1 n) as [Hgt|Hle]; try discriminate;
    try (injection Hrun as <- <-; split; [exact Hsorted|intros; lia]).
  apply bind_Ok_inv in Hrun. destruct Hrun as ([m factors1] & Htry & Hrun).
  destruct (try_factor_order fuel n i factors m factors1
              ltac:(lia) ltac:(lia) Hsorted Hbelow Hleast Htry)
    as (Hm & Hsorted1 & Hbelow1 & Hleast1).
  destruct (Z.ltb_spec m (i * i)) as [Hbreak|Hcont].
  - injection Hrun as <- <-. split; [exact Hsorted1|].
    intros Hm1 q Hq. specialize (Hbelow1 q Hq).
    destruct (Z_lt_le_dec i m) as [|Hsmall]; [lia|].
    exfalso. apply (Hleast1 m); [lia|apply Z.divide_refl].
  - assert (Hu : 0 < ULONG_MAX) by reflexivity.
    assert (Hlt : i < ULONG_MAX).
    { destruct (Z_lt_le_dec i ULONG_MAX) as [|Hge]; [assumption|].
      assert (ULONG_MAX * ULONG_MAX <= i * i)
        by (apply Z.mul_le_mono_nonneg; lia).
      lia. }
    pose proof Hodd as Hodd'.
    apply Z.odd_spec in Hodd'. destruct Hodd' as [h Hh].
    assert (Hiu : i + 2 <= ULONG_MAX)
      by (change ULONG_MAX with 18446744073709551615 in *; lia).
    rewrite ulong_small in Hrun by lia.
    apply (IH m (i + 2) factors1 n' factors'); auto; try lia.
    + replace (i + 2) with (Z.succ (Z.succ i)) by lia.
      now rewrite Z.odd_succ_succ.
    + intros q Hq. specialize (Hbelow1 q Hq). lia.
    + intros c Hc Hcm. destruct (Z.eq_dec c (i + 1)) as [->|Hne].
      * apply (Hleast1 2); [lia|].
        apply (Z.divide_trans 2 (i + 1) m); [|exact Hcm]. exists (h + 1). lia.
      * apply (Hleast1 c); [lia|exact Hcm].
Qed.

Lemma factor_distinct_order fuel n factors :
  1 <= n < ULONG_MAX * ULONG_MAX ->
  factor_distinct fuel n = Ok factors -> StronglySorted Z.lt factors.
Proof.
  intros Hn Hrun. unfold factor_distinct in Hrun.
  apply bind_Ok_inv in Hrun. destruct Hrun as ([n1 factors1] & Htry & Hrun).
  apply bind_Ok_inv in Hrun. destruct Hrun as ([n2 factors2] & Hodd & Hret).
  injection Hret as <-.
  destruct (try_factor_order fuel n 2 [] n1 factors1)
    as (Hn1 & Hsorted1 & Hbelow1 & Hleast1); auto; try lia.
  { constructor. }
  { intros q []. }
  destruct (odd_trials_order fuel n1 3 factors1 n2 factors2)
    as [Hsorted2 Hbelow2]; auto; try lia.
  { unfold ULONG_MAX. lia. }
  destruct (Z.ltb_spec 1 n2) as [Hgt|_]; [|exact Hsorted2].
  apply sorted_snoc; auto.
Qed.

(** *** Arguments below [2] *)

Lemma divide_out_zero fuel : divide_out fuel 0 2 = OutOfFuel.
Proof. induction fuel as [|fuel IH]; cbn; [reflexivity|exact IH]. Qed.

Lemma divide_out_negative fuel : forall n,
  n < 0 -> Z.log2 (- n) < Z.of_nat fuel ->
  exists n', divide_out fuel n 2 = Ok n' /\ n' < 0.
Proof.
  induction fuel as [|fuel IH]; intros n Hn Hfuel.
  - pose proof (Z.log2_nonneg (- n)). lia.
  - cbn [divide_out]. destruct (mpz_divisible_ui_p n 2) eqn:Hdiv.
    + apply mpz_divisible_ui_p_spec in Hdiv; [|lia].
      destruct Hdiv as [m ->]. unfold mpz_divexact_ui.
      rewrite Z.div_mul by lia. apply IH; [lia|].
      assert (H2 : 2 * - m <= - (m * 2)) by lia.
      apply Z.log2_le_mono in H2. rewrite Z.log2_double in H2 by lia. lia.
    + exists n. auto.
Qed.

Lemma factor_distinct_below_two n :
  n <= 1 ->
  (n = 0 -> diverges (fun fuel => factor_distinct fuel n)) /\
  (n <> 0 ->
   returns (fun fuel => factor_distinct fuel n)
           (if Z.even n then [2] else [])).
Proof.
  intros Hn. split.
  - intros -> fuel. unfold factor_distinct, try_factor.
    change (mpz_divisible_ui_p 0 2) with true. cbv iota.
    now rewrite divide_out_zero.
  - intros Hn0. unfold returns, factor_distinct, try_factor.
    assert (Hparity : mpz_divisible_ui_p n 2 = Z.even n).
    { unfold mpz_divisible_ui_p. cbn [Z.eqb]. rewrite Zeven_mod. reflexivity. }
    rewrite Hparity.
    assert (Hskip : forall fuel m factors, m <= 1 ->
              odd_trials fuel m 3 factors = Ok (m, factors)).
    { intros fuel m factors Hm. destruct fuel; cbn [odd_trials];
        destruct (Z.ltb_spec 1 m); try lia; reflexivity. }
    destruct (Z.even n) eqn:Heven.
    + assert (Hneg : n < 0).
      { destruct (Z.eq_dec n 1) as [->|]; [discriminate|lia]. }
      set (fuel := S (Z.to_nat (Z.log2 (- n)))).
      destruct (divide_out_negative fuel n Hneg) as (n' & Hrun & Hn').
      { pose proof (Z.log2_nonneg (- n)). unfold fuel. lia. }
      exists fuel. rewrite Hrun. cbn [bind app]. rewrite Hskip by lia.
      cbn [bind]. destruct (Z.ltb_spec 1 n'); [lia|reflexivity].
    + exists 0%nat. cbn [bind]. rewrite Hskip by lia. cbn [bind].
      destruct (Z.ltb_spec 1 n); [lia|reflexivity].
Qed.

(** *** Primes *)

Lemma prime_factor_list n factors :
  Z.prime n -> distinct_prime_factors n factors -> factors = [n].
Proof.
  intros Hn [Hnodup Hfactors].
  assert (Hmem : forall q, In q factors <-> q = n).
  { intros q. rewrite Hfactors. split.
    - intros [Hq Hdiv]. now apply Z.divide_prime_prime.
    - intros ->. split; [exact Hn|apply Z.divide_refl]. }
  destruct factors as [|a rest].
  - exfalso. now apply (proj2 (Hmem n)).
  - assert (a = n) by (apply Hmem; now left). subst a. f_equal.
    destruct rest as [|b rest]; [reflexivity|exfalso].
    assert (b = n) by (apply Hmem; right; now left). subst b.
    apply NoDup_cons_iff in Hnodup. apply (proj1 Hnodup). now left.
Qed.

End FactorizerMore.

(** X14.  For [1 < n < ULONG_MAX^2] the factors returned by
    [factor_distinct] are exactly the prime divisors of [n], each listed
    once: every returned factor is a prime that divides [n], and every prime
    that divides [n] is returned. *)
Theorem factor_distinct_complete n :
  1 < n < ULONG_MAX * ULONG_MAX ->
  exists factors,
    returns (fun fuel => factor_distinct fuel n) factors /\
    NoDup factors /\
    forall q, In q factors <-> Z.prime q /\ (q | n).
Proof. exact (factor_distinct_prime_factors n). Qed.

Lemma factor_distinct_complete_witness :
  exists factors,
    returns (fun fuel => factor_distinct fuel 360) factors /\
    NoDup factors /\
    forall q, In q factors <-> Z.prime q /\ (q | 360).
Proof. apply (factor_distinct_complete 360). unfold ULONG_MAX. lia. Defined.

(** X15.  The factors come out in strictly increasing order: [2] first when
    it divides [n], then the odd prime factors as the trial divisor meets
    them, then the prime cofactor that is left. *)
Theorem factor_distinct_increasing n :
  1 < n < ULONG_MAX * ULONG_MAX ->
  exists factors,
    returns (fun fuel => factor_distinct fuel n) factors /\
    StronglySorted Z.lt factors.
Proof.
  intros Hn. pose proof (Z.log2_nonneg n) as Hlog.
  destruct (factor_distinct_run n (Z.to_nat (n + Z.log2 n + 2)) Hn ltac:(lia))
    as (factors & Hrun & _).
  exists factors. split; [eexists; exact Hrun|].
  apply (factor_distinct_order (Z.to_nat (n + Z.log2 n + 2)) n factors);
    [lia|exact Hrun].
Qed.

Lemma factor_distinct_increasing_witness :
  exists factors,
    returns (fun fuel => factor_distinct fuel 360) factors /\
    StronglySorted Z.lt factors.
Proof. apply (factor_distinct_increasing 360). unfold ULONG_MAX. lia. Defined.

(** X16.  Below [2] there is nothing to factor, and [factor_distinct] does
    not factor [|n|]: on [0] the division by [2] never ends; on [1] and on
    negative [n] the loop over the odd divisors is not entered, and the
    result is [[2]] for an even [n] and empty for an odd one. *)
Theorem factor_distinct_nonpositive n :
  n <= 1 ->
  (n = 0 -> diverges (fun fuel => factor_distinct fuel n)) /\
  (n <> 0 ->
   returns (fun fuel => factor_distinct fuel n)
           (if Z.even n then [2] else [])).
Proof. exact (factor_distinct_below_two n). Qed.

Lemma factor_distinct_nonpositive_witness :
  (-30 = 0 -> diverges (fun fuel => factor_distinct fuel (-30))) /\
  (-30 <> 0 ->
   returns (fun fuel => factor_distinct fuel (-30))
           (if Z.even (-30) then [2] else [])).
Proof. apply (factor_distinct_nonpositive (-30)). lia. Defined.

(** X17.  For [1 < n < ULONG_MAX^2], [factor_distinct] returns the one
    factor [n] exactly when [n] is prime. *)
Theorem factor_distinct_singleton_iff_prime n :
  1 < n < ULONG_MAX * ULONG_MAX ->
  (returns (fun fuel => factor_distinct fuel n) [n] <-> Z.prime n).
Proof.
  intros Hn.
  destruct (factor_distinct_prime_factors n Hn) as (factors & Hrun & Hfactors).
  split.
  - intros Hrun'.
    rewrite (factor_distinct_deterministic n _ _ Hrun Hrun') in Hfactors.
    apply (proj2 Hfactors n). now left.
  - intros Hprime. now rewrite <- (prime_factor_list n factors Hprime Hfactors).
Qed.

Lemma factor_distinct_singleton_iff_prime_witness :
  returns (fun fuel => factor_distinct fuel 97) [97] <-> Z.prime 97.
Proof. apply (factor_distinct_singleton_iff_prime 97). unfold ULONG_MAX. lia. Defined.

(** ** The generator searches, to the end of [unsigned long] *)

Section SearchWraps.

(** A search that no candidate up to [ULONG_MAX] stops wraps around to
    [0]. *)
Lemma generator_search_wraps test :
  test 0 <> 0 ->
  forall k cand, 0 <= cand -> ULONG_MAX - cand = Z.of_nat k ->
  exists g,
    returns (fun fuel => generator_search fuel test cand) g /\
    test g <> 0 /\
    ((cand <= g <= ULONG_MAX /\ forall c, cand <= c < g -> test c = 0) \/
     (g = 0 /\ forall c, cand <= c <= ULONG_MAX -> test c = 0)).
Proof.
  intros Hzero. induction k as [|k IH]; intros cand Hcand Hk.
  - assert (cand = ULONG_MAX) by lia. subst cand.
    destruct (Z.eq_dec (test ULONG_MAX) 0) as [Hfail|Hpass].
    + exists 0. split; [|split; [exact Hzero|]].
      * exists 2%nat. cbn [generator_search]. rewrite Hfail. cbn [Z.eqb].
        change (ulong (ULONG_MAX + 1)) with 0.
        destruct (Z.eqb_spec (test 0) 0); [contradiction|reflexivity].
      * right. split; [reflexivity|]. intros c Hc.
        now replace c with ULONG_MAX by lia.
    + exists ULONG_MAX. split; [|split; [exact Hpass|]].
      * exists 1%nat. cbn [generator_search].
        destruct (Z.eqb_spec (test ULONG_MAX) 0); [contradiction|reflexivity].
      * left. split; [lia|]. intros c Hc. lia.
  - destruct (Z.eq_dec (test cand) 0) as [Hfail|Hpass].
    + destruct (IH (cand + 1)) as (g & [fuel Hrun] & Hg & Hwhere); try lia.
      exists g. split; [|split; [exact Hg|]].
      * exists (S fuel). cbn [generator_search]. rewrite Hfail. cbn [Z.eqb].
        rewrite ulong_small by lia. exact Hrun.
      * destruct Hwhere as [[Hrange Hleast]|[-> Hnone]].
        -- left. split; [lia|]. intros c Hc.
           destruct (Z.eq_dec c cand) as [->|]; [exact Hfail|apply Hleast; lia].
        -- right. split; [reflexivity|]. intros c Hc.
           destruct (Z.eq_dec c cand) as [->|]; [exact Hfail|apply Hnone; lia].
    + exists cand. split; [|split; [exact Hpass|]].
      * exists 1%nat. cbn [generator_search].
        destruct (Z.eqb_spec (test cand) 0); [contradiction|reflexivity].
      * left. split; [lia|]. intros c Hc. lia.
Qed.

(** The search of [main] for a prime [p] and the prime factors of
    [p - 1]. *)
Lemma find_generator_wraps p factors start :
  Z.prime p -> (forall q, In q factors <-> Z.prime q /\ (q | p - 1)) ->
  0 <= start <= ULONG_MAX ->
  exists g,
    returns (fun fuel => find_generator fuel p factors (length factors) start) g /\
    (g mod p <> 0 -> primitive_root g p) /\
    ((start <= g <= ULONG_MAX /\
      forall c, start <= c < g -> ~ primitive_root c p) \/
     (g = 0 /\ forall c, start <= c <= ULONG_MAX -> ~ primitive_root c p)).
Proof.
  intros Hp Hfactors Hstart. pose proof (Z.prime_ge_2 p Hp) as Hge.
  set (test := fun alpha => is_generator alpha p factors (length factors)).
  assert (Hzero : test 0 <> 0).
  { unfold test. apply is_generator_criterion; [lia|].
    apply (multiple_satisfies_criterion p factors 0 Hp).
    intros q Hq. now apply Hfactors. }
  assert (Hreject : forall c, test c = 0 -> ~ primitive_root c p).
  { intros c Hc Hroot. pose proof Hroot as [Hunit _].
    apply (is_generator_iff_primitive_root p factors c Hp Hfactors Hunit)
      in Hroot.
    unfold test in Hc. lia. }
  destruct (generator_search_wraps test Hzero (Z.to_nat (ULONG_MAX - start)) start)
    as (g & Hrun & Hg & Hwhere); try lia.
  exists g. split; [exact Hrun|]. split.
  - intros Hunit.
    apply (is_generator_iff_primitive_root p factors g Hp Hfactors Hunit).
    destruct (is_generator_zero_or_one g p factors (length factors));
      [lia|contradiction|assumption].
  - destruct Hwhere as [[Hrange Hleast]|[-> Hnone]]; [left|right]; auto.
Qed.

End SearchWraps.

(** ** The number of factors *)

Section FactorCount.

Lemma multiplicity_positive q n :
  2 <= q -> 1 <= n -> (q | n) -> 1 <= multiplicity q n.
Proof.
  intros Hq Hn Hdiv. pose proof (multiplicity_nonneg q n) as Hnonneg.
  destruct (multiplicity_spec q n Hq Hn) as [_ Hmax].
  destruct (Z.eq_dec (multiplicity q n) 0) as [E|]; [|lia].
  exfalso. apply Hmax. rewrite E. now rewrite Z.pow_1_r.
Qed.

Lemma power_product_lower n factors :
  1 <= n -> (forall q, In q factors -> Z.prime q /\ (q | n)) ->
  2 ^ Z.of_nat (length factors) <= power_product n factors.
Proof.
  intros Hn. induction factors as [|q rest IH]; intros Hfactors.
  - cbn. lia.
  - change (power_product n (q :: rest))
      with (q ^ multiplicity q n * power_product n rest).
    cbn [length]. rewrite Nat2Z.inj_succ, Z.pow_succ_r by lia.
    destruct (Hfactors q ltac:(now left)) as [Hq Hdiv].
    pose proof (Z.prime_ge_2 q Hq) as Hq2.
    pose proof (multiplicity_positive q n Hq2 Hn Hdiv) as Hmult.
    assert (Hpow : 2 <= q ^ multiplicity q n).
    { replace (multiplicity q n) with (Z.succ (multiplicity q n - 1)) by lia.
      rewrite Z.pow_succ_r by lia.
      pose proof (pow_ge_1 q (multiplicity q n - 1) ltac:(lia) ltac:(lia)).
      nia. }
    assert (Hrest : 2 ^ Z.of_nat (length rest) <= power_product n rest).
    { apply IH. intros q' Hq'. apply Hfactors. now right. }
    pose proof (pow_ge_1 2 (Z.of_nat (length rest)) ltac:(lia) ltac:(lia)).
    nia.
Qed.

Lemma factor_distinct_count n fuel factors :
  1 < n < ULONG_MAX * ULONG_MAX ->
  factor_distinct fuel n = Ok factors ->
  2 ^ Z.of_nat (length factors) <= n /\ (length factors < 128)%nat.
Proof.
  intros Hn Hrun. pose proof (Z.log2_nonneg n) as Hlog.
  destruct (factor_distinct_run n (Z.to_nat (n + Z.log2 n + 2)) Hn ltac:(lia))
    as (factors' & Hrun' & Hprime & _ & Hprod & Hdiv).
  assert (factors' = factors) as ->.
  { apply (factor_distinct_deterministic n); eexists; eassumption. }
  assert (Hlow : 2 ^ Z.of_nat (length factors) <= n).
  { apply (Z.le_trans _ (power_product n factors)); [|lia].
    apply power_product_lower; [lia|].
    intros q Hq. split; [|now apply Hdiv].
    now apply (proj1 (Forall_forall _ _) Hprime). }
  split; [exact Hlow|].
  assert (Hlt : 2 ^ Z.of_nat (length factors) < 2 ^ 128).
  { unfold ULONG_MAX in Hn. lia. }
  apply Z.pow_lt_mono_r_iff in Hlt; lia.
Qed.

End FactorCount.

(** ** The size of the safe prime *)

Section SafePrimeSize.

Variable gmp : substrate.

Lemma gen_safe_prime_candidate digits_to_bits fuel st digits P r :
  (forall st n, 0 <= n -> 0 <= fst (mpz_urandomb gmp st n)) ->
  gen_safe_prime gmp digits_to_bits fuel st digits = Ok (P, r) ->
  exists x, 2 ^ 128 <= x /\ r = mpz_nextprime gmp x /\ P = 2 * r + 1.
Proof.
  intros Hdraw Hrun. unfold gen_safe_prime in Hrun.
  set (bits := if digits_to_bits digits <? 130 then 130
               else digits_to_bits digits) in Hrun.
  assert (Hbits : 130 <= bits).
  { unfold bits. destruct (Z.ltb_spec (digits_to_bits digits) 130); lia. }
  apply gen_safe_prime_loop_candidate in Hrun.
  destruct Hrun as (st0 & Hr & HP).
  eexists. split; [|split; [exact Hr|lia]].
  apply (Z.le_trans _ (2 ^ (bits - 2))).
  - apply Z.pow_le_mono_r; lia.
  - apply setbit_lower; [apply Hdraw|]; lia.
Qed.

End SafePrimeSize.

Section SearchWrapsFirst.

(** The search of [main], by what it stops at: a candidate that the test
    rejects is neither a multiple of [p] nor a primitive root. *)
Lemma find_generator_wraps_first p factors start :
  Z.prime p -> (forall q, In q factors <-> Z.prime q /\ (q | p - 1)) ->
  0 <= start <= ULONG_MAX ->
  exists g,
    returns (fun fuel => find_generator fuel p factors (length factors) start) g /\
    (g mod p = 0 \/ primitive_root g p) /\
    ((start <= g <= ULONG_MAX /\
      forall c, start <= c < g -> c mod p <> 0 /\ ~ primitive_root c p) \/
     (g = 0 /\
      forall c, start <= c <= ULONG_MAX ->
                c mod p <> 0 /\ ~ primitive_root c p)).
Proof.
  intros Hp Hfactors Hstart. pose proof (Z.prime_ge_2 p Hp) as Hge.
  set (test := fun alpha => is_generator alpha p factors (length factors)).
  assert (Hmultiple : forall c, c mod p = 0 -> test c <> 0).
  { intros c Hc. unfold test. apply is_generator_criterion; [lia|].
    rewrite (Z.div_mod c p) by lia. rewrite Hc, Z.add_0_r, Z.mul_comm.
    apply (multiple_satisfies_criterion p factors (c / p) Hp).
    intros q Hq. now apply Hfactors. }
  assert (Hreject : forall c, test c = 0 ->
                              c mod p <> 0 /\ ~ primitive_root c p).
  { intros c Hc. split.
    - intros Hz. now apply (Hmultiple c Hz).
    - intros Hroot. pose proof Hroot as [Hunit _].
      apply (is_generator_iff_primitive_root p factors c Hp Hfactors Hunit)
        in Hroot.
      unfold test in Hc. lia. }
  destruct (generator_search_wraps test (Hmultiple 0 ltac:(now apply Z.mod_0_l; lia))
              (Z.to_nat (ULONG_MAX - start)) start)
    as (g & Hrun & Hg & Hwhere); try lia.
  exists g. split; [exact Hrun|]. split.
  - destruct (Z.eq_dec (g mod p) 0) as [Hz|Hunit]; [now left|right].
    apply (is_generator_iff_primitive_root p factors g Hp Hfactors Hunit).
    destruct (is_generator_zero_or_one g p factors (length factors));
      [lia|contradiction|assumption].
  - destruct Hwhere as [[Hrange Hleast]|[-> Hnone]]; [left|right]; auto.
Qed.

End SearchWrapsFirst.

(** X18.  For a safe prime [P = 2 * r + 1] the search of the second [main]
    returns from every start.  It returns the first candidate at or above
    [start] that is a primitive root modulo [P] or a multiple of [P], which
    the test accepts as well; when no candidate from [start] to [ULONG_MAX]
    is either, the counter wraps around and the search returns [0]. *)
Theorem find_generator_safe_prime_total P r start :
  Z.prime P -> Z.prime r -> P = 2 * r + 1 -> 0 <= start <= ULONG_MAX ->
  exists g,
    returns (fun fuel => find_generator_safe_prime fuel P r start) g /\
    (g mod P = 0 \/ primitive_root g P) /\
    ((start <= g <= ULONG_MAX /\
      forall c, start <= c < g -> c mod P <> 0 /\ ~ primitive_root c P) \/
     (g = 0 /\
      forall c, start <= c <= ULONG_MAX ->
                c mod P <> 0 /\ ~ primitive_root c P)).
Proof.
  intros HP Hr -> Hstart.
  apply (find_generator_wraps_first (2 * r + 1) [2; r] start HP);
    [|exact Hstart].
  intros q. now apply safe_prime_factors.
Qed.

Lemma find_generator_safe_prime_total_witness :
  exists g,
    returns (fun fuel => find_generator_safe_prime fuel 23 11 22) g /\
    (g mod 23 = 0 \/ primitive_root g 23) /\
    ((22 <= g <= ULONG_MAX /\
      forall c, 22 <= c < g -> c mod 23 <> 0 /\ ~ primitive_root c 23) \/
     (g = 0 /\
      forall c, 22 <= c <= ULONG_MAX ->
                c mod 23 <> 0 /\ ~ primitive_root c 23)).
Proof.
  apply (find_generator_safe_prime_total 23 11 22);
    try (apply prime_by_trial_sound; reflexivity);
    [reflexivity|unfold ULONG_MAX; lia].
Defined.

(** X19.  The first [main], for any prime [2 < P < ULONG_MAX^2], threshold
    and private keys in place of its constants: it returns, both sides
    compute the same secret [alpha ^ (XA * XB) mod P], and the [alpha] it
    found is a primitive root modulo [P] unless it is a multiple of [P]. *)
Theorem main_generic_correct P threshold XA XB :
  Z.prime P -> 2 < P < ULONG_MAX * ULONG_MAX ->
  0 <= threshold <= ULONG_MAX -> 0 <= XA -> 0 <= XB ->
  exists alpha YA YB S,
    returns (fun fuel => main_generic fuel P threshold XA XB)
            (alpha, (YA, YB, S, S)) /\
    (alpha mod P <> 0 -> primitive_root alpha P) /\
    S = alpha ^ (XA * XB) mod P.
Proof.
  intros HP Hrange Hthreshold HXA HXB.
  destruct (factor_distinct_prime_factors (P - 1) ltac:(lia))
    as (factors & [fuel1 Hfactor] & _ & Hfactors).
  destruct (find_generator_wraps P factors (ulong (threshold + 1)) HP Hfactors)
    as (alpha & [fuel2 Hsearch] & Hroot & _).
  { unfold ulong, ULONG_MAX.
    pose proof (Z.mod_pos_bound (threshold + 1) (2 ^ 64) ltac:(lia)). lia. }
  exists alpha, (mpz_powm alpha XA P), (mpz_powm alpha XB P),
         (alpha ^ (XA * XB) mod P).
  split; [|split; [exact Hroot|reflexivity]].
  exists (Nat.max fuel1 fuel2). unfold main_generic.
  rewrite (factor_distinct_more fuel1 (P - 1) factors Hfactor) by lia.
  cbn [bind]. unfold find_generator in *.
  rewrite (generator_search_more fuel2 _ _ alpha Hsearch) by lia.
  cbn [bind]. unfold dh_exchange.
  rewrite !mpz_powm_pos by lia.
  rewrite !Z.mod_pow_l, <- !Z.pow_mul_r by lia.
  now rewrite (Z.mul_comm XB XA).
Qed.

Lemma main_generic_correct_witness :
  exists alpha YA YB S,
    returns (fun fuel => main_generic fuel 23 15 6 15)
            (alpha, (YA, YB, S, S)) /\
    (alpha mod 23 <> 0 -> primitive_root alpha 23) /\
    S = alpha ^ (6 * 15) mod 23.
Proof.
  apply (main_generic_correct 23 15 6 15); try (unfold ULONG_MAX; lia).
  apply prime_by_trial_sound. reflexivity.
Defined.

(** X20.  For [1 < n < ULONG_MAX^2], [factor_distinct] stores fewer than
    [128] factors, [2 ^ k <= n] for the [k] it stores: the array of [256]
    that [main] hands over is never overrun. *)
Theorem factor_distinct_fits_array n fuel factors :
  1 < n < ULONG_MAX * ULONG_MAX ->
  factor_distinct fuel n = Ok factors ->
  2 ^ Z.of_nat (length factors) <= n /\ (length factors < 128)%nat.
Proof. exact (factor_distinct_count n fuel factors). Qed.

Lemma factor_distinct_fits_array_witness :
  2 ^ Z.of_nat (length [2; 3; 5]) <= 360 /\ (length [2; 3; 5] < 128)%nat.
Proof.
  apply (factor_distinct_fits_array 360 10 [2; 3; 5]).
  - unfold ULONG_MAX. lia.
  - vm_compute. reflexivity.
Defined.

(** X21.  When [mpz_urandomb] draws non-negative samples, the [r] that
    [gen_safe_prime] returns is what [mpz_nextprime] makes of a value of at
    least [2 ^ 128], whatever [digits] asks for: the sample has at least
    [129] bits and its top bit set. *)
Theorem gen_safe_prime_candidate_size
    (gmp : substrate) (digits_to_bits : Z -> Z) fuel st digits P r :
  (forall st n, 0 <= n -> 0 <= fst (mpz_urandomb gmp st n)) ->
  gen_safe_prime gmp digits_to_bits fuel st digits = Ok (P, r) ->
  exists x, 2 ^ 128 <= x /\ r = mpz_nextprime gmp x /\ P = 2 * r + 1.
Proof. exact (gen_safe_prime_candidate gmp digits_to_bits fuel st digits P r). Qed.

Lemma gen_safe_prime_candidate_size_witness :
  exists x,
    2 ^ 128 <= x /\
    340282366920938463463374607431768219863 = mpz_nextprime fermat_substrate x /\
    680564733841876926926749214863536439727
    = 2 * 340282366920938463463374607431768219863 + 1.
Proof.
  apply (gen_safe_prime_candidate_size fermat_substrate digits_to_bits_exact
           1 8406 39).
  - intros st n Hn. cbn [fermat_substrate mpz_urandomb fst].
    apply Z.mod_pos_bound. apply Z.pow_pos_nonneg; lia.
  - vm_compute. reflexivity.
Defined.
